(** * Multi-file project configuration: [meltano/core/project_files.py]

    A shallow embedding of [deep_merge] and of the [ProjectFiles] class
    (include resolution, origin index, [load], [update]) together with the
    properties of the merge / split cycle. *)

From Stdlib Require Import List Ascii String ZArith Bool Lia Permutation.
Import ListNotations.
Open Scope string_scope.
Open Scope list_scope.

Set Implicit Arguments.
Set Warnings "-register-all".

(* ===================================================================== *)
(** ** Documents *)
(* ===================================================================== *)

(** The parsed YAML values the algorithms distinguish: mappings
    ([isinstance(value, dict)]), sequences ([isinstance(value, list)]) and
    everything else.  Scalars are opaque to the code apart from hashing,
    equality and [str.join]; the model carries [None], integers and strings. *)
Inductive scalar : Type :=
| SNull
| SInt (z : Z)
| SStr (s : string).

(** A mapping is an insertion-ordered association list, as a Python [dict]
    (and ruamel's [CommentedMap]) is; the operations below keep keys unique. *)
Inductive value : Type :=
| Scalar (s : scalar)
| Dict (items : list (string * value))
| Seq (items : list value).

Definition None_ : value := Scalar SNull.
Definition Str (s : string) : value := Scalar (SStr s).

Definition scalar_eqb (a b : scalar) : bool :=
  match a, b with
  | SNull, SNull => true
  | SInt x, SInt y => Z.eqb x y
  | SStr x, SStr y => String.eqb x y
  | _, _ => false
  end.

(* ===================================================================== *)
(** ** Exceptions *)
(* ===================================================================== *)

Abbreviation path := string.

(** The exceptions the module raises itself ([InvalidIncludePath], the bare
    [Exception("Duplicate plugin name found.")]) and the ones Python raises
    under it. *)
Inductive exn : Type :=
| InvalidIncludePath (file_path : path) (* "Included path '{file_path}' not found." *)
| DuplicatePluginName                   (* Exception("Duplicate plugin name found.") *)
| YAMLError (file_path : path)
| OSError (file_path : path)
| AttributeError
| TypeError
| ValueError
| NotImplementedError
| KeyError (key : string).

Inductive result (A : Type) : Type :=
| Ok (a : A)
| Raise (e : exn).
Arguments Ok {A} a.
Arguments Raise {A} e.

Definition rbind {A B} (r : result A) (k : A -> result B) : result B :=
  match r with
  | Ok a => k a
  | Raise e => Raise e
  end.

Declare Scope result_scope.
Delimit Scope result_scope with result.
Notation "x <- c ;; k" := (rbind c (fun x => k))
  (at level 61, c at next level, right associativity) : result_scope.
Notation "' p <- c ;; k" := (rbind c (fun p => k))
  (at level 61, p pattern, c at next level, right associativity) : result_scope.

(* ===================================================================== *)
(** ** Python [dict] and [list] operations on values *)
(* ===================================================================== *)

Section Assoc.
Variable V : Type.

Fixpoint lookup (k : string) (items : list (string * V)) : option V :=
  match items with
  | [] => None
  | (k', v) :: rest => if String.eqb k k' then Some v else lookup k rest
  end.

(** [d[k] = v] on the items: an existing key keeps its position, a new key
    goes last. *)
Fixpoint assign (k : string) (v : V) (items : list (string * V)) : list (string * V) :=
  match items with
  | [] => [(k, v)]
  | (k', v') :: rest =>
      if String.eqb k k' then (k', v) :: rest else (k', v') :: assign k v rest
  end.

Definition keys (items : list (string * V)) : list string := map fst items.
End Assoc.

(** Python's [==] on documents: sequences compare item by item, mappings
    compare as [dict]s, whatever the order of their keys (ruamel's
    [CommentedMap.__eq__] is [dict.__eq__]). *)
Fixpoint py_eqb (a b : value) {struct a} : bool :=
  match a, b with
  | Scalar x, Scalar y => scalar_eqb x y
  | Seq l, Seq l' =>
      (fix all2 (l l' : list value) {struct l} : bool :=
         match l, l' with
         | [], [] => true
         | x :: l, y :: l' => py_eqb x y && all2 l l'
         | _, _ => false
         end) l l'
  | Dict m, Dict m' =>
      Nat.eqb (List.length m) (List.length m')
      && (fix each (m : list (string * value)) {struct m} : bool :=
            match m with
            | [] => true
            | (k, v) :: rest =>
                match lookup k m' with
                | Some v' => py_eqb v v'
                | None => false
                end && each rest
            end) m
  | _, _ => false
  end.

(** [d.get(key, default)]. *)
Definition get (d : value) (key : string) (default : value) : result value :=
  match d with
  | Dict items => Ok (match lookup key items with Some v => v | None => default end)
  | _ => Raise AttributeError
  end.

(** [d.setdefault(key, default)]: the value now under [key], and [d] after the
    call. *)
Definition setdefault (d : value) (key : string) (default : value) : result (value * value) :=
  match d with
  | Dict items =>
      match lookup key items with
      | Some v => Ok (v, d)
      | None => Ok (default, Dict (assign key default items))
      end
  | _ => Raise AttributeError
  end.

(** [d[key] = v]. *)
Definition setitem (d : value) (key : string) (v : value) : result value :=
  match d with
  | Dict items => Ok (Dict (assign key v items))
  | _ => Raise TypeError
  end.

(** [d[key]] with a string key. *)
Definition getitem (d : value) (key : string) : result value :=
  match d with
  | Dict items =>
      match lookup key items with
      | Some v => Ok v
      | None => Raise (KeyError key)
      end
  | _ => Raise TypeError
  end.

(** [node.extend(more)]. *)
Definition extend (node : value) (more : list value) : result value :=
  match node with
  | Seq l => Ok (Seq (l ++ more))
  | _ => Raise AttributeError
  end.

(** [d.items()]. *)
Definition items_of (d : value) : result (list (string * value)) :=
  match d with
  | Dict items => Ok items
  | _ => Raise AttributeError
  end.

Fixpoint chars (s : string) : list value :=
  match s with
  | EmptyString => []
  | String c rest => Str (String c EmptyString) :: chars rest
  end.

(** [for x in v]: what iteration over a value yields. *)
Definition iterate (v : value) : result (list value) :=
  match v with
  | Seq l => Ok l
  | Dict items => Ok (map Str (keys items))
  | Scalar (SStr s) => Ok (chars s)
  | Scalar _ => Raise TypeError
  end.

(* ===================================================================== *)
(** ** [deep_merge] *)
(* ===================================================================== *)

Open Scope result_scope.

(** The body of the inner loop of [deep_merge] for one [(key, value)] of a
    child; [rec value node] stands for [deep_merge(node, [value])]. *)
Definition merge_entry (rec : value -> value -> result value)
                       (key : string) (v : value) (base : value) : result value :=
  match v with
  | Dict _ =>
      '(node, base) <- setdefault base key (Dict []) ;;
      merged <- rec v node ;;
      setitem base key merged
  | Seq l =>
      '(node, base) <- setdefault base key (Seq []) ;;
      node <- extend node l ;;
      setitem base key node
  | Scalar _ => setitem base key v
  end.

(** [for key, value in child.items(): ...] run on [base]. *)
Fixpoint merge_child (child : value) (base : value) {struct child} : result value :=
  match child with
  | Dict items =>
      (fix each (items : list (string * value)) (base : value) : result value :=
         match items with
         | [] => Ok base
         | (key, v) :: rest =>
             base <- merge_entry (fun v' node => merge_child v' node) key v base ;;
             each rest base
         end) items base
  | _ => Raise AttributeError
  end.

(** [deep_merge(parent, children)]; [copy.deepcopy] is the identity on
    immutable values. *)
Fixpoint deep_merge (parent : value) (children : list value) : result value :=
  match children with
  | [] => Ok parent
  | child :: rest =>
      base <- merge_child child parent ;;
      deep_merge base rest
  end.

Close Scope result_scope.

(** [for x in l: state = body(state, x)] for code that only raises. *)
Fixpoint foldM {S A : Type} (body : S -> A -> result S) (l : list A) (s : S) : result S :=
  match l with
  | [] => Ok s
  | x :: rest => rbind (body s x) (foldM body rest)
  end.

(* ===================================================================== *)
(** ** The world of a [ProjectFiles] object *)
(* ===================================================================== *)

(** A Python tuple used as a dictionary key, before and after hashing: a
    mapping or a sequence inside it is unhashable. *)
Definition tuple := list value.
Definition entity_key := list scalar.

Fixpoint hashed (t : tuple) : result entity_key :=
  match t with
  | [] => Ok []
  | Scalar s :: rest => rbind (hashed rest) (fun k => Ok (s :: k))
  | _ :: _ => Raise TypeError
  end.

Definition key_eqb (a b : entity_key) : bool :=
  Nat.eqb (List.length a) (List.length b) && forallb (fun p => scalar_eqb (fst p) (snd p)) (combine a b).

(** [_plugin_file_map]: entity key to the string of the file that owns it. *)
Definition index := list (entity_key * string).

Fixpoint index_get (map : index) (key : entity_key) : option string :=
  match map with
  | [] => None
  | (k, file) :: rest => if key_eqb key k then Some file else index_get rest key
  end.

Record ProjectFiles : Type := mkProjectFiles {
  root : path;
  _meltano : value;                 (* [None] or the cached root document *)
  _meltano_file_path : path;
  _plugin_file_map : index
}.

Inductive content : Type :=
| Yaml (doc : value)      (* text that parses to [doc] *)
| Malformed.              (* text the YAML parser rejects *)

Inductive node : Type :=
| Directory
| RegularFile (c : content).

(** The project directory: what is at each path, and what the host's
    [Path.glob] does with a relative pattern under a directory: the paths it
    yields, or the exception it raises in place of the first of them (a
    [ValueError] for a [**] that is only part of a path component, in the
    Python versions that refuse it).  A path that is yielded with nothing
    behind it is a dangling link.  [glob_refusal] is the exception the
    host's [Path.glob] has for a pattern that is a list or a mapping (with
    items: its [TypeError], or the [KeyError] or [AttributeError] of older
    versions, which subscript the pattern first). *)
Record filesystem : Type := mkFilesystem {
  entries : path -> option node;
  path_glob : path -> string -> result (list path);
  glob_refusal : value -> exn
}.

(** [Path(dir).glob(pat)], consumed to its end.  [Path.glob] is a generator:
    what it raises, it raises when the first path is asked for.  It starts
    with [if not pattern: raise ValueError("Unacceptable pattern")], then
    refuses a pattern with a root ([NotImplementedError("Non-relative
    patterns are unsupported")]); the rest is the host's. *)
Definition glob_result (d : filesystem) (dir : path) (pat : string) : result (list path) :=
  match pat with
  | EmptyString => Raise ValueError
  | String "/"%char _ => Raise NotImplementedError
  | _ => path_glob d dir pat
  end.

(** The same for whatever the pattern list holds (Python up to 3.12): what
    is falsy ([None], [0], an empty list or mapping) is refused by the same
    [if not pattern] as the empty string, a number with the [TypeError] of
    parsing it as a path. *)
Definition glob_value (d : filesystem) (dir : path) (pattern : value) : result (list path) :=
  match pattern with
  | Scalar (SStr pat) => glob_result d dir pat
  | Scalar SNull | Scalar (SInt Z0) | Dict [] | Seq [] => Raise ValueError
  | Scalar (SInt _) => Raise TypeError
  | _ => Raise (glob_refusal d pattern)
  end.

(** The paths a pattern yields: none when [Path.glob] refuses it. *)
Definition glob (d : filesystem) (dir : path) (pat : string) : list path :=
  match glob_result d dir pat with
  | Ok l => l
  | Raise _ => []
  end.

(** [Path.glob] takes the pattern. *)
Definition accepts (d : filesystem) (dir : path) (pat : string) : bool :=
  match glob_result d dir pat with
  | Ok _ => true
  | Raise _ => false
  end.

(** What [logger.critical] receives. *)
Inductive log_record : Type :=
| InvalidIncludeLogged (p : path)
    (* "Include path '{path}' is invalid: \n {err}" *)
| AlreadyAddedLogged (key_path_string : string) (existing_key_file_path : string)
    (* 'Plugin with path "{key_path_string}" already added in file {existing_key_file_path}.' *)
| YAMLErrorLogged (p : path).
    (* "Error while parsing YAML file: {path} \n {exc}" *)

Record world : Type := mkWorld {
  self : ProjectFiles;
  disk : filesystem;
  logged : list log_record
}.

(** Methods that touch the object, the disk or the log: the world survives an
    exception. *)
Definition M (A : Type) : Type := world -> result A * world.

Definition ret {A} (a : A) : M A := fun w => (Ok a, w).
Definition raise {A} (e : exn) : M A := fun w => (Raise e, w).
Definition bind {A B} (m : M A) (k : A -> M B) : M B :=
  fun w => match m w with
           | (Ok a, w') => k a w'
           | (Raise e, w') => (Raise e, w')
           end.
Definition lift {A} (r : result A) : M A := fun w => (r, w).

Declare Scope py_scope.
Delimit Scope py_scope with py.
Notation "x <- c ;; k" := (bind c (fun x => k))
  (at level 61, c at next level, right associativity) : py_scope.
Notation "c ;;; k" := (bind c (fun _ => k))
  (at level 61, right associativity) : py_scope.

Fixpoint for_each {A} (l : list A) (body : A -> M unit) : M unit :=
  match l with
  | [] => ret tt
  | x :: rest => bind (body x) (fun _ => for_each rest body)
  end.

Definition get_self : M ProjectFiles := fun w => (Ok (self w), w).
Definition set_meltano (d : value) : M unit :=
  fun w => (Ok tt, mkWorld (mkProjectFiles (root (self w)) d (_meltano_file_path (self w))
                                            (_plugin_file_map (self w)))
                           (disk w) (logged w)).
Definition set_plugin_file_map (m : index) : M unit :=
  fun w => (Ok tt, mkWorld (mkProjectFiles (root (self w)) (_meltano (self w))
                                            (_meltano_file_path (self w)) m)
                           (disk w) (logged w)).
Definition critical (r : log_record) : M unit :=
  fun w => (Ok tt, mkWorld (self w) (disk w) (logged w ++ [r])).
Definition get_disk : M filesystem := fun w => (Ok (disk w), w).

(** [open(p)] followed by [yaml.load]. *)
Definition read_yaml (p : path) : M value :=
  fun w => match entries (disk w) p with
           | Some (RegularFile (Yaml doc)) => (Ok doc, w)
           | Some (RegularFile Malformed) => (Raise (YAMLError p), w)
           | Some Directory | None => (Raise (OSError p), w)
           end.

Definition write (p : path) (doc : value) (d : filesystem) : filesystem :=
  mkFilesystem (fun q => if String.eqb q p then Some (RegularFile (Yaml doc)) else entries d q)
               (path_glob d) (glob_refusal d).

(** [_write_file]: [atomic_write(file_path, overwrite=True)] and [yaml.dump];
    what is read back from the file is the document written.  (Failures of
    the write primitive are outside the model.) *)
Definition _write_file (file_path : path) (contents : value) : M unit :=
  fun w => (Ok tt, mkWorld (self w) (write file_path contents (disk w)) (logged w)).

Notation "' p <- c ;; k" := (bind c (fun p => k))
  (at level 61, p pattern, c at next level, right associativity) : py_scope.

(** [for x in l: acc = body(acc, x)] for a local variable [acc]. *)
Fixpoint fold_each {S A} (l : list A) (acc : S) (body : S -> A -> M S) : M S :=
  match l with
  | [] => ret acc
  | x :: rest => bind (body acc x) (fun acc' => fold_each rest acc' body)
  end.

(** [try: m  except E as err: handler(err)]; [handler] answers [None] for an
    exception the clause does not catch. *)
Definition try_except {A} (m : M A) (handler : exn -> option (M A)) : M A :=
  fun w => match m w with
           | (Raise e, w') =>
               match handler e with
               | Some h => h w'
               | None => (Raise e, w')
               end
           | ok => ok
           end.

(* ===================================================================== *)
(** ** [ProjectFiles]: cache and include resolution *)
(* ===================================================================== *)

Open Scope py_scope.

Definition BLANK_SUBFILE : value := Dict [("plugins", Dict []); ("schedules", Seq [])].

(** The [meltano] property. *)
Definition meltano : M value :=
  me <- get_self ;;
  match _meltano me with
  | Scalar SNull =>
      doc <- read_yaml (_meltano_file_path me) ;;
      set_meltano doc ;;;
      ret doc
  | cached => ret cached
  end.

Definition reset_cache : M unit := set_meltano None_.

Definition is_file (d : filesystem) (p : path) : bool :=
  match entries d p with
  | Some (RegularFile _) => true
  | _ => false
  end.

Definition exists_ (d : filesystem) (p : path) : bool :=
  match entries d p with
  | Some _ => true
  | None => false
  end.

Definition _is_valid_include_path (file_path : path) : M unit :=
  d <- get_disk ;;
  if negb (is_file d file_path && exists_ d file_path)
  then raise (InvalidIncludePath file_path)
  else ret tt.

Definition mem (p : string) (l : list string) : bool := existsb (String.eqb p) l.

(** [list.remove(x)]: the first occurrence goes. *)
Fixpoint remove_first (p : string) (l : list string) : list string :=
  match l with
  | [] => []
  | q :: rest => if String.eqb p q then rest else q :: remove_first p rest
  end.

(** [list(OrderedDict.fromkeys(l))]. *)
Definition fromkeys (l : list string) : list string :=
  fold_left (fun seen p => if mem p seen then seen else seen ++ [p]) l [].

(** The body of the inner loop of [_resolve_include_paths]. *)
Definition resolve_match (include_paths : list path) (p : path) : M (list path) :=
  try_except (_is_valid_include_path p)
    (fun err => match err with
                | InvalidIncludePath _ =>
                    Some (critical (InvalidIncludeLogged p) ;;; raise err)
                | _ => None
                end) ;;;
  ret (include_paths ++ [p]).

(** The body of its outer loop; a pattern [Path.glob] refuses raises when
    its turn comes. *)
Definition resolve_pattern (me : ProjectFiles) (include_paths : list path) (pattern : value)
  : M (list path) :=
  d <- get_disk ;;
  matched <- lift (glob_value d (root me) pattern) ;;
  include_paths <- fold_each matched include_paths resolve_match ;;
  if mem (_meltano_file_path me) include_paths
  then ret (remove_first (_meltano_file_path me) include_paths)
  else ret include_paths.

Definition _resolve_include_paths (include_path_patterns : value) : M (list path) :=
  me <- get_self ;;
  patterns <- lift (iterate include_path_patterns) ;;
  include_paths <- fold_each patterns [] (resolve_pattern me) ;;
  (* Deduplicate entries *)
  ret (fromkeys include_paths).

(** The [include_paths] property. *)
Definition include_paths : M (list path) :=
  doc <- meltano ;;
  include_path_patterns <- lift (get doc "include_paths" (Seq [])) ;;
  _resolve_include_paths include_path_patterns.

(* ===================================================================== *)
(** ** [ProjectFiles]: the origin index and [load] *)
(* ===================================================================== *)

(** [sep.join(t)]: every item has to be a [str]. *)
Fixpoint join (sep : string) (t : tuple) : result string :=
  match t with
  | [] => Ok EmptyString
  | Scalar (SStr s) :: rest =>
      match rest with
      | [] => Ok s
      | _ => rbind (join sep rest) (fun r => Ok (s ++ sep ++ r)%string)
      end
  | _ :: _ => Raise TypeError
  end.

Definition _add_to_index (key : tuple) (include_path : path) : M unit :=
  me <- get_self ;;
  k <- lift (hashed key) ;;
  match index_get (_plugin_file_map me) k with
  | Some existing_key_file_path =>
      key_path_string <- lift (join ":" key) ;;
      critical (AlreadyAddedLogged key_path_string existing_key_file_path) ;;;
      raise DuplicatePluginName
  | None => set_plugin_file_map (_plugin_file_map me ++ [(k, include_path)])
  end.

Definition _index_file (include_file_path : path) (include_file_contents : value) : M unit :=
  (* index plugins *)
  all_plugins <- lift (get include_file_contents "plugins" (Dict [])) ;;
  typed <- lift (items_of all_plugins) ;;
  for_each typed (fun '(plugin_type, plugins) =>
    plugins <- lift (iterate plugins) ;;
    for_each plugins (fun plugin =>
      name <- lift (getitem plugin "name") ;;
      _add_to_index [Str "plugins"; Str plugin_type; name] include_file_path)) ;;;
  (* index schedules *)
  schedules <- lift (get include_file_contents "schedules" (Seq [])) ;;
  schedules <- lift (iterate schedules) ;;
  for_each schedules (fun schedule =>
    name <- lift (getitem schedule "name") ;;
    _add_to_index [Str "schedules"; name] include_file_path) ;;;
  (* index environments *)
  environments <- lift (get include_file_contents "environments" (Seq [])) ;;
  environments <- lift (iterate environments) ;;
  for_each environments (fun environment =>
    name <- lift (getitem environment "name") ;;
    _add_to_index [Str "environments"; name] include_file_path).

(** The body of the loop of [_load_included_files]. *)
Definition load_included_file (included_file_contents : list value) (p : path)
  : M (list value) :=
  try_except
    (contents <- read_yaml p ;;
     (* TODO: validate dict schema *)
     _index_file p contents ;;;
     ret (included_file_contents ++ [contents]))
    (fun exc => match exc with
                | YAMLError _ => Some (critical (YAMLErrorLogged p) ;;; raise exc)
                | _ => None
                end).

Definition _load_included_files : M (list value) :=
  set_plugin_file_map [] ;;;
  paths <- include_paths ;;
  fold_each paths [] load_included_file.

Definition load : M value :=
  (* meltano file may have changed in another process, so reset cache first *)
  reset_cache ;;;
  included_file_contents <- _load_included_files ;;
  doc <- meltano ;;
  lift (deep_merge doc included_file_contents).

(* ===================================================================== *)
(** ** [ProjectFiles]: splitting a configuration and [update] *)
(* ===================================================================== *)

Close Scope py_scope.
Open Scope result_scope.

(** [hash(v)] for a single value. *)
Definition hash (v : value) : result scalar :=
  match v with
  | Scalar s => Ok s
  | _ => Raise TypeError
  end.

(** [{x["name"] for x in entities}]. *)
Definition names_in (entities : value) : result (list scalar) :=
  l <- iterate entities ;;
  foldM (fun names x => name <- getitem x "name" ;; name <- hash name ;; Ok (names ++ [name]))
        l [].

(** [node.append(x)]. *)
Definition append (node : value) (x : value) : result value := extend node [x].

(** The tail shared by [_add_plugin], [_add_schedule] and [_add_environment]:
    [entities = d.setdefault(collection, [])], then [entity] is appended
    unless its name is already there. *)
Definition add_unique (d : value) (collection : string) (entity : value) : result value :=
  '(entities, d) <- setdefault d collection (Seq []) ;;
  name <- getitem entity "name" ;;
  names <- names_in entities ;;
  name <- hash name ;;
  entities <- (if negb (existsb (scalar_eqb name) names)
               then append entities entity else Ok entities) ;;
  setitem d collection entities.

Definition _add_plugin (file_dicts : value) (file : string) (plugin_type : string)
                       (plugin : value) : result value :=
  '(file_dict, file_dicts) <- setdefault file_dicts file (Dict []) ;;
  '(plugins_dict, file_dict) <- setdefault file_dict "plugins" (Dict []) ;;
  plugins_dict <- add_unique plugins_dict plugin_type plugin ;;
  file_dict <- setitem file_dict "plugins" plugins_dict ;;
  setitem file_dicts file file_dict.

Definition _add_schedule (file_dicts : value) (file : string) (schedule : value) : result value :=
  '(file_dict, file_dicts) <- setdefault file_dicts file (Dict []) ;;
  file_dict <- add_unique file_dict "schedules" schedule ;;
  setitem file_dicts file file_dict.

Definition _add_environment (file_dicts : value) (file : string) (environment : value)
  : result value :=
  '(file_dict, file_dicts) <- setdefault file_dicts file (Dict []) ;;
  file_dict <- add_unique file_dict "environments" environment ;;
  setitem file_dicts file file_dict.

(** [self._plugin_file_map.get(key, str(self._meltano_file_path))]. *)
Definition file_of (me : ProjectFiles) (key : tuple) : result string :=
  k <- hashed key ;;
  Ok (match index_get (_plugin_file_map me) k with
      | Some file => file
      | None => _meltano_file_path me
      end).

Definition _add_plugins (me : ProjectFiles) (file_dicts : value) (all_plugins : value)
  : result value :=
  typed <- items_of all_plugins ;;
  foldM (fun file_dicts '(plugin_type, plugins) =>
           plugins <- iterate plugins ;;
           foldM (fun file_dicts plugin =>
                    name <- get plugin "name" None_ ;;
                    file <- file_of me [Str "plugins"; Str plugin_type; name] ;;
                    _add_plugin file_dicts file plugin_type plugin)
                 plugins file_dicts)
        typed file_dicts.

Definition _add_schedules (me : ProjectFiles) (file_dicts : value) (schedules : value)
  : result value :=
  schedules <- iterate schedules ;;
  foldM (fun file_dicts schedule =>
           name <- getitem schedule "name" ;;
           file <- file_of me [Str "schedules"; name] ;;
           _add_schedule file_dicts file schedule)
        schedules file_dicts.

Definition _add_environments (me : ProjectFiles) (file_dicts : value) (environments : value)
  : result value :=
  environments <- iterate environments ;;
  foldM (fun file_dicts environment =>
           name <- getitem environment "name" ;;
           file <- file_of me [Str "environments"; name] ;;
           _add_environment file_dicts file environment)
        environments file_dicts.

(** The body of the loop of [_split_config_dict]. *)
Definition split_entry (me : ProjectFiles) (file_dicts : value) (kv : string * value)
  : result value :=
  let '(key, v) := kv in
  if String.eqb key "plugins" then _add_plugins me file_dicts v
  else if String.eqb key "schedules" then _add_schedules me file_dicts v
  else if String.eqb key "environments" then _add_environments me file_dicts v
  else
    let file := _meltano_file_path me in
    '(file_dict, file_dicts) <- setdefault file_dicts file (Dict []) ;;
    file_dict <- setitem file_dict key v ;;
    setitem file_dicts file file_dict.

(** The loop of [_split_config_dict], from an empty [file_dicts]. *)
Definition split_loop (me : ProjectFiles) (config : value) : result value :=
  entries_ <- items_of config ;;
  foldM (split_entry me) entries_ (Dict []).

(** [key in d]. *)
Definition contains (d : value) (key : string) : bool :=
  match d with
  | Dict items => match lookup key items with Some _ => true | None => false end
  | _ => false
  end.

(** The class of the mappings the split makes: the [else] branch of
    [_split_config_dict] makes a [CommentedMap()], while [_add_plugin],
    [_add_schedule] and [_add_environment] make a plain [{}].  Only the group
    of the root file can be either, and [setdefault] keeps the mapping that
    is there: after an entry the group of the root file is a [CommentedMap]
    if it was one before, or if it was not there and the entry is a
    setting. *)
Definition root_commented_after (me : ProjectFiles) (file_dicts : value) (commented : bool)
           (kv : string * value) : bool :=
  let '(key, _) := kv in
  commented
  || (negb (contains file_dicts (_meltano_file_path me))
      && negb (String.eqb key "plugins" || String.eqb key "schedules"
               || String.eqb key "environments")).

(** The body of the loop, with the class of the root file's group beside
    [file_dicts]. *)
Definition split_entry_classes (me : ProjectFiles) (state : value * bool)
           (kv : string * value) : result (value * bool) :=
  let '(file_dicts, commented) := state in
  file_dicts' <- split_entry me file_dicts kv ;;
  Ok (file_dicts', root_commented_after me file_dicts commented kv).

Definition split_loop_classes (me : ProjectFiles) (config : value) : result (value * bool) :=
  entries_ <- items_of config ;;
  foldM (split_entry_classes me) entries_ (Dict [], false).

(** [config.copy_attributes(target)]: ruamel's [CommentedBase] does
    [setattr(target, a, getattr(self, a))] for each formatting attribute
    that [self] has.  A configuration is a [CommentedMap] as the round-trip
    loader gives it and as [copy.deepcopy] keeps it: it has its line and
    column at least.  A [CommentedMap] takes the attributes, a plain [dict]
    takes none: [setattr] raises [AttributeError]. *)
Definition copy_attributes (target_commented : bool) : result unit :=
  if target_commented then Ok tt else Raise AttributeError.

(** [_split_config_dict]: the loop, then
    [config.copy_attributes(file_dicts[str(self._meltano_file_path)])], whose
    argument is evaluated before the call. *)
Definition _split_config_dict (me : ProjectFiles) (config : value) : result value :=
  '(file_dicts, commented) <- split_loop_classes me config ;;
  _ <- getitem file_dicts (_meltano_file_path me) ;;
  _ <- copy_attributes commented ;;
  Ok file_dicts.

Close Scope result_scope.
Open Scope py_scope.

Definition update (meltano_config : value) : M value :=
  me <- get_self ;;
  file_dicts <- lift (_split_config_dict me meltano_config) ;;
  groups <- lift (items_of file_dicts) ;;
  for_each groups (fun '(file_path, contents) => _write_file file_path contents) ;;;
  paths <- include_paths ;;
  let unused_files := filter (fun fl => negb (contains file_dicts fl)) paths in
  for_each unused_files (fun unused_file_path => _write_file unused_file_path BLANK_SUBFILE) ;;;
  reset_cache ;;;
  ret meltano_config.

Close Scope py_scope.

(* ===================================================================== *)
(** ** Vocabulary of the statements *)
(* ===================================================================== *)

(** The include list as the specification words it: each path once, where
    it first occurs. *)
Fixpoint unseen (seen : list path) (l : list path) : list path :=
  match l with
  | [] => []
  | p :: rest => if mem p seen then unseen seen rest else p :: unseen (p :: seen) rest
  end.

Definition first_occurrences (l : list path) : list path := unseen [] l.

Definition invalid (d : filesystem) (p : path) : bool :=
  negb (is_file d p && exists_ d p).

(** The log with one more record, everything else as it was. *)
Definition with_log (w : world) (r : log_record) : world :=
  mkWorld (self w) (disk w) (logged w ++ [r]).

(** [if root in include_paths: include_paths.remove(root)]. *)
Definition strip_root (rootp : path) (l : list path) : list path :=
  if mem rootp l then remove_first rootp l else l.

(** What the outer loop has accumulated after [pats], when nothing raised. *)
Fixpoint gathered (d : filesystem) (dir rootp : path) (pats : list string) (acc : list path)
  : list path :=
  match pats with
  | [] => acc
  | pat :: rest => gathered d dir rootp rest (strip_root rootp (acc ++ glob d dir pat))
  end.

Definition expansions (d : filesystem) (dir : path) (pats : list string) : list path :=
  flat_map (glob d dir) pats.

(** Every path but the root file. *)
Definition not_path (rootp : path) : path -> bool := fun p => negb (String.eqb p rootp).

(** *** Entities and where they are kept *)

(** The three kinds of collection an entity lives in. *)
Inductive collection : Type :=
| Plugins (plugin_type : string)
| Schedules
| Environments.

Definition collection_eqb (a b : collection) : bool :=
  match a, b with
  | Plugins t, Plugins t' => String.eqb t t'
  | Schedules, Schedules => true
  | Environments, Environments => true
  | _, _ => false
  end.

(** The sequence under [key] in a mapping, empty when there is none. *)
Definition seq_at (d : value) (key : string) : list value :=
  match d with
  | Dict m => match lookup key m with Some (Seq l) => l | _ => [] end
  | _ => []
  end.

(** The mapping under [key] in a mapping, empty when there is none. *)
Definition dict_at (d : value) (key : string) : value :=
  match d with
  | Dict m => match lookup key m with Some x => x | None => Dict [] end
  | _ => Dict []
  end.

(** The records a document keeps in a collection. *)
Definition entities_at (doc : value) (c : collection) : list value :=
  match c with
  | Plugins t => seq_at (dict_at doc "plugins") t
  | Schedules => seq_at doc "schedules"
  | Environments => seq_at doc "environments"
  end.

(** The name of a record, when it has a hashable one. *)
Definition name_of (entity : value) : option scalar :=
  match getitem entity "name" with
  | Ok (Scalar s) => Some s
  | _ => None
  end.

Definition has_name (n : scalar) (entity : value) : bool :=
  match name_of entity with
  | Some m => scalar_eqb n m
  | None => false
  end.

(** [entity] joins [l] unless its name is already there. *)
Definition add_if_new (l : list value) (entity : value) : list value :=
  match name_of entity with
  | Some n => if existsb (has_name n) l then l else l ++ [entity]
  | None => l
  end.

(** One after the other: of records with the same name the first stays. *)
Definition absorb (l : list value) (entities : list value) : list value :=
  fold_left add_if_new entities l.

(** The group [file_dicts] holds for a file, and the records it keeps there. *)
Definition kept (file_dicts : value) (file : string) (c : collection) : list value :=
  entities_at (dict_at file_dicts file) c.

(** A record of the configuration together with the collection it is in. *)
Abbreviation occurrence := (collection * value)%type.

(** The key [_add_plugins], [_add_schedules] and [_add_environments] build
    for a record. *)
Definition key_tuple (o : occurrence) : result tuple :=
  match o with
  | (Plugins t, e) => rbind (get e "name" None_) (fun name => Ok [Str "plugins"; Str t; name])
  | (Schedules, e) => rbind (getitem e "name") (fun name => Ok [Str "schedules"; name])
  | (Environments, e) => rbind (getitem e "name") (fun name => Ok [Str "environments"; name])
  end.

(** The file the origin index (or, failing that, the root file) gives it. *)
Definition file_for (me : ProjectFiles) (o : occurrence) : result string :=
  rbind (key_tuple o) (file_of me).

(** One step of the three loops. *)
Definition place (me : ProjectFiles) (file_dicts : value) (o : occurrence) : result value :=
  rbind (file_for me o) (fun file =>
    match o with
    | (Plugins t, e) => _add_plugin file_dicts file t e
    | (Schedules, e) => _add_schedule file_dicts file e
    | (Environments, e) => _add_environment file_dicts file e
    end).

Definition goes_to (me : ProjectFiles) (file : string) (c : collection) (o : occurrence)
  : bool :=
  collection_eqb (fst o) c
  && match file_for me o with
     | Ok f => String.eqb f file
     | Raise _ => false
     end.

(** The records of [os] the split sends to collection [c] of [file]. *)
Definition placed (me : ProjectFiles) (file : string) (c : collection) (os : list occurrence)
  : list value :=
  map snd (filter (goes_to me file c) os).

Definition iterated (v : value) : list value :=
  match iterate v with
  | Ok l => l
  | Raise _ => []
  end.

Definition is_entity_key (key : string) : bool :=
  String.eqb key "plugins" || String.eqb key "schedules" || String.eqb key "environments".

(** The records under one top-level entry, in the order the split visits them. *)
Definition entry_occurrences (kv : string * value) : list occurrence :=
  let '(key, v) := kv in
  if String.eqb key "plugins" then
    match v with
    | Dict typed => flat_map (fun '(t, ps) => map (pair (Plugins t)) (iterated ps)) typed
    | _ => []
    end
  else if String.eqb key "schedules" then map (pair Schedules) (iterated v)
  else if String.eqb key "environments" then map (pair Environments) (iterated v)
  else [].

Definition occurrences (config : value) : list occurrence :=
  match config with
  | Dict entries_ => flat_map entry_occurrences entries_
  | _ => []
  end.

(** What one step of the split does to [file_dicts]: [entity] joins the
    collection [target] of [file] unless its name is there. *)
Definition joins (fd : value) (file : string) (target : collection) (entity : value)
           (fd' : value) : Prop :=
  exists g g',
    fd = Dict g /\ fd' = Dict g'
    /\ keys g' = keys (assign file (Dict []) g)
    /\ (exists n, name_of entity = Some n)
    /\ forall f c,
        kept fd' f c
        = if String.eqb f file && collection_eqb c target
          then add_if_new (kept fd file target) entity
          else kept fd f c.

(** The split sends [o] to [file]. *)
Definition sent_to (me : ProjectFiles) (file : string) (o : occurrence) : bool :=
  match file_for me o with
  | Ok f => String.eqb f file
  | Raise _ => false
  end.

(** A top-level entry that is no collection: a setting. *)
Definition is_other (kv : string * value) : bool := negb (is_entity_key (fst kv)).

(** The disk after a run of [_write_file]. *)
Definition written (files : list (path * value)) (d : filesystem) : filesystem :=
  fold_left (fun d '(p, c) => write p c d) files d.

Definition on_disk (w : world) (d : filesystem) : world :=
  mkWorld (self w) d (logged w).

(** The split gives the root file something: a setting, or a record the
    index does not know. *)
Definition assigns_root (me : ProjectFiles) (config : value) : bool :=
  existsb (sent_to me (_meltano_file_path me)) (occurrences config)
  || match config with
     | Dict entries_ => existsb is_other entries_
     | _ => false
     end.

(** The first thing the split gives the root file is a setting, so that the
    group of the root file is a [CommentedMap]. *)
Fixpoint root_by_setting (me : ProjectFiles) (entries_ : list (string * value)) : bool :=
  match entries_ with
  | [] => false
  | kv :: rest =>
      if is_other kv then true
      else if existsb (sent_to me (_meltano_file_path me)) (entry_occurrences kv) then false
      else root_by_setting me rest
  end.

Definition commented_root (me : ProjectFiles) (config : value) : bool :=
  match config with
  | Dict entries_ => root_by_setting me entries_
  | _ => false
  end.

(** A method that writes no file. *)
Definition keeps_disk {A} (m : M A) : Prop :=
  forall w r w', m w = (r, w') -> disk w' = disk w.

(** *** Keys of records *)

(** The tuple built for a record of collection [c] with name [name]. *)
Definition tuple_of (c : collection) (name : value) : tuple :=
  match c with
  | Plugins t => [Str "plugins"; Str t; name]
  | Schedules => [Str "schedules"; name]
  | Environments => [Str "environments"; name]
  end.

(** The same as an entity key, for a hashable name. *)
Definition key_of (c : collection) (n : scalar) : entity_key :=
  match c with
  | Plugins t => [SStr "plugins"; SStr t; n]
  | Schedules => [SStr "schedules"; n]
  | Environments => [SStr "environments"; n]
  end.

(** The entity key of a record that has a name. *)
Definition entity_key_of (o : occurrence) : option entity_key :=
  match name_of (snd o) with
  | Some n => Some (key_of (fst o) n)
  | None => None
  end.

(** One step of the loops of [_index_file]. *)
Definition index_occurrence (include_file_path : path) (o : occurrence) : M unit :=
  bind (lift (getitem (snd o) "name")) (fun name =>
  _add_to_index (tuple_of (fst o) name) include_file_path).

(** The records a file declares, in the order [_index_file] visits them. *)
Definition declared (doc : value) : list occurrence :=
  match get doc "plugins" (Dict []) with
  | Ok (Dict typed) => flat_map (fun '(t, ps) => map (pair (Plugins t)) (iterated ps)) typed
  | _ => []
  end
  ++ match get doc "schedules" (Seq []) with
     | Ok v => map (pair Schedules) (iterated v)
     | Raise _ => []
     end
  ++ match get doc "environments" (Seq []) with
     | Ok v => map (pair Environments) (iterated v)
     | Raise _ => []
     end.

Definition with_index (w : world) (m : index) : world :=
  mkWorld (mkProjectFiles (root (self w)) (_meltano (self w)) (_meltano_file_path (self w)) m)
          (disk w) (logged w).

Definition with_meltano (w : world) (doc : value) : world :=
  mkWorld (mkProjectFiles (root (self w)) doc (_meltano_file_path (self w))
                          (_plugin_file_map (self w)))
          (disk w) (logged w).

(** The index entries a file contributes. *)
Definition index_entries (p : path) (os : list occurrence) : index :=
  flat_map (fun o => match entity_key_of o with
                     | Some k => [(k, p)]
                     | None => []
                     end) os.

(** The index [_load_included_files] builds from the files it read. *)
Definition files_index (paths : list path) (docs : list value) : index :=
  flat_map (fun '(p, doc) => index_entries p (declared doc)) (combine paths docs).

(** [p] is a regular file holding the YAML of [doc]. *)
Definition holds (d : filesystem) (p : path) (doc : value) : Prop :=
  entries d p = Some (RegularFile (Yaml doc)).

(** The records of collection [c] in a configuration, in the order the split
    visits them. *)
Definition records (c : collection) (config : value) : list value :=
  map snd (filter (fun o => collection_eqb (fst o) c) (occurrences config)).

(** The file the split gives a record of collection [c] named [n]. *)
Definition home (me : ProjectFiles) (c : collection) (n : scalar) : string :=
  match index_get (_plugin_file_map me) (key_of c n) with
  | Some file => file
  | None => _meltano_file_path me
  end.

(** *** The merge rule, key by key *)

(** The value a key gets when a child brings [v] for it and the base has
    [old] (or nothing): a scalar replaces, a sequence is appended to the
    sequence there, a mapping is merged into the mapping there. *)
Definition merged (old : option value) (v : value) : result value :=
  match v with
  | Scalar _ => Ok v
  | Seq l =>
      match old with
      | None => Ok (Seq l)
      | Some (Seq l0) => Ok (Seq (l0 ++ l))
      | Some _ => Raise AttributeError
      end
  | Dict _ => deep_merge (match old with Some node => node | None => Dict [] end) [v]
  end.

(** The values the children bring for [key], in order. *)
Definition values_at (key : string) (children : list value) : list value :=
  flat_map (fun child => match child with
                         | Dict items => match lookup key items with
                                         | Some v => [v]
                                         | None => []
                                         end
                         | _ => []
                         end) children.

Definition is_seq (v : value) : Prop := exists l, v = Seq l.
Definition is_dict (v : value) : Prop := exists m, v = Dict m.

(** A mapping as Python has it: no key twice. *)
Definition well_keyed (v : value) : Prop :=
  exists items, v = Dict items /\ NoDup (keys items).

Definition items_in (v : value) : list value :=
  match v with
  | Seq l => l
  | _ => []
  end.

(** What a key holds after the values [vs] came for it one after the other. *)
Definition merged_all (old : option value) (vs : list value) : result (option value) :=
  foldM (fun old v => rbind (merged old v) (fun x => Ok (Some x))) vs old.

(** The keys of the records a document declares, and of those a list of
    documents declares, in indexing order. *)
Definition keys_declared (doc : value) : list entity_key :=
  flat_map (fun o => match entity_key_of o with
                     | Some k => [k]
                     | None => []
                     end) (declared doc).

Definition declared_keys (docs : list value) : list entity_key :=
  flat_map keys_declared docs.

(** [k] is in [l] at least twice. *)
Definition repeated {A : Type} (k : A) (l : list A) : Prop :=
  exists l1 l2 l3, l = l1 ++ k :: l2 ++ k :: l3.

(** *** Well-formed include files and the first duplicate *)

Definition string_named (o : occurrence) : Prop :=
  exists s, name_of (snd o) = Some (SStr s).

(** A file [_index_file] can go through: a mapping whose collections are
    sequences of records named by strings. *)
Definition indexable (doc : value) : Prop :=
  exists items,
    doc = Dict items
    /\ match lookup "plugins" items with
       | None => True
       | Some (Dict typed) => Forall (fun tv => is_seq (snd tv)) typed
       | Some _ => False
       end
    /\ match lookup "schedules" items with
       | None => True
       | Some v => is_seq v
       end
    /\ match lookup "environments" items with
       | None => True
       | Some v => is_seq v
       end
    /\ Forall string_named (declared doc).

(** A record that has a name, whatever it is. *)
Definition keyed (o : occurrence) : Prop :=
  exists n, name_of (snd o) = Some n.

(** A mapping whose collections, where it has them, are sequences. *)
Definition sequenced (doc : value) : Prop :=
  exists items,
    doc = Dict items
    /\ match lookup "plugins" items with
       | None => True
       | Some (Dict typed) => Forall (fun tv => is_seq (snd tv)) typed
       | Some _ => False
       end
    /\ match lookup "schedules" items with
       | None => True
       | Some v => is_seq v
       end
    /\ match lookup "environments" items with
       | None => True
       | Some v => is_seq v
       end.

(** [":".join(key)] for a key of strings. *)
Definition key_path_string (k : entity_key) : string :=
  match join ":" (map Scalar k) with
  | Ok s => s
  | Raise _ => EmptyString
  end.

(** Indexing the records of one file: the index reached, and the key found
    there already (with the file it has) if indexing stopped on one. *)
Fixpoint index_all (p : path) (os : list occurrence) (idx : index)
  : index * option (entity_key * string) :=
  match os with
  | [] => (idx, None)
  | o :: rest =>
      match entity_key_of o with
      | Some k =>
          match index_get idx k with
          | Some f => (idx, Some (k, f))
          | None => index_all p rest (idx ++ [(k, p)])
          end
      | None => (idx, None)
      end
  end.

(** The same over the files of the include list. *)
Fixpoint index_files (files : list (path * value)) (idx : index)
  : index * option (entity_key * string) :=
  match files with
  | [] => (idx, None)
  | (p, doc) :: rest =>
      match index_all p (declared doc) idx with
      | (idx', None) => index_files rest idx'
      | stop => stop
      end
  end.

(** What the world is after indexing stopped on a duplicate. *)
Definition stopped (w : world) (idx : index) (k : entity_key) (f : string) : world :=
  with_log (with_index w idx) (AlreadyAddedLogged (key_path_string k) f).

(** The paths an exception and a log record name. *)
Definition paths_in_exn (e : exn) : list path :=
  match e with
  | InvalidIncludePath p | YAMLError p | OSError p => [p]
  | _ => []
  end.

Definition paths_in_log (r : log_record) : list path :=
  match r with
  | InvalidIncludeLogged p | YAMLErrorLogged p => [p]
  | AlreadyAddedLogged _ f => [f]
  end.

(* ===================================================================== *)
(** ** Concrete projects *)
(* ===================================================================== *)

(** A disk given by its files and by the expansion of each pattern. *)
Definition disk_of (files : list (path * node)) (globs : list (string * list path))
  : filesystem :=
  mkFilesystem (fun p => lookup p files)
               (fun _ pat => Ok (match lookup pat globs with Some l => l | None => [] end))
               (fun _ => TypeError).

(** A fresh [ProjectFiles(root, meltano_file_path)] over a disk. *)
Definition fresh (root_dir meltano_yml : path) (d : filesystem) : world :=
  mkWorld (mkProjectFiles root_dir None_ meltano_yml []) d [].

(** A record with only a name, the least an entity needs. *)
Definition named (name : string) : value := Dict [("name", Str name)].

Module Sample.
Definition root_yml : path := "/p/meltano.yml".
Definition inc_yml : path := "/p/inc.yml".
Definition a_yml : path := "/p/a.yml".
Definition b_yml : path := "/p/b.yml".

Definition A : value := named "A".
Definition B : value := named "B".
Definition daily : value := named "daily".

(** A root file with one schedule, and one include file with another. *)
Definition root_doc : value :=
  Dict [("include_paths", Seq [Str "*.yml"]); ("schedules", Seq [A])].
Definition inc_doc : value := Dict [("schedules", Seq [B])].

Definition project : filesystem :=
  disk_of [(root_yml, RegularFile (Yaml root_doc)); (inc_yml, RegularFile (Yaml inc_doc))]
          [("*.yml", [inc_yml; root_yml]); ("inc.*", [inc_yml])].

Definition started : world := fresh "/p" root_yml project.
Definition loaded : world := snd (load started).
Definition composite : value :=
  Dict [("include_paths", Seq [Str "*.yml"]); ("schedules", Seq [A; B])].

(** Two include files that both declare the schedule [daily]. *)
Definition twice : filesystem :=
  disk_of [(root_yml, RegularFile (Yaml (Dict [("include_paths", Seq [Str "*.yml"])])));
           (a_yml, RegularFile (Yaml (Dict [("schedules", Seq [daily])])));
           (b_yml, RegularFile (Yaml (Dict [("schedules", Seq [daily])])))]
          [("*.yml", [a_yml; b_yml; root_yml])].

(** The root file and an include file that both declare [daily]. *)
Definition shared : filesystem :=
  disk_of [(root_yml, RegularFile (Yaml (Dict [("include_paths", Seq [Str "*.yml"]);
                                               ("schedules", Seq [daily])])));
           (inc_yml, RegularFile (Yaml (Dict [("schedules", Seq [daily])])))]
          [("*.yml", [inc_yml; root_yml])].

(** A pattern that matches a directory. *)
Definition with_directory : filesystem :=
  disk_of [(root_yml, RegularFile (Yaml root_doc)); (inc_yml, RegularFile (Yaml inc_doc));
           ("/p/conf.d", Directory)]
          [("*", [inc_yml; "/p/conf.d"; root_yml])].


(** A root file with a setting, a plugin and a schedule, and two include
    files with plugins, a schedule and an environment. *)
Definition layered_root : value :=
  Dict [("version", Scalar (SInt 1)); ("include_paths", Seq [Str "*.yml"]);
        ("plugins", Dict [("extractors", Seq [named "tap-a"])]);
        ("schedules", Seq [A])].
Definition layered_a : value :=
  Dict [("schedules", Seq [B]);
        ("plugins", Dict [("loaders", Seq [named "target-x"]);
                          ("extractors", Seq [named "tap-b"])])].
Definition layered_b : value :=
  Dict [("environments", Seq [named "dev"]);
        ("plugins", Dict [("extractors", Seq [named "tap-c"])])].

Definition layered : filesystem :=
  disk_of [(root_yml, RegularFile (Yaml layered_root));
           (a_yml, RegularFile (Yaml layered_a));
           (b_yml, RegularFile (Yaml layered_b))]
          [("*.yml", [a_yml; b_yml; root_yml])].




(** A root file that starts with its schedules. *)
Definition records_first_root : value :=
  Dict [("schedules", Seq [A]); ("include_paths", Seq [Str "*.yml"])].
Definition records_first : filesystem :=
  disk_of [(root_yml, RegularFile (Yaml records_first_root));
           (inc_yml, RegularFile (Yaml inc_doc))]
          [("*.yml", [inc_yml; root_yml])].

(** A root file that is not well-formed YAML; an empty root file, which
    parses to [None]; a root file without [include_paths]. *)
Definition broken_root : filesystem := disk_of [(root_yml, RegularFile Malformed)] [].
Definition empty_root : filesystem := disk_of [(root_yml, RegularFile (Yaml None_))] [].
Definition plain_doc : value := Dict [("version", Scalar (SInt 1)); ("schedules", Seq [A])].
Definition plain : filesystem := disk_of [(root_yml, RegularFile (Yaml plain_doc))] [].

(** Two include files, the second of which is not well-formed YAML. *)
Definition broken_include : filesystem :=
  disk_of [(root_yml, RegularFile (Yaml root_doc)); (a_yml, RegularFile (Yaml inc_doc));
           (b_yml, RegularFile Malformed)]
          [("*.yml", [a_yml; b_yml; root_yml])].

Definition layered_composite : value :=
  Dict [("version", Scalar (SInt 1)); ("include_paths", Seq [Str "*.yml"]);
        ("plugins", Dict [("extractors", Seq [named "tap-a"; named "tap-b"; named "tap-c"]);
                          ("loaders", Seq [named "target-x"])]);
        ("schedules", Seq [A; B]);
        ("environments", Seq [named "dev"])].
End Sample.

(** *** Documents as Python has them, and tidy project files *)

(** No mapping anywhere in the document has a key twice. *)
Fixpoint wf (v : value) : Prop :=
  match v with
  | Scalar _ => True
  | Dict m =>
      NoDup (keys m)
      /\ (fix all (m : list (string * value)) : Prop :=
            match m with
            | [] => True
            | (_, x) :: rest => wf x /\ all rest
            end) m
  | Seq l =>
      (fix all (l : list value) : Prop :=
         match l with
         | [] => True
         | x :: rest => wf x /\ all rest
         end) l
  end.

(** Two mappings with the same keys and the same value under each. *)
Definition same_lookups (a b : list (string * value)) : Prop :=
  NoDup (keys a) /\ NoDup (keys b) /\ forall k, lookup k a = lookup k b.

(** Two optional values that are both missing, or mappings with the same
    lookups. *)
Definition close (x y : option value) : Prop :=
  match x, y with
  | None, None => True
  | Some (Dict p), Some (Dict q) => same_lookups p q
  | _, _ => False
  end.

(** Two documents that differ at most in the order of their keys and of the
    plugin types under [plugins]. *)
Definition alike (x y : value) : Prop :=
  exists a b,
    x = Dict a /\ y = Dict b /\ NoDup (keys a) /\ NoDup (keys b)
    /\ (forall k, k <> "plugins" -> lookup k a = lookup k b)
    /\ close (lookup "plugins" a) (lookup "plugins" b).

Definition named_records (l : list value) : Prop :=
  Forall (fun e => exists n, name_of e = Some n) l.

(** A collection, when there is one, is a sequence with a record in it, of
    records that have a name. *)
Definition collection_ok (v : option value) : Prop :=
  match v with
  | None => True
  | Some (Seq l) => l <> [] /\ named_records l
  | Some _ => False
  end.

Definition plugins_ok (v : option value) : Prop :=
  match v with
  | None => True
  | Some (Dict typed) =>
      typed <> [] /\ NoDup (keys typed)
      /\ Forall (fun tv => collection_ok (Some (snd tv))) typed
  | Some _ => False
  end.

(** A project file in good order. *)
Definition tidy (doc : value) : Prop :=
  exists m,
    doc = Dict m /\ NoDup (keys m)
    /\ plugins_ok (lookup "plugins" m)
    /\ collection_ok (lookup "schedules" m)
    /\ collection_ok (lookup "environments" m).


(** An include file in good order: it has records, and nothing else. *)
Definition fragment (doc : value) : Prop :=
  tidy doc /\ doc <> Dict []
  /\ forall m k, doc = Dict m -> In k (keys m) -> is_entity_key k = true.

(** The plugin types of a document, each with what it holds. *)
Definition typed_of (d : value) : list (string * value) :=
  match dict_at d "plugins" with
  | Dict typed => typed
  | _ => []
  end.

(** *** Files that may hold empty collections *)

(** A collection, when there is one, is a sequence that has [Q]. *)
Definition collection_of (Q : list value -> Prop) (v : option value) : Prop :=
  match v with
  | None => True
  | Some (Seq l) => Q l
  | Some _ => False
  end.

(** [plugins], when it is there, is a mapping of plugin types to such
    collections, with no type twice. *)
Definition plugins_of (Q : list value -> Prop) (v : option value) : Prop :=
  match v with
  | None => True
  | Some (Dict typed) =>
      NoDup (keys typed) /\ Forall (fun tv => collection_of Q (Some (snd tv))) typed
  | Some _ => False
  end.

(** A project file whose collections, empty or not, are sequences of
    records that have a name. *)
Definition shaped (doc : value) : Prop :=
  exists m,
    doc = Dict m /\ NoDup (keys m)
    /\ plugins_of named_records (lookup "plugins" m)
    /\ collection_of named_records (lookup "schedules" m)
    /\ collection_of named_records (lookup "environments" m).

(** A file that declares no record: the split has nothing to send to it,
    and [update] writes [BLANK_SUBFILE] over it. *)
Definition bare (doc : value) : Prop := declared doc = [].

(** A composite [update] and the [load] after it give back as it is: each
    plugin type it has holds a record, and so does [environments] when it
    is there; when an include file declares no record, the composite has
    [plugins] and [schedules], as the blanked file will; when every include
    file declares a record, [plugins] and [schedules], where the composite
    has them, are not empty. *)
Definition settled (docs : list value) (composite : value) : Prop :=
  (forall t, In t (keys (typed_of composite)) -> entities_at composite (Plugins t) <> [])
  /\ (contains composite "environments" = true
      -> entities_at composite Environments <> [])
  /\ (Exists bare docs
      -> contains composite "plugins" = true /\ contains composite "schedules" = true)
  /\ (Forall (fun doc => ~ bare doc) docs
      -> (contains composite "plugins" = true -> typed_of composite <> [])
         /\ (contains composite "schedules" = true
             -> entities_at composite Schedules <> [])).


(** The items of an optional sequence. *)
Definition seq_of (x : option value) : list value :=
  match x with
  | Some (Seq l) => l
  | _ => []
  end.

(** The top-level key a collection lives under. *)
Definition collection_key (c : collection) : string :=
  match c with
  | Plugins _ => "plugins"
  | Schedules => "schedules"
  | Environments => "environments"
  end.

(** What the split builds keeps every group tidy. *)
Definition groups_tidy (fd : value) : Prop :=
  exists g, fd = Dict g /\ NoDup (keys g) /\ forall f d, lookup f g = Some d -> tidy d.

(** The value a group of [file_dicts] has under a top-level key. *)
Definition setting_at (fd : value) (file key : string) : option value :=
  match dict_at fd file with
  | Dict m => lookup key m
  | _ => None
  end.

(** A step of the split that leaves the groups tidy and their settings as
    they were. *)
Definition tidy_step (fd fd' : value) : Prop :=
  groups_tidy fd'
  /\ forall f k, is_entity_key k = false -> setting_at fd' f k = setting_at fd f k.

(** A top-level entry whose collection, when it is one, is in good order. *)
Definition entry_ok (kv : string * value) : Prop :=
  let '(key, v) := kv in
  if String.eqb key "plugins" then plugins_ok (Some v)
  else if String.eqb key "schedules" then collection_ok (Some v)
  else if String.eqb key "environments" then collection_ok (Some v)
  else True.

(** A top-level entry whose collection, when it is one, is made of records
    that have a name. *)
Definition entry_shape (kv : string * value) : Prop :=
  let '(key, v) := kv in
  if String.eqb key "plugins" then plugins_of named_records (Some v)
  else if String.eqb key "schedules" then collection_of named_records (Some v)
  else if String.eqb key "environments" then collection_of named_records (Some v)
  else True.

(** The entity key of a record, as a list of none or one. *)
Definition key_list (o : occurrence) : list entity_key :=
  match entity_key_of o with
  | Some k => [k]
  | None => []
  end.

(** The keys of a mapping, in order; nothing for what is no mapping. *)
Definition keys_of (v : value) : list string :=
  match v with
  | Dict items => keys items
  | _ => []
  end.

(* ===================================================================== *)
(** ** [ProjectAddService]: [meltano/core/project_add_service.py] *)
(* ===================================================================== *)

(** The class works through a discovery service and a configuration service
    that live in other modules; they are taken as they come, as functions on
    a state of theirs. *)
Module AddService.

(** What a call into the services raises: the exception [add_related]
    catches, or any other. *)
Inductive raised (E : Type) : Type :=
| PluginAlreadyAddedException
| Other (e : E).
Arguments PluginAlreadyAddedException {E}.
Arguments Other {E} e.

Section ProjectAddService.
Variables PluginType Plugin PluginInstall Services E : Type.

(** A call that returns or raises, and leaves the services in some state. *)
Definition call (A : Type) : Type := Services -> (A + raised E) * Services.

Record collaborators : Type := mkCollaborators {
  type_eqb : PluginType -> PluginType -> bool;       (* [==] on [PluginType] *)
  plugin_type : Plugin -> PluginType;                (* [plugin.type] *)
  plugin_name : Plugin -> string;                    (* [plugin.name] *)
  plugin_namespace : Plugin -> string;               (* [plugin.namespace] *)
  target_type : PluginInstall -> PluginType;         (* [target_plugin.type] *)
  target_namespace : PluginInstall -> string;        (* [target_plugin.namespace] *)
  find_plugin : PluginType -> string -> call Plugin; (* [discovery_service.find_plugin] *)
  as_installed : Plugin -> call PluginInstall;       (* [plugin.as_installed()] *)
  add_to_file : PluginInstall -> call PluginInstall; (* [config_service.add_to_file] *)
  plugins : call (list Plugin)                       (* [discovery_service.plugins()] *)
}.

Variable c : collaborators.

Definition add (plugin_type : PluginType) (plugin_name : string) : call PluginInstall :=
  fun s =>
    match find_plugin c plugin_type plugin_name s with
    | (inl plugin, s1) =>
        match as_installed c plugin s1 with
        | (inl installed, s2) => add_to_file c installed s2
        | (inr e, s2) => (inr e, s2)
        end
    | (inr e, s1) => (inr e, s1)
    end.

(** [try: plugin_types.remove(x)  except ValueError: pass]: the first
    occurrence goes, a list without [x] stays as it is. *)
Fixpoint remove (x : PluginType) (plugin_types : list PluginType) : list PluginType :=
  match plugin_types with
  | [] => []
  | t :: rest => if type_eqb c x t then rest else t :: remove x rest
  end.

(** The list comprehension of [add_related]. *)
Definition related_plugins (target_plugin : PluginInstall) (plugin_types : list PluginType)
           (discovered : list Plugin) : list Plugin :=
  filter (fun plugin =>
            String.eqb (plugin_namespace c plugin) (target_namespace c target_plugin)
            && existsb (type_eqb c (plugin_type c plugin)) plugin_types)
         discovered.

(** The loop of [add_related]. *)
Fixpoint add_each (related : list Plugin) (added_plugins : list PluginInstall)
  : call (list PluginInstall) :=
  match related with
  | [] => fun s => (inl added_plugins, s)
  | plugin :: rest =>
      fun s =>
        match add (plugin_type c plugin) (plugin_name c plugin) s with
        | (inl plugin_install, s1) => add_each rest (added_plugins ++ [plugin_install]) s1
        | (inr PluginAlreadyAddedException, s1) => add_each rest added_plugins s1
        | (inr e, s1) => (inr e, s1)
        end
  end.

(** [add_related(target_plugin, plugin_types)]: what it returns or raises,
    the services after it, and the list [plugin_types] after it (the call
    changes the list it is given). *)
Definition add_related (target_plugin : PluginInstall) (plugin_types : list PluginType)
           (s : Services)
  : (list PluginInstall + raised E) * Services * list PluginType :=
  let plugin_types := remove (target_type c target_plugin) plugin_types in
  match plugins c s with
  | (inl discovered, s1) =>
      (add_each (related_plugins target_plugin plugin_types discovered) [] s1, plugin_types)
  | (inr e, s1) => (inr e, s1, plugin_types)
  end.

(** The object with the services and the list that is the default of
    [plugin_types]: [list(PluginType)], built once, when the method is
    defined, and shared by every call that leaves the argument out. *)
Record world : Type := mkWorld {
  services : Services;
  default_plugin_types : list PluginType
}.

(** [add_related(target_plugin)], the type list left out. *)
Definition add_related_by_default (target_plugin : PluginInstall) (w : world)
  : (list PluginInstall + raised E) * world :=
  match add_related target_plugin (default_plugin_types w) (services w) with
  | (outcome, s, plugin_types) => (outcome, mkWorld s plugin_types)
  end.

End ProjectAddService.

(** A small instance: types are numbers, a plugin is its type, name and
    namespace, the services' state is the list of names added so far. *)
Definition demo : collaborators nat (nat * string * string) (nat * string * string)
                                (list string) unit :=
  mkCollaborators
    Nat.eqb
    (fun p => fst (fst p)) (fun p => snd (fst p)) (fun p => snd p)
    (fun p => fst (fst p)) (fun p => snd p)
    (fun t n s => (inl (t, n, "tap"), s))
    (fun p s => (inl p, s))
    (fun p s => if existsb (String.eqb (snd (fst p))) s
                then (inr PluginAlreadyAddedException, s)
                else (inl p, s ++ [snd (fst p)]))
    (fun s => (inl [(0, "tap-x", "tap"); (1, "target-x", "tap"); (2, "model-x", "tap");
                    (1, "target-y", "other")], s)).

End AddService.
(* ===================================================================== *)
(** * Properties *)
(* ===================================================================== *)

(** ** Scalars and association lists *)

Lemma scalar_eqb_spec (a b : scalar) : reflect (a = b) (scalar_eqb a b).
Proof.
  destruct a as [|x|x], b as [|y|y]; simpl; try (constructor; congruence).
  - destruct (Z.eqb_spec x y); constructor; congruence.
  - destruct (String.eqb_spec x y); constructor; congruence.
Qed.

Section AssocFacts.
Variable V : Type.
Implicit Types (items : list (string * V)) (k : string) (v : V).

Lemma lookup_assign_eq items k v : lookup k (assign k v items) = Some v.
Proof.
  induction items as [|[k' v'] rest IH]; simpl.
  - now rewrite String.eqb_refl.
  - destruct (String.eqb k k') eqn:E; simpl; rewrite E; auto.
Qed.

Lemma lookup_assign_ne items k k' v :
  k' <> k -> lookup k' (assign k v items) = lookup k' items.
Proof.
  intros Hne. induction items as [|[k0 v0] rest IH]; simpl.
  - destruct (String.eqb_spec k' k); congruence.
  - destruct (String.eqb_spec k k0) as [->|Hk]; simpl.
    + destruct (String.eqb_spec k' k0); congruence.
    + destruct (String.eqb_spec k' k0); auto.
Qed.

Lemma lookup_assign items k k' v :
  lookup k' (assign k v items) = if String.eqb k' k then Some v else lookup k' items.
Proof.
  destruct (String.eqb_spec k' k) as [->|Hne].
  - apply lookup_assign_eq.
  - now apply lookup_assign_ne.
Qed.

Lemma lookup_None_keys items k : lookup k items = None <-> ~ In k (keys items).
Proof.
  induction items as [|[k' v'] rest IH]; simpl.
  - tauto.
  - destruct (String.eqb_spec k k') as [->|Hne].
    + split; [discriminate | intros H; exfalso; apply H; now left].
    + rewrite IH. split; intros H; [intros [E|I]; [congruence | tauto] | tauto].
Qed.

Lemma lookup_Some_In items k v : lookup k items = Some v -> In (k, v) items.
Proof.
  induction items as [|[k' v'] rest IH]; simpl; [discriminate|].
  destruct (String.eqb_spec k k') as [->|Hne].
  - intros [= ->]. now left.
  - intros H. right. auto.
Qed.

Lemma In_lookup_NoDup items k v :
  NoDup (keys items) -> In (k, v) items -> lookup k items = Some v.
Proof.
  induction items as [|[k' v'] rest IH]; simpl; [tauto|].
  intros Hnd [E|I]; inversion Hnd; subst.
  - inversion E; subst. now rewrite String.eqb_refl.
  - destruct (String.eqb_spec k k') as [->|Hne]; auto.
    exfalso. apply H1. change k' with (fst (k', v)). now apply in_map.
Qed.

Lemma keys_assign_in items k v :
  In k (keys items) -> keys (assign k v items) = keys items.
Proof.
  induction items as [|[k' v'] rest IH]; simpl; [tauto|].
  destruct (String.eqb_spec k k') as [->|Hne]; simpl; auto.
  intros [E|I]; [congruence|]. now rewrite IH.
Qed.

Lemma keys_assign_new items k v :
  ~ In k (keys items) -> keys (assign k v items) = keys items ++ [k].
Proof.
  induction items as [|[k' v'] rest IH]; simpl; auto.
  destruct (String.eqb_spec k k') as [->|Hne]; simpl.
  - intros H. exfalso. apply H. now left.
  - intros H. rewrite IH; auto.
Qed.

Lemma NoDup_keys_assign items k v : NoDup (keys items) -> NoDup (keys (assign k v items)).
Proof.
  intros Hnd. destruct (in_dec string_dec k (keys items)) as [I|N].
  - now rewrite keys_assign_in.
  - rewrite keys_assign_new by assumption.
    apply NoDup_app; [assumption | repeat constructor; simpl; tauto |].
    intros x Hx [<-|[]]. contradiction.
Qed.
End AssocFacts.

(** ** Include resolution *)

Lemma mem_In (p : string) (l : list string) : mem p l = true <-> In p l.
Proof.
  unfold mem. rewrite existsb_exists. split.
  - intros [x [Hx E]]. apply String.eqb_eq in E. now subst.
  - intros H. exists p. split; [assumption | apply String.eqb_refl].
Qed.

Lemma mem_false (p : string) (l : list string) : mem p l = false <-> ~ In p l.
Proof.
  rewrite <- mem_In. destruct (mem p l); split; congruence.
Qed.

Lemma unseen_ext (seen seen' l : list path) :
  (forall x, In x seen <-> In x seen') -> unseen seen l = unseen seen' l.
Proof.
  revert seen seen'. induction l as [|p rest IH]; intros seen seen' H; simpl; auto.
  assert (E : mem p seen = mem p seen').
  { destruct (mem p seen) eqn:E1, (mem p seen') eqn:E2; auto.
    - apply mem_In in E1. apply mem_false in E2. now apply H in E1.
    - apply mem_In in E2. apply mem_false in E1. now apply H in E2. }
  rewrite E. destruct (mem p seen').
  - now apply IH.
  - f_equal. apply IH. intros x. simpl. rewrite H. tauto.
Qed.

Lemma fromkeys_unseen (l acc : list path) :
  fold_left (fun seen p => if mem p seen then seen else seen ++ [p]) l acc
  = acc ++ unseen acc l.
Proof.
  revert acc. induction l as [|p rest IH]; intros acc; simpl.
  - now rewrite app_nil_r.
  - destruct (mem p acc) eqn:E.
    + apply IH.
    + rewrite IH, <- app_assoc. simpl. do 2 f_equal.
      apply unseen_ext. intros x. rewrite in_app_iff. simpl. tauto.
Qed.

Lemma fromkeys_first_occurrences (l : list path) : fromkeys l = first_occurrences l.
Proof. unfold fromkeys, first_occurrences. now rewrite fromkeys_unseen. Qed.

Lemma unseen_In (seen l : list path) (x : path) :
  In x (unseen seen l) <-> In x l /\ ~ In x seen.
Proof.
  revert seen. induction l as [|p rest IH]; intros seen; simpl.
  - tauto.
  - destruct (mem p seen) eqn:E.
    + apply mem_In in E. rewrite IH. split.
      * tauto.
      * intros [[->|I] N]; [contradiction | tauto].
    + apply mem_false in E. simpl. rewrite IH. simpl. split.
      * intros [->|[I N]]; [tauto|]. tauto.
      * intros [[->|I] N]; [now left|].
        destruct (string_dec p x) as [->|Hne]; [now left | right; tauto].
Qed.

Lemma unseen_NoDup (seen l : list path) : NoDup (unseen seen l).
Proof.
  revert seen. induction l as [|p rest IH]; intros seen; simpl.
  - constructor.
  - destruct (mem p seen); auto.
    constructor; auto. rewrite unseen_In. simpl. tauto.
Qed.

Lemma unseen_app (seen l1 l2 : list path) :
  unseen seen (l1 ++ l2) = unseen seen l1 ++ unseen (rev l1 ++ seen) l2.
Proof.
  revert seen. induction l1 as [|p rest IH]; intros seen; simpl; auto.
  destruct (mem p seen) eqn:E.
  - rewrite IH. f_equal. apply unseen_ext. intros x.
    rewrite !in_app_iff. simpl. apply mem_In in E.
    split; [tauto | intros [[H|[<-|[]]]|H]; tauto].
  - simpl. rewrite IH. do 2 f_equal. apply unseen_ext. intros x.
    rewrite !in_app_iff. simpl. tauto.
Qed.

Lemma find_app_ {A} (f : A -> bool) (l1 l2 : list A) :
  find f (l1 ++ l2) = match find f l1 with Some x => Some x | None => find f l2 end.
Proof.
  induction l1 as [|x rest IH]; simpl; auto. destruct (f x); auto.
Qed.

Lemma invalid_is_file (d : filesystem) (p : path) : invalid d p = negb (is_file d p).
Proof.
  unfold invalid, is_file, exists_. destruct (entries d p) as [[|c]|]; reflexivity.
Qed.

Lemma resolve_match_run (acc : list path) (p : path) (w : world) :
  resolve_match acc p w
  = if invalid (disk w) p
    then (Raise (InvalidIncludePath p), with_log w (InvalidIncludeLogged p))
    else (Ok (acc ++ [p]), w).
Proof.
  unfold resolve_match, bind, try_except, _is_valid_include_path, bind, get_disk, invalid.
  destruct (negb (is_file (disk w) p && exists_ (disk w) p)); reflexivity.
Qed.

Lemma resolve_matches_run (l acc : list path) (w : world) :
  fold_each l acc resolve_match w
  = match find (invalid (disk w)) l with
    | Some p => (Raise (InvalidIncludePath p), with_log w (InvalidIncludeLogged p))
    | None => (Ok (acc ++ l), w)
    end.
Proof.
  revert acc. induction l as [|p rest IH]; intros acc; simpl.
  - now rewrite app_nil_r.
  - unfold bind. rewrite resolve_match_run.
    destruct (invalid (disk w) p); auto.
    rewrite IH, <- app_assoc. reflexivity.
Qed.

Lemma glob_accepted (d : filesystem) (dir : path) (pat : string) :
  accepts d dir pat = true -> glob_result d dir pat = Ok (glob d dir pat).
Proof. unfold accepts, glob. destruct (glob_result d dir pat); [reflexivity | discriminate]. Qed.

Lemma resolve_patterns_run (pats : list string) (acc : list path) (w : world) :
  Forall (fun pat => accepts (disk w) (root (self w)) pat = true) pats ->
  fold_each (map Str pats) acc (resolve_pattern (self w)) w
  = match find (invalid (disk w)) (expansions (disk w) (root (self w)) pats) with
    | Some p => (Raise (InvalidIncludePath p), with_log w (InvalidIncludeLogged p))
    | None => (Ok (gathered (disk w) (root (self w)) (_meltano_file_path (self w)) pats acc), w)
    end.
Proof.
  intros Hacc. revert acc.
  induction Hacc as [|pat rest Hpat Hrest IH]; intros acc; simpl; auto.
  unfold expansions in *. simpl.
  unfold bind at 1. unfold resolve_pattern at 1. unfold bind at 1. unfold get_disk at 1.
  unfold bind at 1. unfold lift at 1. cbn [glob_value Str].
  rewrite (glob_accepted _ _ _ Hpat).
  unfold bind at 1. rewrite resolve_matches_run.
  rewrite find_app_.
  destruct (find (invalid (disk w)) (glob (disk w) (root (self w)) pat)) as [p|]; auto.
  unfold strip_root.
  destruct (mem (_meltano_file_path (self w)) (acc ++ glob (disk w) (root (self w)) pat));
    unfold ret; apply IH.
Qed.

Lemma fold_each_app {S A} (l1 l2 : list A) (acc : S) (body : S -> A -> M S) (w : world) :
  fold_each (l1 ++ l2) acc body w
  = bind (fold_each l1 acc body) (fun acc' => fold_each l2 acc' body) w.
Proof.
  revert acc w. induction l1 as [|x rest IH]; intros acc w; cbn [app fold_each].
  - reflexivity.
  - unfold bind. destruct (body acc x w) as [[acc'|e] w1]; auto.
Qed.

(** The loop stops at the first match that is no regular file: what comes
    after the patterns gone through is not looked at. *)
Lemma resolve_include_paths_abort (pats : list string) (rest : list value) (w : world)
      (offending : path) :
  Forall (fun pat => accepts (disk w) (root (self w)) pat = true) pats ->
  find (invalid (disk w)) (expansions (disk w) (root (self w)) pats) = Some offending ->
  _resolve_include_paths (Seq (map Str pats ++ rest)) w
  = (Raise (InvalidIncludePath offending), with_log w (InvalidIncludeLogged offending)).
Proof.
  intros Hacc Hfind. unfold _resolve_include_paths. unfold bind at 1. unfold get_self at 1.
  unfold bind at 1. unfold lift at 1. cbn [iterate].
  unfold bind at 1. rewrite fold_each_app. unfold bind at 1.
  rewrite resolve_patterns_run by exact Hacc. now rewrite Hfind.
Qed.

Lemma resolve_include_paths_iter (v : value) (pats : list string) (w : world) :
  iterate v = Ok (map Str pats) ->
  Forall (fun pat => accepts (disk w) (root (self w)) pat = true) pats ->
  _resolve_include_paths v w
  = match find (invalid (disk w)) (expansions (disk w) (root (self w)) pats) with
    | Some p => (Raise (InvalidIncludePath p), with_log w (InvalidIncludeLogged p))
    | None =>
        (Ok (fromkeys (gathered (disk w) (root (self w)) (_meltano_file_path (self w)) pats [])),
         w)
    end.
Proof.
  intros Hv Hacc. unfold _resolve_include_paths. unfold bind at 1. unfold get_self at 1.
  unfold bind at 1. unfold lift at 1. rewrite Hv.
  unfold bind at 1. rewrite resolve_patterns_run by exact Hacc.
  destruct (find _ _); reflexivity.
Qed.

Lemma resolve_include_paths_run (pats : list string) (w : world) :
  Forall (fun pat => accepts (disk w) (root (self w)) pat = true) pats ->
  _resolve_include_paths (Seq (map Str pats)) w
  = match find (invalid (disk w)) (expansions (disk w) (root (self w)) pats) with
    | Some p => (Raise (InvalidIncludePath p), with_log w (InvalidIncludeLogged p))
    | None =>
        (Ok (fromkeys (gathered (disk w) (root (self w)) (_meltano_file_path (self w)) pats [])),
         w)
    end.
Proof. now apply resolve_include_paths_iter. Qed.

Lemma find_invalid_None (d : filesystem) (l : list path) :
  (forall p, In p l -> is_file d p = true) -> find (invalid d) l = None.
Proof.
  intros H. induction l as [|p rest IH]; simpl; auto.
  rewrite invalid_is_file, (H p) by now left. simpl. apply IH.
  intros q Hq. apply H. now right.
Qed.

Lemma find_invalid_Some (d : filesystem) (l : list path) (p : path) :
  In p l -> is_file d p = false ->
  exists q, find (invalid d) l = Some q /\ In q l /\ is_file d q = false.
Proof.
  intros Hin Hp. destruct (find (invalid d) l) as [q|] eqn:E.
  - exists q. apply find_some in E. rewrite invalid_is_file in E.
    destruct E as [E1 E2]. apply negb_true_iff in E2. auto.
  - apply find_none with (x := p) in E; auto.
    rewrite invalid_is_file, Hp in E. discriminate.
Qed.

Lemma filter_not_path_id (rootp : path) (l : list path) :
  ~ In rootp l -> filter (not_path rootp) l = l.
Proof.
  induction l as [|q rest IH]; simpl; auto. intros H. unfold not_path at 1.
  destruct (String.eqb_spec q rootp) as [->|Hne]; simpl.
  - exfalso. apply H. now left.
  - f_equal. apply IH. tauto.
Qed.

Lemma remove_first_once (rootp : path) (l : list path) :
  count_occ string_dec l rootp <= 1 -> remove_first rootp l = filter (not_path rootp) l.
Proof.
  induction l as [|q rest IH]; simpl; auto. intros H. unfold not_path at 1.
  destruct (string_dec q rootp) as [->|Hne].
  - rewrite String.eqb_refl. simpl. symmetry. apply filter_not_path_id.
    apply (count_occ_not_In string_dec). lia.
  - destruct (String.eqb_spec rootp q) as [E|_]; [congruence|].
    destruct (String.eqb_spec q rootp) as [E|_]; [congruence|]. simpl.
    f_equal. now apply IH.
Qed.

Lemma remove_first_app (rootp : path) (l1 l2 : list path) :
  ~ In rootp l1 -> remove_first rootp (l1 ++ l2) = l1 ++ remove_first rootp l2.
Proof.
  induction l1 as [|q rest IH]; simpl; auto. intros H.
  destruct (String.eqb_spec rootp q) as [->|Hne]; [tauto|]. f_equal. apply IH. tauto.
Qed.

Lemma strip_root_app (rootp : path) (acc g : list path) :
  ~ In rootp acc -> count_occ string_dec g rootp <= 1 ->
  strip_root rootp (acc ++ g) = acc ++ filter (not_path rootp) g.
Proof.
  intros Hacc Hg. unfold strip_root.
  destruct (mem rootp (acc ++ g)) eqn:E.
  - rewrite remove_first_app, remove_first_once; auto.
  - apply mem_false in E. rewrite filter_not_path_id; auto.
    intros H. apply E. apply in_or_app. now right.
Qed.

Lemma In_filter_not_path (rootp : path) (l : list path) (p : path) :
  In p (filter (not_path rootp) l) <-> In p l /\ p <> rootp.
Proof.
  rewrite filter_In. unfold not_path. destruct (String.eqb_spec p rootp); simpl; split.
  - intros [_ H]. discriminate.
  - tauto.
  - tauto.
  - tauto.
Qed.

Lemma gathered_filter (d : filesystem) (dir rootp : path) (pats : list string)
      (acc : list path) :
  ~ In rootp acc ->
  (forall pat, In pat pats -> count_occ string_dec (glob d dir pat) rootp <= 1) ->
  gathered d dir rootp pats acc = acc ++ filter (not_path rootp) (expansions d dir pats).
Proof.
  revert acc. induction pats as [|pat rest IH]; intros acc Hacc Hg; simpl.
  - now rewrite app_nil_r.
  - unfold expansions in *. simpl. rewrite strip_root_app by (auto; apply Hg; now left).
    rewrite IH.
    + rewrite filter_app, app_assoc. reflexivity.
    + intros H. apply in_app_or in H. destruct H as [H|H]; [tauto|].
      apply In_filter_not_path in H. tauto.
    + intros p Hp. apply Hg. now right.
Qed.

(** C9. When some pattern matches a path that is not an existing regular
    file, [_resolve_include_paths] raises [InvalidIncludePath] for the first
    such path in expansion order (logging it first), and that is all it
    returns: no list of paths comes back.  The patterns [pats] up to the one
    with that match are patterns [Path.glob] takes (one it refuses raises
    its own exception when its turn comes); [rest] is whatever follows them
    in the list, and is not looked at. *)
Theorem invalid_include_path_aborts (w : world) (pats : list string) (rest : list value)
        (p : path) :
  Forall (fun pat => accepts (disk w) (root (self w)) pat = true) pats ->
  In p (expansions (disk w) (root (self w)) pats) ->
  is_file (disk w) p = false ->
  exists offending,
    find (invalid (disk w)) (expansions (disk w) (root (self w)) pats) = Some offending
    /\ In offending (expansions (disk w) (root (self w)) pats)
    /\ is_file (disk w) offending = false
    /\ _resolve_include_paths (Seq (map Str pats ++ rest)) w
       = (Raise (InvalidIncludePath offending),
          with_log w (InvalidIncludeLogged offending)).
Proof.
  intros Hacc Hin Hp.
  destruct (find_invalid_Some _ _ _ Hin Hp) as [q [Hq [Hq1 Hq2]]].
  exists q. repeat split; auto.
  now apply resolve_include_paths_abort.
Qed.

(** C7. When [Path.glob] takes every pattern and every matched path is a
    regular file (and a single expansion lists the root file at most once),
    the resolved list is the matched paths without the root file, each once
    and where it first occurs. *)
Theorem resolved_include_paths (w : world) (pats : list string) :
  let d := disk w in
  let rootp := _meltano_file_path (self w) in
  let matched := expansions d (root (self w)) pats in
  Forall (fun pat => accepts d (root (self w)) pat = true) pats ->
  (forall p, In p matched -> is_file d p = true) ->
  (forall pat, In pat pats -> count_occ string_dec (glob d (root (self w)) pat) rootp <= 1) ->
  exists l,
    _resolve_include_paths (Seq (map Str pats)) w = (Ok l, w)
    /\ l = first_occurrences (filter (not_path rootp) matched)
    /\ ~ In rootp l
    /\ NoDup l
    /\ (forall p, In p l <-> In p matched /\ p <> rootp)
    /\ (forall pre p post,
          filter (not_path rootp) matched = pre ++ p :: post -> ~ In p pre ->
          exists post', l = first_occurrences pre ++ p :: post').
Proof.
  intros d rootp matched Hacc Hvalid Hroot.
  exists (first_occurrences (filter (not_path rootp) matched)).
  assert (HIn : forall p, In p (first_occurrences (filter (not_path rootp) matched))
                          <-> In p matched /\ p <> rootp).
  { intros p. unfold first_occurrences. rewrite unseen_In, In_filter_not_path.
    simpl. tauto. }
  split; [|split; [reflexivity|split; [|split; [|split]]]].
  - rewrite resolve_include_paths_run by exact Hacc.
    fold d. fold matched. rewrite find_invalid_None by assumption.
    fold rootp. rewrite gathered_filter by (simpl; auto).
    simpl. now rewrite fromkeys_first_occurrences.
  - intros H. apply HIn in H. tauto.
  - apply unseen_NoDup.
  - apply HIn.
  - intros pre p post E Hpre. unfold first_occurrences. rewrite E, unseen_app.
    simpl. destruct (mem p (rev pre ++ [])) eqn:M.
    + apply mem_In in M. rewrite app_nil_r in M. apply in_rev in M. contradiction.
    + eexists. reflexivity.
Qed.

(** ** Splitting: one record at a time *)

Lemma rbind_Ok {A B} (r : result A) (k : A -> result B) (b : B) :
  rbind r k = Ok b -> exists a, r = Ok a /\ k a = Ok b.
Proof. destruct r as [a|e]; simpl; [eauto | discriminate]. Qed.

Tactic Notation "inv_bind" hyp(H) "as" simple_intropattern(x) ident(Hx) :=
  apply rbind_Ok in H; destruct H as [x [Hx H]].

Lemma foldM_app {S A} (body : S -> A -> result S) (l1 l2 : list A) (s : S) :
  foldM body (l1 ++ l2) s = rbind (foldM body l1 s) (foldM body l2).
Proof.
  revert s. induction l1 as [|x rest IH]; intros s; simpl; auto.
  destruct (body s x); simpl; auto.
Qed.

Lemma names_in_Seq (l : list value) (names : list scalar) :
  names_in (Seq l) = Ok names ->
  Forall2 (fun e n => name_of e = Some n) l names.
Proof.
  unfold names_in. simpl.
  assert (G : forall acc names,
             foldM (fun names x => rbind (getitem x "name") (fun name =>
                      rbind (hash name) (fun name => Ok (names ++ [name])))) l acc = Ok names ->
             exists more, names = acc ++ more
                          /\ Forall2 (fun e n => name_of e = Some n) l more).
  { induction l as [|e rest IH]; intros acc names0 H; simpl in H.
    - inversion H; subst. exists []. now rewrite app_nil_r.
    - inv_bind H as acc' Hacc. inv_bind Hacc as v Hv. inv_bind Hacc as n Hn.
      inversion Hacc; subst.
      destruct (IH _ _ H) as [more [-> F]].
      exists (n :: more). rewrite <- app_assoc. split; auto.
      constructor; auto. unfold name_of. rewrite Hv.
      destruct v; simpl in Hn; inversion Hn; subst; reflexivity. }
  intros H. destruct (G [] names H) as [more [-> F]]. exact F.
Qed.

Lemma existsb_names (n : scalar) (l : list value) (names : list scalar) :
  Forall2 (fun e m => name_of e = Some m) l names ->
  existsb (scalar_eqb n) names = existsb (has_name n) l.
Proof.
  induction 1 as [|e m l' names' H F IH]; simpl; auto.
  unfold has_name at 1. rewrite H, IH. reflexivity.
Qed.

Lemma assign_absent {V} (k : string) (v v' : V) (m : list (string * V)) :
  lookup k m = None -> assign k v (assign k v' m) = assign k v m.
Proof.
  induction m as [|[k0 v0] rest IH]; simpl.
  - now rewrite String.eqb_refl.
  - destruct (String.eqb k k0) eqn:E; [discriminate|]. simpl. rewrite E.
    intros H. now rewrite IH.
Qed.

(** What a successful [add_unique] did. *)
Lemma add_unique_Ok (d : value) (coll : string) (entity : value) (d' : value) :
  add_unique d coll entity = Ok d' ->
  exists m n,
    d = Dict m
    /\ (lookup coll m = None \/ exists l, lookup coll m = Some (Seq l))
    /\ name_of entity = Some n
    /\ d' = Dict (assign coll (Seq (add_if_new (seq_at d coll) entity)) m).
Proof.
  unfold add_unique. intros H.
  inv_bind H as [entities d1] Hsd.
  inv_bind H as v Hv. inv_bind H as names Hnames. inv_bind H as n Hn.
  inv_bind H as entities' Hent'.
  destruct d as [s|m|l]; simpl in Hsd; try discriminate.
  assert (Hname : name_of entity = Some n).
  { unfold name_of. rewrite Hv. destruct v; simpl in Hn; inversion Hn; now subst. }
  assert (Hent : exists l, entities = Seq l).
  { destruct entities as [s|items|l]; eauto; exfalso.
    - (* a scalar where the list should be *)
      unfold names_in in Hnames. destruct s as [|z|s]; simpl in Hnames; try discriminate.
      destruct s as [|c s]; simpl in Hnames.
      + inversion Hnames; subst. simpl in Hent'. discriminate.
      + discriminate.
    - (* a mapping where the list should be *)
      unfold names_in in Hnames. simpl in Hnames.
      destruct items as [|[k v0] rest]; simpl in Hnames.
      + inversion Hnames; subst. simpl in Hent'. discriminate.
      + discriminate. }
  destruct Hent as [l ->].
  assert (Hseq : entities' = Seq (add_if_new l entity)).
  { apply names_in_Seq in Hnames.
    unfold add_if_new. rewrite Hname. rewrite (existsb_names _ Hnames) in Hent'.
    destruct (existsb (has_name n) l); simpl in Hent'; inversion Hent'; reflexivity. }
  subst entities'.
  exists m, n. split; [reflexivity|].
  destruct (lookup coll m) as [v0|] eqn:E.
  - inversion Hsd; subst. split; [right; eauto|]. split; [assumption|].
    simpl in H. simpl. rewrite E. inversion H. reflexivity.
  - inversion Hsd; subst. split; [now left|]. split; [assumption|].
    simpl in H. simpl. rewrite E. inversion H; subst. f_equal.
    now apply assign_absent.
Qed.

Lemma setdefault_Ok (d : value) (key : string) (dflt x d1 : value) :
  setdefault d key dflt = Ok (x, d1) ->
  exists m,
    d = Dict m
    /\ x = match lookup key m with Some y => y | None => dflt end
    /\ forall v, setitem d1 key v = Ok (Dict (assign key v m)).
Proof.
  destruct d as [s|m|l]; simpl; try discriminate.
  intros H. exists m. split; [reflexivity|].
  destruct (lookup key m) as [y|] eqn:E; inversion H; subst; split; auto.
  intros v. simpl. now rewrite assign_absent.
Qed.

Lemma dict_at_assign (m : list (string * value)) (k k' : string) (v : value) :
  dict_at (Dict (assign k v m)) k' = if String.eqb k' k then v else dict_at (Dict m) k'.
Proof. simpl. rewrite lookup_assign. destruct (String.eqb k' k); reflexivity. Qed.

Lemma seq_at_assign (m : list (string * value)) (k k' : string) (v : value) :
  seq_at (Dict (assign k v m)) k' = if String.eqb k' k then seq_at (Dict [(k, v)]) k
                                    else seq_at (Dict m) k'.
Proof.
  simpl. rewrite lookup_assign, String.eqb_refl. destruct (String.eqb k' k); reflexivity.
Qed.

Lemma contains_assign (m : list (string * value)) (k k' : string) (v : value) :
  contains (Dict (assign k v m)) k' = String.eqb k' k || contains (Dict m) k'.
Proof. simpl. rewrite lookup_assign. destruct (String.eqb k' k); reflexivity. Qed.

(** [_add_schedule] and [_add_environment]: the record joins one collection
    of one group, and nothing else moves. *)
Lemma add_to_group_Ok (coll : string) (target : collection) (fd : value)
      (file : string) (entity : value) (fd' : value) :
  (forall d, entities_at d target = seq_at d coll) ->
  (forall d m v c, d = Dict m -> c <> target ->
                   entities_at (Dict (assign coll v m)) c = entities_at d c) ->
  rbind (setdefault fd file (Dict []))
        (fun '(file_dict, file_dicts) =>
           rbind (add_unique file_dict coll entity) (fun file_dict =>
           setitem file_dicts file file_dict)) = Ok fd' ->
  joins fd file target entity fd'.
Proof.
  intros Htarget Hother H. unfold joins.
  inv_bind H as [file_dict fd1] Hsd. inv_bind H as file_dict' Hadd.
  destruct (setdefault_Ok _ _ _ Hsd) as [g [-> [Hfd Hset]]].
  rewrite Hset in H. inversion H; subst fd'. clear H Hset.
  destruct (add_unique_Ok _ _ _ Hadd) as [m [n [Hm [Hshape [Hn ->]]]]].
  exists g, (assign file (Dict (assign coll (Seq (add_if_new (seq_at file_dict coll) entity)) m)) g).
  split; [reflexivity|]. split; [reflexivity|]. split.
  { destruct (in_dec string_dec file (keys g)) as [I|N].
    - now rewrite !keys_assign_in.
    - now rewrite !keys_assign_new. }
  split; [eauto|].
  intros f c. unfold kept. rewrite dict_at_assign.
  assert (Hgroup : file_dict = dict_at (Dict g) file).
  { rewrite Hfd. simpl. reflexivity. }
  destruct (String.eqb_spec f file) as [->|Hf]; cbn [andb]; auto.
  destruct (collection_eqb c target) eqn:Ec.
  - assert (c = target) as ->.
    { destruct c, target; simpl in Ec; try discriminate; auto.
      apply String.eqb_eq in Ec. now subst. }
    rewrite Htarget, seq_at_assign, String.eqb_refl. cbn [seq_at lookup].
    rewrite String.eqb_refl, Htarget, <- Hgroup. reflexivity.
  - rewrite <- Hgroup. apply Hother; auto.
    intros ->. destruct target; simpl in Ec; try discriminate.
    now rewrite String.eqb_refl in Ec.
Qed.

Lemma add_schedule_joins (fd : value) (file : string) (schedule fd' : value) :
  _add_schedule fd file schedule = Ok fd' -> joins fd file Schedules schedule fd'.
Proof.
  apply add_to_group_Ok.
  - reflexivity.
  - intros d m v c -> Hc. destruct c; try congruence; unfold entities_at.
    + f_equal. rewrite dict_at_assign. reflexivity.
    + rewrite seq_at_assign. reflexivity.
Qed.

Lemma add_environment_joins (fd : value) (file : string) (environment fd' : value) :
  _add_environment fd file environment = Ok fd' ->
  joins fd file Environments environment fd'.
Proof.
  apply add_to_group_Ok.
  - reflexivity.
  - intros d m v c -> Hc. destruct c; try congruence; unfold entities_at.
    + f_equal. rewrite dict_at_assign. reflexivity.
    + rewrite seq_at_assign. reflexivity.
Qed.

Lemma add_plugin_joins (fd : value) (file t : string) (plugin fd' : value) :
  _add_plugin fd file t plugin = Ok fd' -> joins fd file (Plugins t) plugin fd'.
Proof.
  unfold _add_plugin. intros H.
  inv_bind H as [file_dict fd1] Hsd.
  inv_bind H as [plugins_dict file_dict1] Hsd2.
  inv_bind H as plugins_dict' Hadd.
  inv_bind H as file_dict' Hset2.
  destruct (setdefault_Ok _ _ _ Hsd) as [g [-> [Hfd Hset]]].
  destruct (setdefault_Ok _ _ _ Hsd2) as [m [Hm [Hpd Hsetp]]].
  rewrite Hset in H. inversion H; subst fd'. clear H Hset.
  rewrite Hsetp in Hset2. inversion Hset2; subst file_dict'. clear Hset2 Hsetp.
  destruct (add_unique_Ok _ _ _ Hadd) as [pm [n [Hpm [Hshape [Hn ->]]]]].
  exists g. eexists. split; [reflexivity|]. split; [reflexivity|]. split.
  { destruct (in_dec string_dec file (keys g)) as [I|N].
    - now rewrite !keys_assign_in.
    - now rewrite !keys_assign_new. }
  split; [eauto|].
  assert (Hgroup : dict_at (Dict g) file = Dict m).
  { rewrite <- Hm, Hfd. reflexivity. }
  assert (Hplugins : dict_at (Dict m) "plugins" = Dict pm).
  { rewrite <- Hpm, Hpd. reflexivity. }
  intros f c. unfold kept. rewrite dict_at_assign.
  destruct (String.eqb_spec f file) as [->|Hf]; cbn [andb]; auto.
  rewrite Hgroup. destruct c as [t'| |]; cbn [collection_eqb entities_at].
  - rewrite dict_at_assign, String.eqb_refl, seq_at_assign, Hplugins.
    destruct (String.eqb_spec t' t) as [->|Ht]; auto.
    cbn [seq_at lookup]. rewrite String.eqb_refl, Hpm. reflexivity.
  - rewrite seq_at_assign. reflexivity.
  - rewrite seq_at_assign. reflexivity.
Qed.

(** The last branch of [split_entry]: the root group gets the key, no
    collection changes. *)
Lemma other_key_Ok (fd : value) (file key : string) (v fd' : value) :
  is_entity_key key = false ->
  rbind (setdefault fd file (Dict []))
        (fun '(file_dict, file_dicts) =>
           rbind (setitem file_dict key v) (fun file_dict =>
           setitem file_dicts file file_dict)) = Ok fd' ->
  exists g m,
    fd = Dict g
    /\ dict_at fd file = Dict m
    /\ fd' = Dict (assign file (Dict (assign key v m)) g)
    /\ forall f c, kept fd' f c = kept fd f c.
Proof.
  intros Hkey H.
  inv_bind H as [file_dict fd1] Hsd. inv_bind H as file_dict' Hset1.
  destruct (setdefault_Ok _ _ _ Hsd) as [g [-> [Hfd Hset]]].
  rewrite Hset in H. inversion H; subst fd'. clear H Hset.
  destruct file_dict as [s|m|l]; simpl in Hset1; try discriminate.
  inversion Hset1; subst file_dict'. clear Hset1.
  assert (Hgroup : dict_at (Dict g) file = Dict m).
  { rewrite Hfd. reflexivity. }
  exists g, m. split; [reflexivity|]. split; [assumption|]. split; [reflexivity|].
  intros f c. unfold kept. rewrite dict_at_assign.
  destruct (String.eqb_spec f file) as [->|Hf]; auto.
  rewrite Hgroup. unfold is_entity_key in Hkey.
  apply orb_false_iff in Hkey. destruct Hkey as [Hkey He].
  apply orb_false_iff in Hkey. destruct Hkey as [Hp Hs].
  rewrite String.eqb_sym in Hp, Hs, He.
  destruct c as [t| |]; cbn [entities_at].
  - rewrite dict_at_assign, Hp. reflexivity.
  - rewrite seq_at_assign, Hs. reflexivity.
  - rewrite seq_at_assign, He. reflexivity.
Qed.

(** ** Splitting: the loops *)

Lemma collection_eqb_spec (a b : collection) : reflect (a = b) (collection_eqb a b).
Proof.
  destruct a as [t| |], b as [t'| |]; simpl; try (constructor; congruence).
  destruct (String.eqb_spec t t'); constructor; congruence.
Qed.

Lemma collection_eqb_sym (a b : collection) : collection_eqb a b = collection_eqb b a.
Proof.
  destruct a as [t| |], b as [t'| |]; simpl; auto. apply String.eqb_sym.
Qed.

Lemma foldM_ext {S A} (body body' : S -> A -> result S) (l : list A) (s : S) :
  (forall s x, body s x = body' s x) -> foldM body l s = foldM body' l s.
Proof.
  intros E. revert s. induction l as [|x rest IH]; intros s; simpl; auto.
  rewrite E. destruct (body' s x); simpl; auto.
Qed.

Lemma foldM_map {S A B} (body : S -> B -> result S) (f : A -> B) (l : list A) (s : S) :
  foldM body (map f l) s = foldM (fun s x => body s (f x)) l s.
Proof.
  revert s. induction l as [|x rest IH]; intros s; simpl; auto.
  destruct (body s (f x)); simpl; auto.
Qed.

Lemma add_schedules_place (me : ProjectFiles) (fd v : value) :
  _add_schedules me fd v
  = rbind (iterate v) (fun l => foldM (place me) (map (pair Schedules) l) fd).
Proof.
  unfold _add_schedules. destruct (iterate v) as [l|e]; simpl; auto.
  rewrite foldM_map. apply foldM_ext. intros s x.
  unfold place, file_for, key_tuple. destruct (getitem x "name"); reflexivity.
Qed.

Lemma add_environments_place (me : ProjectFiles) (fd v : value) :
  _add_environments me fd v
  = rbind (iterate v) (fun l => foldM (place me) (map (pair Environments) l) fd).
Proof.
  unfold _add_environments. destruct (iterate v) as [l|e]; simpl; auto.
  rewrite foldM_map. apply foldM_ext. intros s x.
  unfold place, file_for, key_tuple. destruct (getitem x "name"); reflexivity.
Qed.

Lemma add_plugins_place (me : ProjectFiles) (fd v : value) :
  _add_plugins me fd v
  = rbind (items_of v) (fun typed =>
      foldM (fun fd '(t, ps) =>
               rbind (iterate ps) (fun l => foldM (place me) (map (pair (Plugins t)) l) fd))
            typed fd).
Proof.
  unfold _add_plugins. destruct (items_of v) as [typed|e]; simpl; auto.
  apply foldM_ext. intros s [t ps]. destruct (iterate ps) as [l|e]; simpl; auto.
  rewrite foldM_map. apply foldM_ext. intros s' x.
  unfold place, file_for, key_tuple. destruct (get x "name" None_); reflexivity.
Qed.

Lemma place_joins (me : ProjectFiles) (fd : value) (o : occurrence) (fd' : value) :
  place me fd o = Ok fd' ->
  exists file, file_for me o = Ok file /\ joins fd file (fst o) (snd o) fd'.
Proof.
  unfold place. intros H. inv_bind H as file Hfile. exists file. split; auto.
  destruct o as [[t| |] e]; simpl.
  - now apply add_plugin_joins.
  - now apply add_schedule_joins.
  - now apply add_environment_joins.
Qed.

Lemma contains_keys (g : list (string * value)) (f : string) :
  contains (Dict g) f = mem f (keys g).
Proof.
  simpl. induction g as [|[k v] rest IH]; simpl; auto.
  destruct (String.eqb f k); simpl; auto.
Qed.

Lemma joins_contains (fd : value) (file : string) (c : collection) (e fd' : value) :
  joins fd file c e fd' ->
  forall f, contains fd' f = String.eqb f file || contains fd f.
Proof.
  intros [g [g' [-> [-> [Hk _]]]]] f.
  rewrite (contains_keys g'), Hk, <- contains_keys. apply contains_assign.
Qed.

Lemma joins_NoDup (fd : value) (file : string) (c : collection) (e fd' : value) :
  joins fd file c e fd' ->
  exists g g', fd = Dict g /\ fd' = Dict g' /\ (NoDup (keys g) -> NoDup (keys g')).
Proof.
  intros [g [g' [-> [-> [Hk _]]]]]. exists g, g'. repeat split.
  rewrite Hk. apply NoDup_keys_assign.
Qed.

(** The state of [file_dicts] after a run of steps. *)
Lemma foldM_place (me : ProjectFiles) (os : list occurrence) (fd fd' : value) :
  foldM (place me) os fd = Ok fd' ->
  (forall f c, kept fd' f c = absorb (kept fd f c) (placed me f c os))
  /\ (forall f, contains fd' f = contains fd f || existsb (sent_to me f) os)
  /\ (forall g, fd = Dict g ->
                exists g', fd' = Dict g' /\ (NoDup (keys g) -> NoDup (keys g')))
  /\ Forall (fun o => (exists n, name_of (snd o) = Some n)
                      /\ exists f, file_for me o = Ok f) os.
Proof.
  revert fd. induction os as [|o rest IH]; intros fd H; simpl in H.
  - inversion H; subst. repeat split; auto.
    + intros f. simpl. now rewrite orb_false_r.
    + intros g ->. eauto.
  - inv_bind H as fd1 Hstep.
    destruct (place_joins _ _ _ Hstep) as [file [Hfile J]].
    destruct (IH _ H) as [Hkept [Hcont [Hdict Hall]]].
    split; [|split; [|split]].
    + intros f c. rewrite Hkept. unfold placed, absorb. simpl.
      destruct J as [g [g' [-> [-> [_ [_ J]]]]]]. rewrite J.
      unfold goes_to. rewrite Hfile, (andb_comm (collection_eqb _ _)).
      destruct (String.eqb_spec file f) as [->|Hf].
      * rewrite String.eqb_refl. cbn [andb].
        rewrite (collection_eqb_sym c (fst o)).
        destruct (collection_eqb_spec (fst o) c) as [<-|Hc]; reflexivity.
      * destruct (String.eqb_spec f file) as [->|_]; [congruence|]. reflexivity.
    + intros f. rewrite Hcont, (joins_contains J). cbn [existsb].
      assert (sent_to me f o = String.eqb f file) as ->.
      { unfold sent_to. rewrite Hfile. apply String.eqb_sym. }
      destruct (String.eqb f file), (contains fd f); reflexivity.
    + intros g ->. destruct (joins_NoDup J) as [g0 [g1 [E [-> N]]]].
      inversion E; subst g0. destruct (Hdict g1 eq_refl) as [g2 [-> N2]].
      exists g2. split; auto.
    + constructor; auto. split; [|eauto].
      destruct J as [g [g' [_ [_ [_ [Hn _]]]]]]. exact Hn.
Qed.

Lemma placed_app (me : ProjectFiles) (f : string) (c : collection) (a b : list occurrence) :
  placed me f c (a ++ b) = placed me f c a ++ placed me f c b.
Proof. unfold placed. now rewrite filter_app, map_app. Qed.

Lemma absorb_app (l a b : list value) : absorb l (a ++ b) = absorb (absorb l a) b.
Proof. unfold absorb. apply fold_left_app. Qed.

Lemma typed_plugins_place (me : ProjectFiles) (typed : list (string * value)) (fd fd' : value) :
  foldM (fun fd '(t, ps) =>
           rbind (iterate ps) (fun l => foldM (place me) (map (pair (Plugins t)) l) fd))
        typed fd = Ok fd' ->
  foldM (place me)
        (flat_map (fun '(t, ps) => map (pair (Plugins t)) (iterated ps)) typed) fd = Ok fd'.
Proof.
  revert fd. induction typed as [|[t ps] rest IH]; intros fd H; simpl in *; auto.
  inv_bind H as fd1 Hstep. inv_bind Hstep as l Hl.
  rewrite foldM_app. unfold iterated. rewrite Hl, Hstep. simpl. now apply IH.
Qed.

(** An entry that is a collection is a run of [place] steps. *)
Lemma split_entry_entity (me : ProjectFiles) (fd : value) (key : string) (v fd' : value) :
  is_entity_key key = true ->
  split_entry me fd (key, v) = Ok fd' ->
  foldM (place me) (entry_occurrences (key, v)) fd = Ok fd'.
Proof.
  unfold is_entity_key, split_entry, entry_occurrences. intros Hk H.
  destruct (String.eqb key "plugins").
  - rewrite add_plugins_place in H. inv_bind H as typed Ht.
    destruct v as [s|m|l]; simpl in Ht; try discriminate. inversion Ht; subst.
    now apply typed_plugins_place.
  - destruct (String.eqb key "schedules").
    + rewrite add_schedules_place in H. inv_bind H as l Hl.
      unfold iterated. now rewrite Hl.
    + destruct (String.eqb key "environments"); [|discriminate].
      rewrite add_environments_place in H. inv_bind H as l Hl.
      unfold iterated. now rewrite Hl.
Qed.

Lemma split_entry_other (me : ProjectFiles) (fd : value) (key : string) (v fd' : value) :
  is_entity_key key = false ->
  split_entry me fd (key, v) = Ok fd' ->
  exists g m,
    fd = Dict g
    /\ dict_at fd (_meltano_file_path me) = Dict m
    /\ fd' = Dict (assign (_meltano_file_path me) (Dict (assign key v m)) g)
    /\ forall f c, kept fd' f c = kept fd f c.
Proof.
  intros Hk H. apply other_key_Ok; auto.
  unfold is_entity_key, split_entry in *.
  destruct (String.eqb key "plugins"); [discriminate|].
  destruct (String.eqb key "schedules"); [discriminate|].
  destruct (String.eqb key "environments"); [discriminate|].
  exact H.
Qed.

Lemma entry_occurrences_other (key : string) (v : value) :
  is_entity_key key = false -> entry_occurrences (key, v) = [].
Proof.
  unfold is_entity_key, entry_occurrences.
  destruct (String.eqb key "plugins"); [discriminate|].
  destruct (String.eqb key "schedules"); [discriminate|].
  destruct (String.eqb key "environments"); [discriminate|]. reflexivity.
Qed.

(** The state of [file_dicts] after the loop of [_split_config_dict] has
    gone through [entries_]. *)
Lemma foldM_split_entry (me : ProjectFiles) (entries_ : list (string * value))
      (fd fd' : value) (g : list (string * value)) :
  fd = Dict g ->
  foldM (split_entry me) entries_ fd = Ok fd' ->
  let os := flat_map entry_occurrences entries_ in
  (forall f c, kept fd' f c = absorb (kept fd f c) (placed me f c os))
  /\ (forall f, contains fd' f
                = contains fd f || existsb (sent_to me f) os
                  || (String.eqb f (_meltano_file_path me) && existsb is_other entries_))
  /\ (exists g', fd' = Dict g' /\ (NoDup (keys g) -> NoDup (keys g')))
  /\ Forall (fun o => (exists n, name_of (snd o) = Some n)
                      /\ exists f, file_for me o = Ok f) os.
Proof.
  revert fd g. induction entries_ as [|[key v] rest IH]; intros fd g Hg H; simpl in H.
  - inversion H; subst fd'. simpl. repeat split; auto.
    + intros f. now rewrite andb_false_r, !orb_false_r.
    + eauto.
  - inv_bind H as fd1 Hstep. cbn [flat_map].
    destruct (is_entity_key key) eqn:Hk.
    + apply split_entry_entity in Hstep; auto.
      destruct (foldM_place _ _ _ Hstep) as [K1 [C1 [D1 A1]]].
      destruct (D1 _ Hg) as [g1 [Hg1 N1]].
      destruct (IH _ _ Hg1 H) as [K2 [C2 [[g2 [Hg2 N2]] A2]]].
      split; [|split; [|split]].
      * intros f c. now rewrite K2, K1, placed_app, absorb_app.
      * intros f. rewrite C2, C1, existsb_app. cbn [existsb].
        assert (is_other (key, v) = false) as ->
            by (unfold is_other; cbn [fst]; now rewrite Hk).
        cbn [orb]. now rewrite <- !orb_assoc.
      * exists g2. split; auto.
      * apply Forall_app. split; auto.
    + rewrite entry_occurrences_other by assumption. cbn [app].
      destruct (split_entry_other _ _ _ _ Hk Hstep) as [g0 [m [E0 [Hm [Hfd1 K1]]]]].
      rewrite Hg in E0. inversion E0; subst g0. clear E0.
      destruct (IH _ _ Hfd1 H) as [K2 [C2 [[g2 [Hg2 N2]] A2]]].
      split; [|split; [|split]].
      * intros f c. now rewrite K2, K1.
      * intros f. rewrite C2, Hfd1, contains_assign, Hg. cbn [existsb].
        assert (is_other (key, v) = true) as ->
            by (unfold is_other; cbn [fst]; now rewrite Hk).
        cbn [orb]. rewrite andb_true_r.
        destruct (String.eqb f (_meltano_file_path me)), (contains (Dict g) f),
          (existsb (sent_to me f) (flat_map entry_occurrences rest)); reflexivity.
      * exists g2. split; auto. intros N. apply N2. now apply NoDup_keys_assign.
      * assumption.
Qed.

(** What [split_loop] returns, read collection by collection. *)
Lemma split_loop_Ok (me : ProjectFiles) (config fd : value) :
  split_loop me config = Ok fd ->
  exists entries_ g,
    config = Dict entries_ /\ fd = Dict g /\ NoDup (keys g)
    /\ (forall f c, kept fd f c = absorb [] (placed me f c (occurrences config)))
    /\ (forall f, contains fd f
                  = existsb (sent_to me f) (occurrences config)
                    || (String.eqb f (_meltano_file_path me) && existsb is_other entries_))
    /\ Forall (fun o => (exists n, name_of (snd o) = Some n)
                        /\ exists f, file_for me o = Ok f) (occurrences config).
Proof.
  unfold split_loop. intros H. inv_bind H as entries_ He.
  destruct config as [s|m|l]; simpl in He; try discriminate. inversion He; subst m.
  destruct (@foldM_split_entry me entries_ (Dict []) fd [] eq_refl H) as [K [C [[g' [-> N]] A]]].
  exists entries_, g'.
  split; [reflexivity|]. split; [reflexivity|]. split; [apply N; constructor|].
  split; [|split; [|exact A]].
  - intros f c. rewrite K. destruct c; reflexivity.
  - intros f. rewrite C. reflexivity.
Qed.

(** ** [update] *)

Lemma for_each_write (files : list (path * value)) (w : world) :
  for_each files (fun '(file_path, contents) => _write_file file_path contents) w
  = (Ok tt, on_disk w (written files (disk w))).
Proof.
  revert w. induction files as [|[p c] rest IH]; intros w; simpl.
  - destruct w; reflexivity.
  - unfold bind, _write_file at 1. rewrite IH. reflexivity.
Qed.

Lemma for_each_blank (paths : list path) (w : world) :
  for_each paths (fun unused_file_path => _write_file unused_file_path BLANK_SUBFILE) w
  = (Ok tt, on_disk w (written (map (fun p => (p, BLANK_SUBFILE)) paths) (disk w))).
Proof.
  revert w. induction paths as [|p rest IH]; intros w; simpl.
  - destruct w; reflexivity.
  - unfold bind, _write_file at 1. rewrite IH. reflexivity.
Qed.

(** [update], step by step. *)
Lemma update_run (config : value) (w : world) :
  update config w
  = match _split_config_dict (self w) config with
    | Raise e => (Raise e, w)
    | Ok file_dicts =>
        match items_of file_dicts with
        | Raise e => (Raise e, w)
        | Ok groups =>
            match include_paths (on_disk w (written groups (disk w))) with
            | (Raise e, w1) => (Raise e, w1)
            | (Ok paths, w1) =>
                let unused_files := filter (fun fl => negb (contains file_dicts fl)) paths in
                let blanks := map (fun p => (p, BLANK_SUBFILE)) unused_files in
                (Ok config,
                 snd (reset_cache (on_disk w1 (written blanks (disk w1)))))
            end
        end
    end.
Proof.
  unfold update, bind, get_self, lift.
  destruct (_split_config_dict (self w) config) as [fd|e]; auto.
  destruct (items_of fd) as [groups|e]; auto.
  rewrite for_each_write.
  destruct (include_paths _) as [[paths|e] w1]; auto.
  rewrite for_each_blank. reflexivity.
Qed.

Lemma path_glob_written (files : list (path * value)) (d : filesystem) :
  path_glob (written files d) = path_glob d.
Proof.
  revert d. induction files as [|[p c] rest IH]; intros d; simpl; auto.
  now rewrite IH.
Qed.

Lemma glob_written (files : list (path * value)) (d : filesystem) :
  glob (written files d) = glob d.
Proof. unfold glob, glob_result. now rewrite path_glob_written. Qed.

Lemma accepts_written (files : list (path * value)) (d : filesystem) :
  accepts (written files d) = accepts d.
Proof. unfold accepts, glob_result. now rewrite path_glob_written. Qed.

Lemma entries_written_notin (files : list (path * value)) (d : filesystem) (p : path) :
  ~ In p (keys files) -> entries (written files d) p = entries d p.
Proof.
  revert d. induction files as [|[q c] rest IH]; intros d H; simpl in *; auto.
  rewrite IH by tauto. simpl.
  destruct (String.eqb_spec p q) as [->|_]; [tauto | reflexivity].
Qed.

Lemma entries_written_in (files : list (path * value)) (d : filesystem) (p : path)
      (c : value) :
  NoDup (keys files) -> lookup p files = Some c ->
  entries (written files d) p = Some (RegularFile (Yaml c)).
Proof.
  revert d. induction files as [|[q c'] rest IH]; intros d N H; simpl in *; [discriminate|].
  inversion N; subst.
  destruct (String.eqb_spec p q) as [->|Hne].
  - inversion H; subst. rewrite entries_written_notin by assumption.
    simpl. now rewrite String.eqb_refl.
  - now apply IH.
Qed.

Lemma entries_written_same (paths : list path) (doc : value) (d : filesystem) (p : path) :
  In p paths ->
  entries (written (map (fun q => (q, doc)) paths) d) p = Some (RegularFile (Yaml doc)).
Proof.
  revert d. induction paths as [|q rest IH]; intros d H; simpl in *; [tauto|].
  destruct (in_dec string_dec p rest) as [I|N].
  - now apply IH.
  - destruct H as [->|H]; [|contradiction].
    rewrite entries_written_notin.
    + simpl. now rewrite String.eqb_refl.
    + unfold keys. rewrite map_map. simpl. now rewrite map_id.
Qed.

Lemma split_contains_root (me : ProjectFiles) (config fd : value) :
  split_loop me config = Ok fd ->
  contains fd (_meltano_file_path me) = assigns_root me config.
Proof.
  intros H. destruct (split_loop_Ok _ _ H) as [entries_ [g [-> [-> [_ [_ [C _]]]]]]].
  rewrite C, String.eqb_refl. reflexivity.
Qed.

Lemma foldM_split_entry_classes (me : ProjectFiles) (entries_ : list (string * value))
      (fd : value) (g : list (string * value)) (commented : bool) :
  fd = Dict g ->
  foldM (split_entry_classes me) entries_ (fd, commented)
  = match foldM (split_entry me) entries_ fd with
    | Raise e => Raise e
    | Ok fd' =>
        Ok (fd', commented
                 || (negb (contains fd (_meltano_file_path me))
                     && root_by_setting me entries_))
    end.
Proof.
  revert fd g commented. induction entries_ as [|[key v] rest IH]; intros fd g commented Hg.
  - cbn [foldM root_by_setting]. now rewrite andb_false_r, orb_false_r.
  - cbn [foldM root_by_setting]. unfold split_entry_classes at 1. cbn [rbind].
    destruct (split_entry me fd (key, v)) as [fd1|e] eqn:Hstep; [|reflexivity].
    cbn [rbind].
    assert (H1 : foldM (split_entry me) [(key, v)] fd = Ok fd1)
      by (cbn [foldM]; now rewrite Hstep).
    destruct (@foldM_split_entry me [(key, v)] fd fd1 g Hg H1) as [_ [C [[g1 [Hg1 _]] _]]].
    specialize (C (_meltano_file_path me)). rewrite String.eqb_refl in C.
    cbn [flat_map existsb] in C. rewrite app_nil_r, orb_false_r in C. cbn [andb] in C.
    rewrite (IH fd1 g1 _ Hg1).
    destruct (foldM (split_entry me) rest fd1) as [fd'|e]; [|reflexivity].
    f_equal. f_equal. rewrite C. unfold root_commented_after, is_other, is_entity_key.
    cbn [fst].
    destruct commented, (contains fd (_meltano_file_path me)),
      (String.eqb key "plugins" || String.eqb key "schedules"
       || String.eqb key "environments"),
      (existsb (sent_to me (_meltano_file_path me)) (entry_occurrences (key, v)));
      reflexivity.
Qed.

Lemma split_loop_classes_run (me : ProjectFiles) (config : value) :
  split_loop_classes me config
  = match split_loop me config with
    | Raise e => Raise e
    | Ok fd => Ok (fd, commented_root me config)
    end.
Proof.
  unfold split_loop_classes, split_loop.
  destruct config as [s|m|l]; simpl; try reflexivity.
  rewrite (@foldM_split_entry_classes me m (Dict []) [] false eq_refl).
  destruct (foldM (split_entry me) m (Dict [])); reflexivity.
Qed.

(** [_split_config_dict] after its loop: the [KeyError] of the subscript
    when the root file has no group, the [AttributeError] of [setattr] when
    its group is a plain [dict]. *)
Lemma split_config_dict_run (me : ProjectFiles) (config : value) :
  _split_config_dict me config
  = match split_loop me config with
    | Raise e => Raise e
    | Ok fd => if assigns_root me config
               then if commented_root me config then Ok fd else Raise AttributeError
               else Raise (KeyError (_meltano_file_path me))
    end.
Proof.
  unfold _split_config_dict. rewrite split_loop_classes_run.
  destruct (split_loop me config) as [fd|e] eqn:E; simpl; auto.
  rewrite <- (split_contains_root _ _ E).
  destruct (split_loop_Ok _ _ E) as [entries_ [g [_ [-> _]]]].
  simpl. destruct (lookup (_meltano_file_path me) g); [|reflexivity].
  destruct (commented_root me config); reflexivity.
Qed.

(** C10. When the split assigns nothing to the root file, [update] raises
    and leaves the world as it was: nothing is written; when the loop of the
    split itself goes through, what is raised is the [KeyError] of the
    unguarded [file_dicts[str(self._meltano_file_path)]].  So an [update]
    that returns has assigned something to the root file. *)
Theorem update_without_root_group (config : value) (w : world) :
  assigns_root (self w) config = false ->
  (exists e, update config w = (Raise e, w))
  /\ (forall fd, split_loop (self w) config = Ok fd ->
                 contains fd (_meltano_file_path (self w)) = false
                 /\ update config w = (Raise (KeyError (_meltano_file_path (self w))), w))
  /\ (forall r w', update config w <> (Ok r, w')).
Proof.
  intros Hno.
  assert (G : (exists e, update config w = (Raise e, w))
              /\ (forall fd, split_loop (self w) config = Ok fd ->
                             contains fd (_meltano_file_path (self w)) = false
                             /\ update config w
                                = (Raise (KeyError (_meltano_file_path (self w))), w))).
  { rewrite update_run, split_config_dict_run, Hno.
    destruct (split_loop (self w) config) as [fd|e] eqn:E.
    - split; [eauto|]. intros fd0 [= <-]. split; auto.
      now rewrite (split_contains_root _ _ E).
    - split; [eauto|]. intros fd0 [=]. }
  destruct G as [[e He] G2]. split; [eauto|]. split; [exact G2|].
  intros r w' H. rewrite He in H. discriminate.
Qed.

(** *** Methods that leave the disk alone *)

Lemma keeps_disk_ret {A} (a : A) : keeps_disk (ret a).
Proof. intros w r w' [= _ <-]. reflexivity. Qed.

Lemma keeps_disk_raise {A} (e : exn) : keeps_disk (@raise A e).
Proof. intros w r w' [= _ <-]. reflexivity. Qed.

Lemma keeps_disk_lift {A} (x : result A) : keeps_disk (lift x).
Proof. intros w r w' [= _ <-]. reflexivity. Qed.

Lemma keeps_disk_bind {A B} (m : M A) (k : A -> M B) :
  keeps_disk m -> (forall a, keeps_disk (k a)) -> keeps_disk (bind m k).
Proof.
  intros Hm Hk w r w' H. unfold bind in H.
  destruct (m w) as [[a|e] w1] eqn:E.
  - rewrite (Hk a _ _ _ H). exact (Hm _ _ _ E).
  - inversion H; subst. exact (Hm _ _ _ E).
Qed.

Lemma keeps_disk_fold_each {S A} (l : list A) (body : S -> A -> M S) (acc : S) :
  (forall s x, keeps_disk (body s x)) -> keeps_disk (fold_each l acc body).
Proof.
  intros Hb. revert acc. induction l as [|x rest IH]; intros acc; simpl.
  - apply keeps_disk_ret.
  - apply keeps_disk_bind; auto.
Qed.

Lemma keeps_disk_for_each {A} (l : list A) (body : A -> M unit) :
  (forall x, keeps_disk (body x)) -> keeps_disk (for_each l body).
Proof.
  intros Hb. induction l as [|x rest IH]; simpl.
  - apply keeps_disk_ret.
  - apply keeps_disk_bind; auto.
Qed.

Lemma keeps_disk_try_except {A} (m : M A) (handler : exn -> option (M A)) :
  keeps_disk m -> (forall e h, handler e = Some h -> keeps_disk h) ->
  keeps_disk (try_except m handler).
Proof.
  intros Hm Hh w r w' H. unfold try_except in H.
  destruct (m w) as [[a|e] w1] eqn:E.
  - inversion H; subst. exact (Hm _ _ _ E).
  - destruct (handler e) as [h|] eqn:Eh.
    + rewrite (Hh _ _ Eh _ _ _ H). exact (Hm _ _ _ E).
    + inversion H; subst. exact (Hm _ _ _ E).
Qed.

Lemma keeps_disk_state {A} (f : world -> A) (g : world -> world) :
  (forall w, disk (g w) = disk w) -> keeps_disk (fun w => (Ok (f w), g w)).
Proof. intros Hg w r w' [= _ <-]. apply Hg. Qed.

Lemma keeps_disk_read_yaml (p : path) : keeps_disk (read_yaml p).
Proof.
  intros w r w' H. unfold read_yaml in H.
  destruct (entries (disk w) p) as [[|[doc|]]|]; inversion H; reflexivity.
Qed.

Ltac keeps_disk :=
  repeat first
    [ apply keeps_disk_ret | apply keeps_disk_raise | apply keeps_disk_lift
    | apply keeps_disk_read_yaml
    | apply keeps_disk_bind; [|intros ?]
    | apply keeps_disk_fold_each; intros ? ?
    | apply keeps_disk_for_each; intros ?
    | apply keeps_disk_state; intros ?; reflexivity
    | match goal with |- keeps_disk (match ?x with _ => _ end) => destruct x end
    | match goal with |- keeps_disk (let '(_, _) := ?x in _) => destruct x end ].

Lemma keeps_disk_meltano : keeps_disk meltano.
Proof.
  unfold meltano, get_self, set_meltano. keeps_disk.
Qed.

Lemma keeps_disk_resolve (patterns : value) : keeps_disk (_resolve_include_paths patterns).
Proof.
  unfold _resolve_include_paths, get_self. keeps_disk.
  unfold resolve_pattern, get_disk. keeps_disk.
  unfold resolve_match. keeps_disk.
  apply keeps_disk_try_except.
  - unfold _is_valid_include_path, get_disk. keeps_disk.
  - intros e h He. destruct e; inversion He; subst. unfold critical. keeps_disk.
Qed.

Lemma keeps_disk_include_paths : keeps_disk include_paths.
Proof.
  unfold include_paths. apply keeps_disk_bind; [apply keeps_disk_meltano|]. intros doc.
  apply keeps_disk_bind; [apply keeps_disk_lift|]. intros pats.
  apply keeps_disk_resolve.
Qed.

(** An [update] that returns, step by step. *)
Lemma update_Ok (config : value) (w : world) (r : value) (w' : world) :
  update config w = (Ok r, w') ->
  exists groups paths w1,
    _split_config_dict (self w) config = Ok (Dict groups)
    /\ include_paths (on_disk w (written groups (disk w))) = (Ok paths, w1)
    /\ (forall p, In p paths -> contains (Dict groups) p = false ->
                  entries (disk w') p = Some (RegularFile (Yaml BLANK_SUBFILE)))
    /\ contains (Dict groups) (_meltano_file_path (self w)) = true
    /\ ~ In (_meltano_file_path (self w))
            (filter (fun fl => negb (contains (Dict groups) fl)) paths)
    /\ (forall p contents, lookup p groups = Some contents ->
                           entries (disk w') p = Some (RegularFile (Yaml contents))).
Proof.
  intros H. rewrite update_run in H.
  destruct (_split_config_dict (self w) config) as [fd|e] eqn:Es; [|discriminate].
  pose proof Es as Es'. rewrite split_config_dict_run in Es'.
  destruct (split_loop (self w) config) as [fd0|e] eqn:El; [|discriminate].
  destruct (assigns_root (self w) config) eqn:Er; [|discriminate].
  destruct (commented_root (self w) config); [|discriminate].
  inversion Es'; subst fd0. clear Es'.
  pose proof (split_contains_root _ _ El) as Hroot. rewrite Er in Hroot.
  destruct (split_loop_Ok _ _ El) as [entries_ [g [_ [-> [N _]]]]].
  simpl in H.
  destruct (include_paths (on_disk w (written g (disk w)))) as [[paths|e] w1] eqn:Ei;
    [|discriminate].
  pose proof (keeps_disk_include_paths _ Ei) as Hd. simpl in Hd.
  inversion H; subst r w'. clear H.
  exists g, paths, w1. split; [reflexivity|]. split; [exact Ei|].
  cbn [reset_cache set_meltano snd disk on_disk].
  split; [|split; [|split]].
  - intros p Hp Hc. apply entries_written_same.
    apply filter_In. split; auto. apply negb_true_iff. exact Hc.
  - exact Hroot.
  - intros Hin. apply filter_In in Hin. destruct Hin as [_ Hin].
    apply negb_true_iff in Hin. congruence.
  - intros p contents Hl. rewrite entries_written_notin.
    + rewrite Hd. now apply entries_written_in.
    + unfold keys. rewrite map_map. simpl. rewrite map_id.
      intros Hin. apply filter_In in Hin. destruct Hin as [_ Hin].
      apply negb_true_iff in Hin. simpl in Hin. rewrite Hl in Hin. discriminate.
Qed.

(** C8. When [update] returns, every path of the include list it resolved
    that got no group from the split holds [BLANK_SUBFILE] (the file is
    there, overwritten); the root file is not among the blanked paths: it
    has a group, and holds it, as every file with a group does. *)
Theorem update_blanks_unused (config : value) (w : world) (r : value) (w' : world) :
  update config w = (Ok r, w') ->
  exists groups paths w1,
    _split_config_dict (self w) config = Ok (Dict groups)
    /\ include_paths (on_disk w (written groups (disk w))) = (Ok paths, w1)
    /\ (forall p, In p paths -> contains (Dict groups) p = false ->
                  entries (disk w') p = Some (RegularFile (Yaml BLANK_SUBFILE)))
    /\ contains (Dict groups) (_meltano_file_path (self w)) = true
    /\ ~ In (_meltano_file_path (self w))
            (filter (fun fl => negb (contains (Dict groups) fl)) paths)
    /\ (forall p contents, lookup p groups = Some contents ->
                           entries (disk w') p = Some (RegularFile (Yaml contents))).
Proof. apply update_Ok. Qed.

(** ** The origin index *)

Lemma key_eqb_eq (a b : entity_key) : key_eqb a b = true <-> a = b.
Proof.
  unfold key_eqb. revert b. induction a as [|x a IH]; intros [|y b]; simpl;
    try (split; [discriminate | congruence]).
  - split; auto.
  - specialize (IH b). destruct (Nat.eqb (List.length a) (List.length b)) eqn:El; simpl in *.
    + destruct (scalar_eqb_spec x y) as [->|Hne]; simpl.
      * rewrite IH. split; congruence.
      * split; [discriminate | congruence].
    + split; [discriminate|]. intros [= -> ->]. rewrite Nat.eqb_refl in El. discriminate.
Qed.

Lemma key_eqb_refl (a : entity_key) : key_eqb a a = true.
Proof. now apply key_eqb_eq. Qed.

Lemma index_get_None (m : index) (k : entity_key) :
  index_get m k = None <-> ~ In k (map fst m).
Proof.
  induction m as [|[k' f] rest IH]; simpl.
  - tauto.
  - destruct (key_eqb k k') eqn:E.
    + apply key_eqb_eq in E. subst. split; [discriminate | tauto].
    + rewrite IH. split; [|tauto]. intros H [->|I]; [|tauto].
      rewrite key_eqb_refl in E. discriminate.
Qed.

Lemma index_get_Some_In (m : index) (k : entity_key) (f : string) :
  index_get m k = Some f -> In (k, f) m.
Proof.
  induction m as [|[k' f'] rest IH]; simpl; [discriminate|].
  destruct (key_eqb k k') eqn:E.
  - apply key_eqb_eq in E. intros [= ->]. subst. now left.
  - intros H. right. auto.
Qed.

Lemma index_get_In_NoDup (m : index) (k : entity_key) (f : string) :
  NoDup (map fst m) -> In (k, f) m -> index_get m k = Some f.
Proof.
  induction m as [|[k' f'] rest IH]; simpl; [tauto|].
  intros N [E|I]; inversion N; subst.
  - inversion E; subst. now rewrite key_eqb_refl.
  - destruct (key_eqb k k') eqn:E; auto.
    apply key_eqb_eq in E. subst. exfalso. apply H1.
    change k' with (fst (k', f)). now apply in_map.
Qed.

Lemma index_get_app (m m' : index) (k : entity_key) :
  index_get (m ++ m') k
  = match index_get m k with Some f => Some f | None => index_get m' k end.
Proof.
  induction m as [|[k' f] rest IH]; simpl; auto. destruct (key_eqb k k'); auto.
Qed.

Lemma hashed_tuple_of (c : collection) (name : value) (k : entity_key) :
  hashed (tuple_of c name) = Ok k ->
  exists n, name = Scalar n /\ k = key_of c n.
Proof.
  destruct c as [t| |]; simpl; destruct name as [n|m|l]; simpl; try discriminate;
    intros [= <-]; eauto.
Qed.

Lemma hashed_key_of (c : collection) (n : scalar) :
  hashed (tuple_of c (Scalar n)) = Ok (key_of c n).
Proof. destruct c; reflexivity. Qed.

(** A step of indexing that returns added one fresh key. *)
Lemma index_occurrence_Ok (p : path) (o : occurrence) (w w' : world) :
  index_occurrence p o w = (Ok tt, w') ->
  exists k,
    entity_key_of o = Some k
    /\ index_get (_plugin_file_map (self w)) k = None
    /\ w' = with_index w (_plugin_file_map (self w) ++ [(k, p)]).
Proof.
  unfold index_occurrence, bind, lift, _add_to_index, bind, get_self, lift.
  destruct (getitem (snd o) "name") as [name|e] eqn:En; [|discriminate].
  destruct (hashed (tuple_of (fst o) name)) as [k|e] eqn:Eh; [|discriminate].
  destruct (hashed_tuple_of _ _ Eh) as [n [-> ->]].
  destruct (index_get (_plugin_file_map (self w)) (key_of (fst o) n)) as [f|] eqn:Ei.
  - destruct (join ":" (tuple_of (fst o) (Scalar n))); simpl; discriminate.
  - unfold set_plugin_file_map. intros [= <-].
    exists (key_of (fst o) n). unfold entity_key_of, name_of. rewrite En. auto.
Qed.

Lemma index_occurrences_Ok (p : path) (os : list occurrence) (w w' : world) :
  for_each os (index_occurrence p) w = (Ok tt, w') ->
  w' = with_index w (_plugin_file_map (self w) ++ index_entries p os)
  /\ Forall (fun o => exists k, entity_key_of o = Some k) os
  /\ (NoDup (map fst (_plugin_file_map (self w))) ->
      NoDup (map fst (_plugin_file_map (self w'))))
  /\ (os <> [] \/ w' = w).
Proof.
  revert w. induction os as [|o rest IH]; intros w H; simpl in H.
  - inversion H; subst. unfold index_entries. simpl. rewrite app_nil_r.
    repeat split; auto. destruct w' as [[a b c d] e f]; reflexivity.
  - unfold bind in H.
    destruct (index_occurrence p o w) as [[[]|e] w1] eqn:E; [|discriminate].
    destruct (index_occurrence_Ok _ _ _ E) as [k [Hk [Hnew ->]]].
    destruct (IH _ H) as [-> [F [N _]]]. simpl in *.
    split; [|split; [|split]].
    + unfold with_index, index_entries. simpl. rewrite Hk, <- app_assoc. reflexivity.
    + constructor; eauto.
    + intros Nd. apply N. rewrite map_app. simpl.
      apply NoDup_app; [assumption | repeat constructor; simpl; tauto |].
      intros x Hx [<-|[]]. apply index_get_None in Hnew. contradiction.
    + left. discriminate.
Qed.

Lemma for_each_app {A} (a b : list A) (body : A -> M unit) (w : world) :
  for_each (a ++ b) body w = bind (for_each a body) (fun _ => for_each b body) w.
Proof.
  revert w. induction a as [|x rest IH]; intros w; simpl.
  - reflexivity.
  - unfold bind in *. destruct (body x w) as [[[]|e] w1]; auto.
Qed.

Lemma for_each_map {A B} (g : A -> B) (l : list A) (body : B -> M unit) (w : world) :
  for_each (map g l) body w = for_each l (fun x => body (g x)) w.
Proof.
  revert w. induction l as [|x rest IH]; intros w; simpl; auto.
  unfold bind. destruct (body (g x) w) as [[[]|e] w1]; auto.
Qed.

Lemma bind_Ok {A B} (m : M A) (k : A -> M B) (w : world) (b : B) (w' : world) :
  bind m k w = (Ok b, w') -> exists a w1, m w = (Ok a, w1) /\ k a w1 = (Ok b, w').
Proof.
  unfold bind. destruct (m w) as [[a|e] w1]; [eauto | discriminate].
Qed.

Lemma lift_Ok {A} (x : result A) (w : world) (a : A) (w' : world) :
  lift x w = (Ok a, w') -> x = Ok a /\ w' = w.
Proof. unfold lift. intros [= -> ->]. auto. Qed.

Tactic Notation "inv_mbind" hyp(H) "as" simple_intropattern(x) ident(w) ident(Hx) :=
  apply bind_Ok in H; destruct H as [x [w [Hx H]]].

Tactic Notation "inv_lift" hyp(H) "as" simple_intropattern(x) ident(Hx) :=
  let w := fresh "w" in
  let E := fresh "E" in
  apply bind_Ok in H; destruct H as [x [w [Hx H]]];
  apply lift_Ok in Hx; destruct Hx as [Hx E]; subst w.

Lemma index_typed_Ok (p : path) (typed : list (string * value)) (w w' : world) :
  for_each typed (fun '(plugin_type, plugins) =>
    bind (lift (iterate plugins)) (fun plugins =>
    for_each plugins (fun plugin =>
      bind (lift (getitem plugin "name")) (fun name =>
      _add_to_index [Str "plugins"; Str plugin_type; name] p)))) w = (Ok tt, w') ->
  for_each (flat_map (fun '(t, ps) => map (pair (Plugins t)) (iterated ps)) typed)
           (index_occurrence p) w = (Ok tt, w').
Proof.
  revert w. induction typed as [|[t ps] rest IH]; intros w H; simpl in *; auto.
  inv_mbind H as [] w1 Hstep. inv_lift Hstep as l Hl.
  rewrite for_each_app. unfold bind at 1.
  unfold iterated. rewrite Hl, for_each_map.
  change (for_each l (fun x => index_occurrence p (Plugins t, x)) w)
    with (for_each l (fun plugin =>
            bind (lift (getitem plugin "name")) (fun name =>
            _add_to_index [Str "plugins"; Str t; name] p)) w).
  rewrite Hstep. now apply IH.
Qed.

(** An [_index_file] that returns went through the declared records. *)
Lemma index_file_Ok (p : path) (doc : value) (w w' : world) :
  _index_file p doc w = (Ok tt, w') ->
  for_each (declared doc) (index_occurrence p) w = (Ok tt, w').
Proof.
  unfold _index_file. intros H.
  inv_lift H as all_plugins Hget. inv_lift H as typed Htyped.
  inv_mbind H as [] w1 Hplugins.
  inv_lift H as schedules Hs. inv_lift H as ls Hls.
  inv_mbind H as [] w2 Hschedules.
  inv_lift H as environments He. inv_lift H as le Hle.
  unfold declared. rewrite Hget, Hs, He.
  destruct all_plugins as [s|m|l]; simpl in Htyped; try discriminate.
  inversion Htyped; subst m.
  rewrite for_each_app. unfold bind at 1.
  rewrite (index_typed_Ok _ _ _ Hplugins).
  rewrite for_each_app. unfold bind at 1.
  unfold iterated. rewrite Hls, Hle, !for_each_map.
  change (for_each ls (fun x => index_occurrence p (Schedules, x)) w1)
    with (for_each ls (fun schedule =>
            bind (lift (getitem schedule "name")) (fun name =>
            _add_to_index [Str "schedules"; name] p)) w1).
  rewrite Hschedules, for_each_map. exact H.
Qed.

(** ** [load] *)

Lemma with_index_self (w : world) : with_index w (_plugin_file_map (self w)) = w.
Proof. destruct w as [[a b c d] e f]; reflexivity. Qed.

Lemma load_file_Ok (acc : list value) (p : path) (w : world) (acc' : list value)
      (w' : world) :
  load_included_file acc p w = (Ok acc', w') ->
  exists doc,
    holds (disk w) p doc /\ acc' = acc ++ [doc]
    /\ for_each (declared doc) (index_occurrence p) w = (Ok tt, w').
Proof.
  unfold load_included_file, try_except. intros H.
  destruct (bind (read_yaml p) _ w) as [[a|e] w1] eqn:E.
  - inversion H; subst a w1. clear H.
    inv_mbind E as doc w1 Hread. inv_mbind E as [] w2 Hidx.
    inversion E; subst. exists doc. split; [|split; auto].
    + unfold read_yaml in Hread. unfold holds.
      destruct (entries (disk w) p) as [[|[d|]]|]; inversion Hread; reflexivity.
    + unfold read_yaml in Hread.
      destruct (entries (disk w) p) as [[|[d|]]|]; inversion Hread; subst.
      now apply index_file_Ok.
  - destruct e; try discriminate.
Qed.

Lemma load_files_Ok (paths : list path) (acc : list value) (w : world)
      (docs' : list value) (w' : world) :
  fold_each paths acc load_included_file w = (Ok docs', w') ->
  exists docs,
    docs' = acc ++ docs
    /\ Forall2 (holds (disk w)) paths docs
    /\ w' = with_index w (_plugin_file_map (self w) ++ files_index paths docs)
    /\ (NoDup (map fst (_plugin_file_map (self w))) ->
        NoDup (map fst (_plugin_file_map (self w'))))
    /\ Forall (fun doc => Forall (fun o => exists k, entity_key_of o = Some k) (declared doc))
              docs.
Proof.
  revert acc w. induction paths as [|p rest IH]; intros acc w H; simpl in H.
  - inversion H; subst. exists []. unfold files_index. simpl.
    rewrite !app_nil_r, with_index_self. repeat split; auto.
  - inv_mbind H as acc1 w1 Hstep.
    destruct (load_file_Ok _ _ _ Hstep) as [doc [Hdoc [-> Hidx]]].
    destruct (index_occurrences_Ok _ _ _ Hidx) as [-> [Hnamed [N _]]].
    destruct (IH _ _ H) as [docs [-> [F [-> [N2 Hall]]]]].
    exists (doc :: docs). simpl in *.
    split; [now rewrite <- app_assoc|]. split; [constructor; auto|].
    split; [|split].
    + unfold with_index, files_index. simpl. now rewrite <- app_assoc.
    + intros Nd. apply N2. apply N. exact Nd.
    + constructor; auto.
Qed.

Lemma resolve_pattern_Ok (me : ProjectFiles) (acc : list path) (x : value)
      (w : world) (acc' : list path) (w' : world) :
  resolve_pattern me acc x w = (Ok acc', w') ->
  w' = w /\ exists pat, x = Str pat /\ accepts (disk w) (root me) pat = true.
Proof.
  unfold resolve_pattern. unfold bind at 1. unfold get_disk at 1.
  unfold bind at 1. unfold lift at 1.
  destruct (glob_value (disk w) (root me) x) as [matched|e] eqn:Eg; [|discriminate].
  unfold bind at 1. rewrite resolve_matches_run.
  destruct (find _ _); [discriminate|].
  intros H. split.
  - destruct (mem _ _); unfold ret in H; inversion H; reflexivity.
  - destruct x as [[|[|z|z]|pat]|[|kv m]|[|y l]]; cbn [glob_value] in Eg; try discriminate.
    exists pat. split; [reflexivity|]. unfold accepts. now rewrite Eg.
Qed.

Lemma resolve_patterns_strings (me : ProjectFiles) (l : list value) (acc : list path)
      (w : world) (acc' : list path) (w' : world) :
  fold_each l acc (resolve_pattern me) w = (Ok acc', w') ->
  exists pats, l = map Str pats.
Proof.
  revert acc w. induction l as [|x rest IH]; intros acc w H; cbn [fold_each] in H.
  - exists []. reflexivity.
  - inv_mbind H as acc1 w1 Hstep. destruct (IH _ _ H) as [pats ->].
    destruct (resolve_pattern_Ok _ _ _ _ Hstep) as [_ [pat [-> _]]].
    exists (pat :: pats). reflexivity.
Qed.

(** A pattern loop that returns: [Path.glob] took every pattern. *)
Lemma resolve_patterns_accepted (me : ProjectFiles) (pats : list string) (acc : list path)
      (w : world) (acc' : list path) (w' : world) :
  fold_each (map Str pats) acc (resolve_pattern me) w = (Ok acc', w') ->
  Forall (fun pat => accepts (disk w) (root me) pat = true) pats.
Proof.
  revert acc w. induction pats as [|pat rest IH]; intros acc w H; cbn [fold_each map] in H.
  - constructor.
  - inv_mbind H as acc1 w1 Hstep.
    destruct (resolve_pattern_Ok _ _ _ _ Hstep) as [-> [pat' [E Hacc]]].
    inversion E; subst pat'. constructor; [exact Hacc | exact (IH _ _ H)].
Qed.

(** A resolution that returns: the patterns were strings, every match a
    regular file, and the world is as it was. *)
Lemma resolve_include_paths_Ok (v : value) (w : world) (paths : list path) (w' : world) :
  _resolve_include_paths v w = (Ok paths, w') ->
  exists pats,
    iterate v = Ok (map Str pats)
    /\ Forall (fun pat => accepts (disk w) (root (self w)) pat = true) pats
    /\ find (invalid (disk w)) (expansions (disk w) (root (self w)) pats) = None
    /\ paths = fromkeys (gathered (disk w) (root (self w)) (_meltano_file_path (self w))
                                  pats [])
    /\ w' = w.
Proof.
  unfold _resolve_include_paths. intros H.
  unfold bind at 1 in H. unfold get_self at 1 in H.
  inv_lift H as l Hl. inv_mbind H as acc w1 Hfold.
  destruct (resolve_patterns_strings _ _ _ _ Hfold) as [pats ->].
  pose proof (resolve_patterns_accepted _ _ _ _ Hfold) as Hacc.
  rewrite resolve_patterns_run in Hfold by exact Hacc.
  exists pats. split; auto. split; [exact Hacc|].
  destruct (find _ _); [discriminate|].
  inversion Hfold; subst. inversion H; subst. auto.
Qed.

Ltac proj := cbn [self disk logged root _meltano _meltano_file_path _plugin_file_map
                       with_index with_meltano on_disk with_log] in *.

(** A [load] that returns, step by step. *)
Lemma load_Ok (w0 : world) (composite : value) (w : world) :
  load w0 = (Ok composite, w) ->
  exists rootdoc pats paths docs,
    holds (disk w0) (_meltano_file_path (self w0)) rootdoc
    /\ (exists m, rootdoc = Dict m)
    /\ iterate (match get rootdoc "include_paths" (Seq []) with
                | Ok v => v
                | Raise _ => Seq []
                end) = Ok (map Str pats)
    /\ Forall (fun pat => accepts (disk w0) (root (self w0)) pat = true) pats
    /\ find (invalid (disk w0)) (expansions (disk w0) (root (self w0)) pats) = None
    /\ paths = fromkeys (gathered (disk w0) (root (self w0)) (_meltano_file_path (self w0))
                                  pats [])
    /\ Forall2 (holds (disk w0)) paths docs
    /\ w = mkWorld (mkProjectFiles (root (self w0)) rootdoc (_meltano_file_path (self w0))
                                   (files_index paths docs))
                   (disk w0) (logged w0)
    /\ NoDup (map fst (files_index paths docs))
    /\ Forall (fun doc => Forall (fun o => exists k, entity_key_of o = Some k) (declared doc))
              docs
    /\ deep_merge rootdoc docs = Ok composite.
Proof.
  unfold load. intros H.
  inv_mbind H as [] w1 Hreset. unfold reset_cache, set_meltano in Hreset.
  inversion Hreset; subst w1; clear Hreset.
  inv_mbind H as docs w2 Hfiles. unfold _load_included_files in Hfiles.
  inv_mbind Hfiles as [] w3 Hclear. unfold set_plugin_file_map in Hclear.
  inversion Hclear; subst w3; clear Hclear. proj.
  inv_mbind Hfiles as paths w4 Hpaths. unfold include_paths in Hpaths.
  inv_mbind Hpaths as rootdoc w5 Hm. unfold meltano in Hm.
  unfold bind at 1 in Hm. unfold get_self at 1 in Hm. proj.
  change (match None_ with Scalar SNull => ?a | _ => ?b end) with a in Hm.
  inv_mbind Hm as rootdoc' w6 Hread. inv_mbind Hm as [] w7 Hset.
  unfold ret in Hm. inversion Hm; subst rootdoc' w7; clear Hm.
  unfold set_meltano in Hset. inversion Hset; subst w5; clear Hset.
  unfold read_yaml in Hread. proj.
  destruct (entries (disk w0) (_meltano_file_path (self w0))) as [[|[d|]]|] eqn:Eroot;
    inversion Hread; subst d w6; clear Hread. proj.
  inv_lift Hpaths as v Hget.
  destruct rootdoc as [s|m|l]; try discriminate.
  apply resolve_include_paths_Ok in Hpaths.
  destruct Hpaths as [pats [Hiter [Hacc [Hvalid [-> ->]]]]]. proj.
  apply load_files_Ok in Hfiles.
  destruct Hfiles as [docs0 [-> [F [-> [N Hnamed]]]]]. proj.
  inv_mbind H as doc w8 Hm2. unfold meltano in Hm2.
  unfold bind at 1 in Hm2. unfold get_self at 1 in Hm2. proj.
  unfold ret in Hm2. inversion Hm2; subst doc w8; clear Hm2.
  apply lift_Ok in H. destruct H as [Hmerge ->].
  eexists (Dict m), pats, _, docs0.
  split; [exact Eroot|]. split; [eauto|].
  split; [rewrite Hget; exact Hiter|]. split; [exact Hacc|].
  split; [exact Hvalid|]. split; [reflexivity|]. split; [exact F|].
  split; [reflexivity|]. split; [apply N; constructor|]. split; [exact Hnamed|].
  exact Hmerge.
Qed.

(** ** Where the split puts a record *)

Lemma name_of_getitem (e : value) (n : scalar) :
  name_of e = Some n <-> getitem e "name" = Ok (Scalar n).
Proof.
  unfold name_of. destruct (getitem e "name") as [[s|m|l]|err]; split; congruence.
Qed.

Lemma file_for_named (me : ProjectFiles) (c : collection) (e : value) (n : scalar) :
  name_of e = Some n -> file_for me (c, e) = Ok (home me c n).
Proof.
  intros Hn. apply name_of_getitem in Hn.
  assert (Hget : get e "name" None_ = Ok (Scalar n)).
  { destruct e as [s|m|l]; simpl in *; try discriminate.
    destruct (lookup "name" m); inversion Hn; reflexivity. }
  unfold file_for, key_tuple, home, file_of.
  destruct c as [t| |]; rewrite ?Hn, ?Hget; reflexivity.
Qed.

Lemma has_name_eq (n : scalar) (e : value) : has_name n e = true <-> name_of e = Some n.
Proof.
  unfold has_name. destruct (name_of e) as [m|].
  - destruct (scalar_eqb_spec n m); split; congruence.
  - split; discriminate.
Qed.

Lemma placed_records (me : ProjectFiles) (f : string) (c : collection) (config : value) :
  placed me f c (occurrences config)
  = filter (fun e => sent_to me f (c, e)) (records c config).
Proof.
  unfold placed, records. induction (occurrences config) as [|[c' e] rest IH]; simpl; auto.
  unfold goes_to at 1. cbn [fst].
  destruct (collection_eqb_spec c' c) as [->|Hne]; cbn [andb]; auto.
  simpl. unfold sent_to at 1 2. destruct (file_for me (c, e)) as [f'|err]; auto.
  destruct (String.eqb f' f); simpl; now rewrite IH.
Qed.

Lemma find_filter {A} (p q : A -> bool) (l : list A) :
  (forall x, In x l -> p x = true -> q x = true) -> find p (filter q l) = find p l.
Proof.
  induction l as [|x rest IH]; intros H; simpl; auto.
  destruct (q x) eqn:Eq; simpl.
  - destruct (p x); auto. apply IH. intros y Hy. apply H. now right.
  - destruct (p x) eqn:Ep.
    + rewrite (H x) in Eq by (auto; now left). discriminate.
    + apply IH. intros y Hy. apply H. now right.
Qed.

Lemma absorb_keeps (l es : list value) (x : value) : In x l -> In x (absorb l es).
Proof.
  revert l. induction es as [|e rest IH]; intros l H; simpl; auto.
  apply IH. unfold add_if_new. destruct (name_of e) as [n|]; auto.
  destruct (existsb (has_name n) l); auto. apply in_or_app. now left.
Qed.

Lemma absorb_incl (l es : list value) (x : value) :
  In x (absorb l es) -> In x l \/ In x es.
Proof.
  revert l. induction es as [|e rest IH]; intros l H; simpl in *; auto.
  apply IH in H. destruct H as [H|H]; [|tauto].
  unfold add_if_new in H. destruct (name_of e) as [n|]; auto.
  destruct (existsb (has_name n) l); auto.
  apply in_app_or in H. destruct H as [H|[<-|[]]]; auto.
Qed.

Lemma absorb_first (l es : list value) (n : scalar) (e : value) :
  (forall x, In x l -> has_name n x = false) ->
  find (has_name n) es = Some e -> In e (absorb l es).
Proof.
  revert l. induction es as [|y rest IH]; intros l Hl H; simpl in *; [discriminate|].
  destruct (has_name n y) eqn:Ey.
  - inversion H; subst y. apply absorb_keeps.
    apply has_name_eq in Ey. unfold add_if_new. rewrite Ey.
    assert (existsb (has_name n) l = false) as ->.
    { apply not_true_is_false. intros Hex. apply existsb_exists in Hex.
      destruct Hex as [x [Hx Hn]]. rewrite (Hl x Hx) in Hn. discriminate. }
    apply in_or_app. right. now left.
  - apply IH; auto. intros x Hx. unfold add_if_new in Hx.
    destruct (name_of y) as [m|] eqn:Em; auto.
    destruct (existsb (has_name m) l); auto.
    apply in_app_or in Hx. destruct Hx as [Hx|[<-|[]]]; auto.
Qed.

Lemma In_records (c : collection) (e : value) (config : value) :
  In e (records c config) <-> In (c, e) (occurrences config).
Proof.
  unfold records. rewrite in_map_iff. split.
  - intros [[c' e'] [E H]]. simpl in E. subst e'. apply filter_In in H.
    destruct H as [H Hc]. simpl in Hc.
    destruct (collection_eqb_spec c' c); [now subst | discriminate].
  - intros H. exists (c, e). split; auto. apply filter_In. split; auto.
    simpl. destruct (collection_eqb_spec c c); congruence.
Qed.

Lemma dict_at_lookup (groups : list (string * value)) (f : string) (doc : value) :
  lookup f groups = Some doc -> dict_at (Dict groups) f = doc.
Proof. simpl. now intros ->. Qed.

(** When [update] returns, a record named [n] of collection [c] is in the
    group of its home file (the first such record is), that group is what
    the file holds afterwards, and no other group has a record of [c] named
    so. *)
Lemma record_goes_home (config : value) (w : world) (r : value) (w' : world)
      (c : collection) (e : value) (n : scalar) :
  update config w = (Ok r, w') ->
  In (c, e) (occurrences config) ->
  name_of e = Some n ->
  exists groups doc first,
    _split_config_dict (self w) config = Ok (Dict groups)
    /\ lookup (home (self w) c n) groups = Some doc
    /\ holds (disk w') (home (self w) c n) doc
    /\ find (has_name n) (records c config) = Some first
    /\ In first (entities_at doc c)
    /\ (forall p d x, lookup p groups = Some d -> p <> home (self w) c n ->
                      In x (entities_at d c) -> has_name n x = false).
Proof.
  intros Hup Hin Hn.
  destruct (update_Ok _ _ Hup) as [groups [paths [w1 [Hs [_ [_ [_ [_ Hheld]]]]]]]].
  pose proof Hs as Hs'. rewrite split_config_dict_run in Hs'.
  destruct (split_loop (self w) config) as [fd|err] eqn:El; [|discriminate].
  destruct (assigns_root (self w) config); [|discriminate].
  destruct (commented_root (self w) config); [|discriminate].
  inversion Hs'; subst fd; clear Hs'.
  destruct (split_loop_Ok _ _ El) as [entries_ [g [Hc [Hg [N [K [C A]]]]]]].
  inversion Hg; subst g; clear Hg.
  set (f := home (self w) c n).
  assert (Hnamed : forall x, In x (records c config) -> exists m, name_of x = Some m).
  { intros x Hx. apply In_records in Hx. rewrite Forall_forall in A.
    destruct (A _ Hx) as [Hm _]. exact Hm. }
  assert (Hfirst : exists first, find (has_name n) (records c config) = Some first).
  { destruct (find (has_name n) (records c config)) as [x|] eqn:Ef; eauto.
    apply In_records in Hin. apply (find_none _ _ Ef) in Hin.
    apply has_name_eq in Hn. congruence. }
  destruct Hfirst as [first Hfirst].
  assert (Hkept : In first (kept (Dict groups) f c)).
  { rewrite K, placed_records. apply absorb_first with (n := n).
    - intros x [].
    - rewrite find_filter; auto.
      intros x Hx Hxn. apply has_name_eq in Hxn.
      unfold sent_to. rewrite (file_for_named _ _ _ Hxn). apply String.eqb_refl. }
  assert (Hcont : contains (Dict groups) f = true).
  { rewrite C. apply orb_true_iff. left. apply existsb_exists.
    exists (c, e). split; auto. unfold sent_to.
    rewrite (file_for_named _ _ _ Hn). apply String.eqb_refl. }
  simpl in Hcont. destruct (lookup f groups) as [doc|] eqn:Ed; [|discriminate].
  exists groups, doc, first.
  split; [exact Hs|]. split; [exact Ed|]. split; [now apply Hheld|].
  split; [exact Hfirst|]. split.
  - unfold kept in Hkept. now rewrite (dict_at_lookup _ _ Ed) in Hkept.
  - intros p d x Hp Hne Hx.
    assert (Hk : In x (kept (Dict groups) p c)).
    { unfold kept. now rewrite (dict_at_lookup _ _ Hp). }
    rewrite K, placed_records in Hk. apply absorb_incl in Hk.
    destruct Hk as [[]|Hk]. apply filter_In in Hk. destruct Hk as [Hrec Hsent].
    destruct (has_name n x) eqn:Ex; auto.
    apply has_name_eq in Ex. unfold sent_to in Hsent.
    rewrite (file_for_named _ _ _ Ex) in Hsent. apply String.eqb_eq in Hsent.
    fold f in Hsent. congruence.
Qed.

(** C4. A record of [update]'s input whose key the index does not know is
    in the root file's group (the first record of its collection with that
    name is, the dedup by name keeping the first), which is what the root
    file holds when [update] returns; no other group has a record of that
    collection with that name. *)
Theorem new_entity_goes_to_root (config : value) (w : world) (r : value) (w' : world)
        (c : collection) (e : value) (n : scalar) :
  update config w = (Ok r, w') ->
  In (c, e) (occurrences config) ->
  name_of e = Some n ->
  index_get (_plugin_file_map (self w)) (key_of c n) = None ->
  exists groups rootdoc first,
    _split_config_dict (self w) config = Ok (Dict groups)
    /\ lookup (_meltano_file_path (self w)) groups = Some rootdoc
    /\ holds (disk w') (_meltano_file_path (self w)) rootdoc
    /\ find (has_name n) (records c config) = Some first
    /\ In first (entities_at rootdoc c)
    /\ (forall p d x, lookup p groups = Some d -> p <> _meltano_file_path (self w) ->
                      In x (entities_at d c) -> has_name n x = false).
Proof.
  intros Hup Hin Hn Hidx.
  destruct (record_goes_home _ _ _ _ Hup Hin Hn) as [groups [doc [first H]]].
  unfold home in H. rewrite Hidx in H. exists groups, doc, first. exact H.
Qed.

Lemma In_index_entries (p : path) (os : list occurrence) (k : entity_key) (f : string) :
  In (k, f) (index_entries p os) <->
  f = p /\ exists o, In o os /\ entity_key_of o = Some k.
Proof.
  unfold index_entries. rewrite in_flat_map. split.
  - intros [o [Ho H]]. destruct (entity_key_of o) as [k'|] eqn:E; simpl in H; [|tauto].
    destruct H as [[= <- <-]|[]]. eauto.
  - intros [-> [o [Ho E]]]. exists o. split; auto. rewrite E. now left.
Qed.

Lemma In_files_index (paths : list path) (docs : list value) (k : entity_key) (f : string) :
  In (k, f) (files_index paths docs) <->
  exists doc, In (f, doc) (combine paths docs)
              /\ exists o, In o (declared doc) /\ entity_key_of o = Some k.
Proof.
  unfold files_index. rewrite in_flat_map. split.
  - intros [[p doc] [Hpd H]]. apply In_index_entries in H. destruct H as [-> H]. eauto.
  - intros [doc [Hpd H]]. exists (f, doc). split; auto. apply In_index_entries. auto.
Qed.

Lemma Forall2_combine {A B} (R : A -> B -> Prop) (l : list A) (l' : list B) (a : A) (b : B) :
  Forall2 R l l' -> In (a, b) (combine l l') -> R a b.
Proof.
  induction 1 as [|x y l l' Hxy F IH]; simpl; [tauto|].
  intros [[= -> ->]|H]; auto.
Qed.

Lemma In_fromkeys (l : list path) (p : path) : In p (fromkeys l) <-> In p l.
Proof.
  rewrite fromkeys_first_occurrences. unfold first_occurrences.
  rewrite unseen_In. simpl. tauto.
Qed.

(** What a load that returned has in its index: files of its include list,
    none of them the root file, each with a record of that key. *)
Lemma load_index_origin (w0 : world) (composite : value) (w : world)
      (k : entity_key) (f : string) :
  load w0 = (Ok composite, w) ->
  (forall pat, count_occ string_dec (glob (disk w0) (root (self w0)) pat)
                         (_meltano_file_path (self w0)) <= 1) ->
  index_get (_plugin_file_map (self w)) k = Some f ->
  f <> _meltano_file_path (self w)
  /\ exists doc o, holds (disk w0) f doc /\ In o (declared doc) /\ entity_key_of o = Some k.
Proof.
  intros Hload Hglob Hidx.
  destruct (load_Ok _ Hload)
    as [rootdoc [pats [paths [docs [_ [_ [_ [_ [_ [Hpaths [F [-> [N _]]]]]]]]]]]]].
  proj. apply index_get_Some_In in Hidx. apply In_files_index in Hidx.
  destruct Hidx as [doc [Hpd [o [Ho Hk]]]].
  split.
  - apply in_combine_l in Hpd. subst paths. apply -> In_fromkeys in Hpd.
    rewrite gathered_filter in Hpd by (simpl; auto).
    simpl in Hpd. apply In_filter_not_path in Hpd. tauto.
  - exists doc, o. split; auto. exact (Forall2_combine _ _ F Hpd).
Qed.

(** C3. A record whose key the last [load] indexed under an include file
    [f] (a file that declared a record with that key, and not the root file)
    is, when [update] returns, in what [f] holds (the first record of its
    collection with that name is), and the root file holds no record of that
    collection with that name. *)
Theorem indexed_entity_goes_back (w0 w w' : world) (composite config r : value)
        (c : collection) (e : value) (n : scalar) (f : string) :
  load w0 = (Ok composite, w) ->
  (forall pat, count_occ string_dec (glob (disk w0) (root (self w0)) pat)
                         (_meltano_file_path (self w0)) <= 1) ->
  index_get (_plugin_file_map (self w)) (key_of c n) = Some f ->
  update config w = (Ok r, w') ->
  In (c, e) (occurrences config) ->
  name_of e = Some n ->
  f <> _meltano_file_path (self w)
  /\ (exists doc0 o, holds (disk w0) f doc0 /\ In o (declared doc0)
                     /\ entity_key_of o = Some (key_of c n))
  /\ exists doc rootdoc first,
       holds (disk w') f doc
       /\ holds (disk w') (_meltano_file_path (self w)) rootdoc
       /\ find (has_name n) (records c config) = Some first
       /\ In first (entities_at doc c)
       /\ (forall x, In x (entities_at rootdoc c) -> has_name n x = false).
Proof.
  intros Hload Hglob Hidx Hup Hin Hn.
  destruct (load_index_origin _ _ Hload Hglob Hidx) as [Hne Horigin].
  split; [exact Hne|]. split; [exact Horigin|].
  destruct (record_goes_home _ _ _ _ Hup Hin Hn)
    as [groups [doc [first [Hs [Hl [Hh [Hf [Hi Hothers]]]]]]]].
  unfold home in *. rewrite Hidx in *.
  destruct (update_Ok _ _ Hup) as [groups' [paths [w1 [Hs' [_ [_ [Hroot [_ Hheld]]]]]]]].
  rewrite Hs in Hs'. inversion Hs'; subst groups'. clear Hs'.
  simpl in Hroot.
  destruct (lookup (_meltano_file_path (self w)) groups) as [rootdoc|] eqn:Er;
    [|discriminate].
  exists doc, rootdoc, first.
  split; [exact Hh|]. split; [now apply Hheld|]. split; [exact Hf|]. split; [exact Hi|].
  intros x Hx. apply (Hothers _ _ _ Er); auto.
Qed.

(** ** [deep_merge] *)

Lemma merge_child_unfold (items : list (string * value)) (base : value) :
  merge_child (Dict items) base
  = foldM (fun base kv => merge_entry merge_child (fst kv) (snd kv) base) items base.
Proof.
  revert base. induction items as [|[key v] rest IH]; intros base; simpl; auto.
  change (fun v' node => merge_child v' node) with merge_child.
  destruct (merge_entry merge_child key v base) as [base'|e]; simpl; auto.
  exact (IH base').
Qed.

Lemma deep_merge_single (node v : value) : deep_merge node [v] = merge_child v node.
Proof. simpl. destruct (merge_child v node); reflexivity. Qed.

Lemma deep_merge_fold (parent : value) (children : list value) :
  deep_merge parent children = foldM (fun base child => merge_child child base) children parent.
Proof.
  revert parent. induction children as [|c rest IH]; intros parent; simpl; auto.
  destruct (merge_child c parent); simpl; auto.
Qed.

(** One entry of a child on a base that is a mapping. *)
Lemma merge_entry_Dict (key : string) (v : value) (b : list (string * value)) :
  merge_entry merge_child key v (Dict b)
  = rbind (merged (lookup key b) v) (fun x => Ok (Dict (assign key x b))).
Proof.
  destruct v as [s|m|l]; unfold merge_entry, merged.
  - reflexivity.
  - rewrite deep_merge_single. unfold setdefault.
    destruct (lookup key b) as [node|] eqn:E; cbn [rbind].
    + destruct (merge_child (Dict m) node); reflexivity.
    + destruct (merge_child (Dict m) (Dict [])); cbn [rbind setitem]; auto.
      now rewrite assign_absent.
  - unfold setdefault.
    destruct (lookup key b) as [node|] eqn:E; cbn [rbind].
    + destruct node; reflexivity.
    + cbn [extend rbind setitem app]. now rewrite assign_absent.
Qed.

Lemma merge_entry_not_Dict (key : string) (v base : value) :
  (forall b, base <> Dict b) -> exists e, merge_entry merge_child key v base = Raise e.
Proof.
  intros H. destruct base as [s|b|l]; [| exfalso; now apply (H b) |];
    destruct v; simpl; eauto.
Qed.

(** What a key holds after the entries of one child went in. *)
Lemma merge_items_Ok (items : list (string * value)) (b : list (string * value)) (r : value) :
  NoDup (keys items) ->
  foldM (fun base kv => merge_entry merge_child (fst kv) (snd kv) base) items (Dict b) = Ok r ->
  exists b',
    r = Dict b'
    /\ forall key,
        match lookup key items with
        | None => lookup key b' = lookup key b
        | Some v => exists x, merged (lookup key b) v = Ok x /\ lookup key b' = Some x
        end.
Proof.
  revert b. induction items as [|[k0 v0] rest IH]; intros b N H; cbn [foldM] in H.
  - inversion H; subst. exists b. split; auto. intros key. reflexivity.
  - inversion N as [|? ? Hnotin N']; subst.
    inv_bind H as base1 Hstep. cbn [fst snd] in Hstep.
    rewrite merge_entry_Dict in Hstep. inv_bind Hstep as x Hx.
    inversion Hstep; subst base1. clear Hstep.
    destruct (IH _ N' H) as [b' [-> Hkeys]].
    exists b'. split; auto. intros key. specialize (Hkeys key). cbn [lookup].
    destruct (String.eqb_spec key k0) as [->|Hne].
    + apply lookup_None_keys in Hnotin. rewrite Hnotin in Hkeys.
      rewrite lookup_assign_eq in Hkeys. eauto.
    + rewrite lookup_assign_ne in Hkeys by assumption. exact Hkeys.
Qed.


(** What a key holds after all the children went in. *)
Lemma deep_merge_key (children : list value) (b : list (string * value)) (r : value) :
  Forall well_keyed children ->
  deep_merge (Dict b) children = Ok r ->
  exists b',
    r = Dict b'
    /\ forall key, merged_all (lookup key b) (values_at key children) = Ok (lookup key b').
Proof.
  intros F. revert b. induction F as [|c rest [items [-> N]] F IH]; intros b H.
  - cbn [deep_merge] in H. inversion H; subst. exists b. split; auto.
  - cbn [deep_merge] in H. inv_bind H as base1 Hstep.
    rewrite merge_child_unfold in Hstep.
    apply merge_items_Ok in Hstep; [|exact N]. destruct Hstep as [b1 [-> Hkeys]].
    destruct (IH _ H) as [b' [-> Hrest]].
    exists b'. split; auto. intros key. specialize (Hkeys key). specialize (Hrest key).
    unfold values_at in *. cbn [flat_map].
    destruct (lookup key items) as [v|].
    + destruct Hkeys as [x [Hx Hl]]. unfold merged_all in *. cbn [app foldM].
      rewrite Hx. cbn [rbind]. now rewrite <- Hl.
    + cbn [app]. now rewrite <- Hkeys.
Qed.

Lemma merged_all_app (old : option value) (vs vs' : list value) :
  merged_all old (vs ++ vs') = rbind (merged_all old vs) (fun x => merged_all x vs').
Proof. unfold merged_all. apply foldM_app. Qed.

Lemma merged_all_seq (vs : list value) (old x : option value) :
  Forall is_seq vs -> vs <> [] ->
  merged_all old vs = Ok x ->
  x = Some (Seq (match old with Some (Seq l0) => l0 | _ => [] end ++ flat_map items_in vs)).
Proof.
  intros F. revert old. induction F as [|v rest [l ->] F IH]; intros old Hne H.
  - congruence.
  - unfold merged_all in H. cbn [foldM] in H. inv_bind H as y Hy.
    inv_bind Hy as z Hz. inversion Hy; subst y. clear Hy.
    assert (Hz' : z = Seq (match old with Some (Seq l0) => l0 | _ => [] end ++ l)).
    { destruct old as [[s|m|l0]|]; simpl in Hz; inversion Hz; reflexivity. }
    subst z. destruct rest as [|v' rest'].
    + cbn [foldM] in H. inversion H; subst. simpl. now rewrite app_nil_r.
    + rewrite (IH _ ltac:(discriminate) H). cbn [flat_map items_in].
      now rewrite <- app_assoc.
Qed.

Lemma merged_all_dict (vs : list value) (old x : option value) :
  Forall is_dict vs -> vs <> [] ->
  merged_all old vs = Ok x ->
  exists node, x = Some node
               /\ deep_merge (match old with Some n => n | None => Dict [] end) vs = Ok node.
Proof.
  intros F. revert old. induction F as [|v rest [m ->] F IH]; intros old Hne H.
  - congruence.
  - unfold merged_all in H. cbn [foldM] in H. inv_bind H as y Hy.
    inv_bind Hy as z Hz. inversion Hy; subst y. clear Hy.
    unfold merged in Hz. rewrite deep_merge_single in Hz.
    cbn [deep_merge]. rewrite Hz. cbn [rbind].
    destruct rest as [|v' rest'].
    + cbn [foldM] in H. inversion H; subst. eauto.
    + destruct (IH (Some z) ltac:(discriminate) H) as [node [-> Hnode]]. eauto.
Qed.

Lemma merged_all_scalar (vs : list value) (s : scalar) (old x : option value) :
  merged_all old (vs ++ [Scalar s]) = Ok x -> x = Some (Scalar s).
Proof.
  rewrite merged_all_app. intros H. inv_bind H as y Hy.
  unfold merged_all in H. cbn in H. now inversion H.
Qed.

(** C2. When the deep merge of a root mapping with the included mappings
    returns, each key holds what the merge rule says: the root's value when
    no include brings the key; the last value brought when that is a scalar;
    the root's items followed by each include's items, in order, when the
    values brought are sequences; the deep merge of the root's mapping with
    the mappings brought, when they are mappings. *)
Theorem deep_merge_rule (b : list (string * value)) (children : list value) (r : value) :
  Forall well_keyed children ->
  deep_merge (Dict b) children = Ok r ->
  exists b',
    r = Dict b'
    /\ forall key,
        (values_at key children = [] -> lookup key b' = lookup key b)
        /\ (forall vs s, values_at key children = vs ++ [Scalar s] ->
                         lookup key b' = Some (Scalar s))
        /\ (Forall is_seq (values_at key children) -> values_at key children <> [] ->
            lookup key b'
            = Some (Seq (seq_at (Dict b) key
                         ++ flat_map items_in (values_at key children))))
        /\ (Forall is_dict (values_at key children) -> values_at key children <> [] ->
            exists node,
              deep_merge (dict_at (Dict b) key) (values_at key children) = Ok node
              /\ lookup key b' = Some node).
Proof.
  intros F H. apply deep_merge_key in H; [|exact F]. destruct H as [b' [-> Hkey]].
  exists b'. split; auto. intros key. specialize (Hkey key).
  split; [|split; [|split]].
  - intros E. rewrite E in Hkey. unfold merged_all in Hkey. cbn in Hkey. congruence.
  - intros vs s E. rewrite E in Hkey. apply merged_all_scalar in Hkey. congruence.
  - intros Hs Hne. apply merged_all_seq in Hkey; [|assumption|assumption].
    rewrite Hkey. unfold seq_at. destruct (lookup key b) as [[s|m|l]|]; reflexivity.
  - intros Hd Hne. apply merged_all_dict in Hkey; [|assumption|assumption].
    destruct Hkey as [node [Hl Hnode]]. exists node. split; auto.
Qed.


(** ** Duplicates *)

Unset Implicit Arguments.

Lemma meltano_cached (w : world) (m : list (string * value)) :
  _meltano (self w) = Dict m -> meltano w = (Ok (Dict m), w).
Proof.
  intros H. unfold meltano, bind, get_self. rewrite H. reflexivity.
Qed.

Lemma include_paths_cached (w : world) (m : list (string * value)) (pats : list string) :
  _meltano (self w) = Dict m ->
  iterate (match get (Dict m) "include_paths" (Seq []) with
           | Ok v => v
           | Raise _ => Seq []
           end) = Ok (map Str pats) ->
  Forall (fun pat => accepts (disk w) (root (self w)) pat = true) pats ->
  find (invalid (disk w)) (expansions (disk w) (root (self w)) pats) = None ->
  include_paths w
  = (Ok (fromkeys (gathered (disk w) (root (self w)) (_meltano_file_path (self w)) pats [])),
     w).
Proof.
  intros Hc Hiter Hacc Hvalid. unfold include_paths. unfold bind at 1.
  rewrite (meltano_cached w m Hc). unfold bind at 1. unfold lift.
  cbn [get] in *. rewrite (@resolve_include_paths_iter _ pats w Hiter Hacc), Hvalid.
  reflexivity.
Qed.

Lemma map_fst_index_entries (p : path) (os : list occurrence) :
  map fst (index_entries p os)
  = flat_map (fun o => match entity_key_of o with Some k => [k] | None => [] end) os.
Proof.
  unfold index_entries. induction os as [|o rest IH]; cbn [flat_map map]; auto.
  rewrite map_app, IH. destruct (entity_key_of o); reflexivity.
Qed.

Lemma map_fst_files_index (paths : list path) (docs : list value) :
  List.length paths = List.length docs ->
  map fst (files_index paths docs) = declared_keys docs.
Proof.
  unfold files_index, declared_keys. revert docs.
  induction paths as [|p rest IH]; intros [|doc docs] L; simpl in L; try discriminate; auto.
  cbn [combine flat_map]. rewrite map_app, map_fst_index_entries, IH by lia. reflexivity.
Qed.

Lemma Forall2_length_ {A B} (R : A -> B -> Prop) (l : list A) (l' : list B) :
  Forall2 R l l' -> List.length l = List.length l'.
Proof. induction 1; simpl; auto. Qed.

(** C6 (as amended). Whenever [load] returns, the records declared by the
    include files it read all have keys, no key occurs twice among them
    (within one file or across files), and the index holds exactly these
    keys; the root document is merged without being indexed. *)
Theorem include_keys_distinct (w0 : world) (composite : value) (w : world) :
  load w0 = (Ok composite, w) ->
  exists rootdoc paths docs,
    holds (disk w) (_meltano_file_path (self w)) rootdoc
    /\ include_paths w = (Ok paths, w)
    /\ Forall2 (holds (disk w)) paths docs
    /\ Forall (fun doc => Forall (fun o => exists k, entity_key_of o = Some k) (declared doc))
              docs
    /\ NoDup (declared_keys docs)
    /\ map fst (_plugin_file_map (self w)) = declared_keys docs
    /\ deep_merge rootdoc docs = Ok composite.
Proof.
  intros Hload.
  destruct (load_Ok _ Hload)
    as [rootdoc [pats [paths [docs [Hroot [[m ->] [Hiter [Hacc [Hvalid [Hpaths [F [-> [N [Hk Hm]]]]]]]]]]]]]].
  proj. exists (Dict m), paths, docs.
  pose proof (Forall2_length_ _ _ _ F) as L.
  split; [exact Hroot|]. split.
  { rewrite (include_paths_cached _ m pats); proj; auto. now subst paths. }
  split; [exact F|]. split; [exact Hk|].
  rewrite <- (map_fst_files_index paths docs L).
  split; [exact N|]. split; [reflexivity | exact Hm].
Qed.

Lemma join_key_of (c : collection) (s : string) :
  join ":" (tuple_of c (Str s)) = Ok (key_path_string (key_of c (SStr s))).
Proof. destruct c; reflexivity. Qed.

(** One step of indexing a record named by a string. *)
Lemma index_occurrence_run (p : path) (o : occurrence) (w : world) :
  string_named o ->
  index_occurrence p o w
  = match index_all p [o] (_plugin_file_map (self w)) with
    | (idx, None) => (Ok tt, with_index w idx)
    | (idx, Some (k, f)) => (Raise DuplicatePluginName, stopped w idx k f)
    end.
Proof.
  intros [s Hs]. unfold index_all. unfold entity_key_of. rewrite Hs.
  apply name_of_getitem in Hs.
  unfold index_occurrence, bind, lift. rewrite Hs.
  unfold _add_to_index, bind, get_self, lift. rewrite hashed_key_of.
  destruct (index_get (_plugin_file_map (self w)) (key_of (fst o) (SStr s))) as [f|].
  - change (Scalar (SStr s)) with (Str s). rewrite join_key_of.
    unfold critical, raise, stopped, with_log. rewrite with_index_self. reflexivity.
  - reflexivity.
Qed.

Lemma index_occurrences_run (p : path) (os : list occurrence) (w : world) :
  Forall string_named os ->
  for_each os (index_occurrence p) w
  = match index_all p os (_plugin_file_map (self w)) with
    | (idx, None) => (Ok tt, with_index w idx)
    | (idx, Some (k, f)) => (Raise DuplicatePluginName, stopped w idx k f)
    end.
Proof.
  intros F. revert w. induction F as [|o rest Ho F IH]; intros w.
  - cbn [for_each index_all]. unfold ret. now rewrite with_index_self.
  - cbn [for_each]. unfold bind. rewrite (index_occurrence_run p o w Ho).
    cbn [index_all]. destruct Ho as [s Hs]. unfold entity_key_of. rewrite Hs.
    destruct (index_get (_plugin_file_map (self w)) (key_of (fst o) (SStr s))) as [f|].
    + reflexivity.
    + rewrite IH. proj.
      destruct (index_all p rest (_plugin_file_map (self w) ++ [(key_of (fst o) (SStr s), p)]))
        as [idx [[k f]|]]; reflexivity.
Qed.

Lemma bind_congr {A B} (m m' : M A) (k k' : A -> M B) (w : world) :
  m w = m' w -> (forall a w1, k a w1 = k' a w1) -> bind m k w = bind m' k' w.
Proof.
  intros Hm Hk. unfold bind. rewrite Hm. destruct (m' w) as [[a|e] w1]; auto.
Qed.

Lemma bind_lift {A B} (a : A) (k : A -> M B) (w : world) :
  bind (lift (Ok a)) k w = k a w.
Proof. reflexivity. Qed.

Lemma index_named_run (p : path) (c : collection) (l : list value) (w : world) :
  for_each l (fun x => bind (lift (getitem x "name")) (fun name =>
                       _add_to_index (tuple_of c name) p)) w
  = for_each (map (pair c) l) (index_occurrence p) w.
Proof. now rewrite for_each_map. Qed.

Lemma index_typed_run (p : path) (typed : list (string * value)) (w : world) :
  Forall (fun tv => is_seq (snd tv)) typed ->
  for_each typed (fun '(plugin_type, plugins) =>
    bind (lift (iterate plugins)) (fun plugins =>
    for_each plugins (fun plugin =>
      bind (lift (getitem plugin "name")) (fun name =>
      _add_to_index [Str "plugins"; Str plugin_type; name] p)))) w
  = for_each (flat_map (fun '(t, ps) => map (pair (Plugins t)) (iterated ps)) typed)
             (index_occurrence p) w.
Proof.
  intros F. revert w. induction F as [|[t ps] rest [l Hl] F IH]; intros w.
  - reflexivity.
  - cbn [snd] in Hl. subst ps. cbn [for_each flat_map].
    rewrite for_each_app. apply bind_congr.
    + cbn [iterate iterated]. rewrite bind_lift.
      apply (index_named_run p (Plugins t) l w).
    + intros _ w1. apply IH.
Qed.

(** [_index_file] on a file whose collections are sequences is a run over
    its declared records. *)
Lemma index_file_sequenced (p : path) (doc : value) (w : world) :
  sequenced doc ->
  _index_file p doc w = for_each (declared doc) (index_occurrence p) w.
Proof.
  intros [items [-> [Hp [Hs He]]]].
  unfold _index_file, declared. cbn [get].
  assert (Hplug : exists typed,
             match lookup "plugins" items with Some v => v | None => Dict [] end = Dict typed
             /\ Forall (fun tv => is_seq (snd tv)) typed).
  { destruct (lookup "plugins" items) as [[s|typed|l]|]; try contradiction; eauto. }
  assert (Hsched : exists l,
             match lookup "schedules" items with Some v => v | None => Seq [] end = Seq l).
  { destruct (lookup "schedules" items) as [v|]; [exact Hs | eexists; reflexivity]. }
  assert (Henv : exists l,
             match lookup "environments" items with Some v => v | None => Seq [] end = Seq l).
  { destruct (lookup "environments" items) as [v|]; [exact He | eexists; reflexivity]. }
  destruct Hplug as [typed [-> Hall]]. destruct Hsched as [ls ->]. destruct Henv as [le ->].
  rewrite bind_lift. cbn [items_of]. rewrite bind_lift.
  rewrite for_each_app. apply bind_congr; [apply (index_typed_run p typed w Hall)|].
  intros _ w1. rewrite bind_lift. cbn [iterate iterated]. rewrite bind_lift.
  rewrite for_each_app. apply bind_congr; [apply (index_named_run p Schedules ls w1)|].
  intros _ w2. rewrite bind_lift. cbn [iterate]. rewrite bind_lift.
  apply (index_named_run p Environments le w2).
Qed.

Lemma indexable_sequenced (doc : value) : indexable doc -> sequenced doc.
Proof. intros [items [E [Hp [Hs [He _]]]]]. exists items. auto. Qed.

Lemma index_file_run (p : path) (doc : value) (w : world) :
  indexable doc ->
  _index_file p doc w = for_each (declared doc) (index_occurrence p) w.
Proof. intros H. apply index_file_sequenced. now apply indexable_sequenced. Qed.

Lemma read_yaml_holds (p : path) (doc : value) (w : world) :
  holds (disk w) p doc -> read_yaml p w = (Ok doc, w).
Proof. unfold holds, read_yaml. now intros ->. Qed.

Lemma load_included_file_run (acc : list value) (p : path) (doc : value) (w : world) :
  holds (disk w) p doc -> indexable doc ->
  load_included_file acc p w
  = match index_all p (declared doc) (_plugin_file_map (self w)) with
    | (idx, None) => (Ok (acc ++ [doc]), with_index w idx)
    | (idx, Some (k, f)) => (Raise DuplicatePluginName, stopped w idx k f)
    end.
Proof.
  intros Hdoc Hidx. unfold load_included_file, try_except.
  unfold bind at 1. rewrite (read_yaml_holds p doc w Hdoc).
  unfold bind at 1. rewrite (index_file_run p doc w Hidx).
  destruct Hidx as [items [_ [_ [_ [_ Hnamed]]]]].
  rewrite (index_occurrences_run p (declared doc) w Hnamed).
  destruct (index_all p (declared doc) (_plugin_file_map (self w))) as [idx [[k f]|]];
    reflexivity.
Qed.

Lemma load_included_files_run (paths : list path) (docs acc : list value) (w : world) :
  Forall2 (holds (disk w)) paths docs -> Forall indexable docs ->
  fold_each paths acc load_included_file w
  = match index_files (combine paths docs) (_plugin_file_map (self w)) with
    | (idx, None) => (Ok (acc ++ docs), with_index w idx)
    | (idx, Some (k, f)) => (Raise DuplicatePluginName, stopped w idx k f)
    end.
Proof.
  revert docs acc w.
  induction paths as [|p rest IH]; intros docs acc w F Hall;
    inversion F as [|? doc ? docs' Hd F']; subst.
  - cbn [fold_each combine index_files]. unfold ret.
    now rewrite app_nil_r, with_index_self.
  - inversion Hall as [|? ? Hi Hall']; subst.
    cbn [fold_each combine index_files]. unfold bind.
    rewrite (load_included_file_run acc p doc w Hd Hi).
    destruct (index_all p (declared doc) (_plugin_file_map (self w))) as [idx [[k f]|]].
    + reflexivity.
    + rewrite (IH docs' (acc ++ [doc]) (with_index w idx) F' Hall'). proj.
      rewrite <- app_assoc.
      destruct (index_files (combine rest docs') idx) as [idx' [[k f]|]]; reflexivity.
Qed.

Lemma bind_run {A B} (m : M A) (k : A -> M B) (w : world) (a : A) (w1 : world) :
  m w = (Ok a, w1) -> bind m k w = k a w1.
Proof. intros H. unfold bind. now rewrite H. Qed.

Lemma meltano_read (w : world) (doc : value) :
  _meltano (self w) = None_ ->
  holds (disk w) (_meltano_file_path (self w)) doc ->
  meltano w = (Ok doc, with_meltano w doc).
Proof.
  intros Hc Hroot. unfold meltano.
  rewrite (bind_run get_self _ w (self w) w eq_refl). rewrite Hc.
  unfold None_. cbv iota.
  rewrite (bind_run _ _ w doc w (read_yaml_holds _ doc w Hroot)).
  reflexivity.
Qed.

Lemma include_paths_read (w : world) (m : list (string * value)) (pats : list string) :
  _meltano (self w) = None_ ->
  holds (disk w) (_meltano_file_path (self w)) (Dict m) ->
  iterate (match get (Dict m) "include_paths" (Seq []) with
           | Ok v => v
           | Raise _ => Seq []
           end) = Ok (map Str pats) ->
  Forall (fun pat => accepts (disk w) (root (self w)) pat = true) pats ->
  find (invalid (disk w)) (expansions (disk w) (root (self w)) pats) = None ->
  include_paths w
  = (Ok (fromkeys (gathered (disk w) (root (self w)) (_meltano_file_path (self w)) pats [])),
     with_meltano w (Dict m)).
Proof.
  intros Hc Hroot Hiter Hacc Hvalid. unfold include_paths.
  rewrite (bind_run _ _ w (Dict m) _ (meltano_read w (Dict m) Hc Hroot)).
  cbn [get] in *. rewrite bind_lift.
  rewrite (@resolve_include_paths_iter _ pats (with_meltano w (Dict m)) Hiter Hacc). proj.
  now rewrite Hvalid.
Qed.

Lemma load_run (w0 : world) (m : list (string * value)) (pats : list string) :
  holds (disk w0) (_meltano_file_path (self w0)) (Dict m) ->
  iterate (match get (Dict m) "include_paths" (Seq []) with
           | Ok v => v
           | Raise _ => Seq []
           end) = Ok (map Str pats) ->
  Forall (fun pat => accepts (disk w0) (root (self w0)) pat = true) pats ->
  find (invalid (disk w0)) (expansions (disk w0) (root (self w0)) pats) = None ->
  load w0
  = bind (fold_each (fromkeys (gathered (disk w0) (root (self w0))
                                        (_meltano_file_path (self w0)) pats []))
                    [] load_included_file)
         (fun included_file_contents =>
            bind meltano (fun doc => lift (deep_merge doc included_file_contents)))
         (mkWorld (mkProjectFiles (root (self w0)) (Dict m) (_meltano_file_path (self w0)) [])
                  (disk w0) (logged w0)).
Proof.
  intros Hroot Hiter Hacc Hvalid.
  unfold load.
  rewrite (bind_run reset_cache _ w0 tt (with_meltano w0 None_) eq_refl).
  unfold _load_included_files.
  set (w1 := with_index (with_meltano w0 None_) []).
  assert (E : forall k : list value -> M value,
             bind (bind (set_plugin_file_map [])
                        (fun _ => bind include_paths
                                       (fun paths => fold_each paths [] load_included_file))) k
                  (with_meltano w0 None_)
             = bind (bind include_paths
                          (fun paths => fold_each paths [] load_included_file)) k w1).
  { intros k. reflexivity. }
  rewrite E. clear E.
  pose proof (include_paths_read w1 m pats eq_refl Hroot Hiter Hacc Hvalid) as Hp.
  unfold bind at 1. rewrite (bind_run _ _ w1 _ _ Hp). reflexivity.
Qed.

Lemma index_all_origin (p : path) (os : list occurrence) (idx0 idx : index)
      (stop : option (entity_key * string)) :
  index_all p os idx0 = (idx, stop) ->
  (forall k f, In (k, f) idx ->
               In (k, f) idx0
               \/ (f = p /\ In k (flat_map (fun o => match entity_key_of o with
                                                     | Some k => [k]
                                                     | None => []
                                                     end) os)))
  /\ match stop with
     | Some (k, f) =>
         index_get idx k = Some f
         /\ In k (flat_map (fun o => match entity_key_of o with
                                     | Some k => [k]
                                     | None => []
                                     end) os)
     | None => True
     end.
Proof.
  revert idx0. induction os as [|o rest IH]; intros idx0 H; cbn [index_all] in H.
  - inversion H; subst. split; auto.
  - cbn [flat_map]. destruct (entity_key_of o) as [k0|] eqn:Ek.
    + destruct (index_get idx0 k0) as [f0|] eqn:Eg.
      * inversion H; subst. split; auto. split; auto. apply in_or_app. left. now left.
      * destruct (IH _ H) as [Horigin Hstop]. split.
        -- intros k f Hin. destruct (Horigin k f Hin) as [Hi|[-> Hi]].
           ++ apply in_app_or in Hi. destruct Hi as [Hi|[[= <- <-]|[]]]; auto.
              right. split; auto. apply in_or_app. left. now left.
           ++ right. split; auto. apply in_or_app. now right.
        -- destruct stop as [[k f]|]; auto. destruct Hstop as [Hg Hi].
           split; auto. apply in_or_app. now right.
    + inversion H; subst. split; auto.
Qed.

Lemma index_files_origin (files : list (path * value)) (idx0 idx : index)
      (stop : option (entity_key * string)) :
  index_files files idx0 = (idx, stop) ->
  (forall k f, In (k, f) idx ->
               In (k, f) idx0
               \/ exists doc, In (f, doc) files /\ In k (keys_declared doc))
  /\ match stop with
     | Some (k, f) =>
         index_get idx k = Some f
         /\ exists p doc, In (p, doc) files /\ In k (keys_declared doc)
     | None => True
     end.
Proof.
  revert idx0. induction files as [|[p doc] rest IH]; intros idx0 H; cbn [index_files] in H.
  - inversion H; subst. split; auto.
  - destruct (index_all p (declared doc) idx0) as [idx1 stop1] eqn:E1.
    destruct (index_all_origin p (declared doc) idx0 idx1 stop1 E1) as [Ho1 Hs1].
    destruct stop1 as [[k1 f1]|].
    + inversion H; subst. split.
      * intros k f Hin. destruct (Ho1 k f Hin) as [Hi|[-> Hi]]; auto.
        right. exists doc. split; auto. now left.
      * destruct Hs1 as [Hg Hi]. split; auto. exists p, doc. split; auto. now left.
    + destruct (IH _ H) as [Ho Hs]. split.
      * intros k f Hin. destruct (Ho k f Hin) as [Hi|[d [Hd Hk]]].
        -- destruct (Ho1 k f Hi) as [Hi0|[-> Hi0]]; auto.
           right. exists doc. split; auto. now left.
        -- right. exists d. split; auto. now right.
      * destruct stop as [[k f]|]; auto. destruct Hs as [Hg [p' [d [Hd Hk]]]].
        split; auto. exists p', d. split; auto. now right.
Qed.

Lemma map_fst_combine_ {A B} (l : list A) (l' : list B) :
  List.length l = List.length l' -> map fst (combine l l') = l.
Proof.
  revert l'. induction l as [|x rest IH]; intros [|y rest'] H; simpl in *;
    try discriminate; auto.
  f_equal. apply IH. now inversion H.
Qed.

Lemma index_all_stop (p : path) (os : list occurrence) (idx0 idx : index)
      (k : entity_key) (f : string) :
  index_all p os idx0 = (idx, Some (k, f)) ->
  In k (map fst (index_entries p os))
  /\ (index_get idx0 k = Some f
      \/ (index_get idx0 k = None /\ f = p /\ repeated k (map fst (index_entries p os)))).
Proof.
  revert idx0. induction os as [|o rest IH]; intros idx0 H; cbn [index_all] in H.
  - discriminate.
  - unfold index_entries in *. cbn [flat_map].
    destruct (entity_key_of o) as [k0|] eqn:Ek; [|discriminate].
    cbn [app map fst].
    destruct (index_get idx0 k0) as [f0|] eqn:Eg.
    + inversion H; subst. split; [now left | now left].
    + destruct (IH _ H) as [Hin Hcase]. split; [now right|].
      rewrite index_get_app in Hcase. cbn [index_get] in Hcase.
      destruct (index_get idx0 k) as [f'|] eqn:Ek0.
      * destruct Hcase as [E|[E _]]; [now left | discriminate].
      * right. split; [reflexivity|].
        destruct (key_eqb k k0) eqn:Ekk.
        -- apply key_eqb_eq in Ekk. subst k0.
           destruct Hcase as [[= ->]|[E _]]; [|discriminate].
           split; [reflexivity|].
           destruct (in_split _ _ Hin) as [l2 [l3 E]].
           exists [], l2, l3. cbn [app]. now rewrite E.
        -- destruct Hcase as [E|[_ [-> [l1 [l2 [l3 E]]]]]]; [discriminate|].
           split; [reflexivity|]. exists (k0 :: l1), l2, l3. cbn [app]. now rewrite E.
Qed.

Lemma index_all_through (p : path) (os : list occurrence) (idx0 idx : index) :
  index_all p os idx0 = (idx, None) ->
  Forall (fun o => exists k, entity_key_of o = Some k) os ->
  forall k,
    index_get idx k
    = match index_get idx0 k with
      | Some f => Some f
      | None => index_get (index_entries p os) k
      end.
Proof.
  revert idx0. induction os as [|o rest IH]; intros idx0 H Hk k; cbn [index_all] in H.
  - inversion H; subst. cbn. destruct (index_get idx k); reflexivity.
  - inversion Hk as [|? ? [k0 Ek] Hk']; subst. unfold index_entries in *.
    cbn [flat_map]. rewrite Ek in *. cbn [app index_get].
    destruct (index_get idx0 k0) as [f0|] eqn:Eg; [discriminate|].
    rewrite (IH _ H Hk' k), index_get_app. cbn [index_get].
    destruct (index_get idx0 k) as [f'|] eqn:E0; [reflexivity|].
    destruct (key_eqb k k0); reflexivity.
Qed.

Lemma index_get_entries (p : path) (os : list occurrence) (k : entity_key) :
  match index_get (index_entries p os) k with
  | Some f => f = p /\ In k (map fst (index_entries p os))
  | None => ~ In k (map fst (index_entries p os))
  end.
Proof.
  destruct (index_get (index_entries p os) k) as [f|] eqn:E.
  - split.
    + apply index_get_Some_In, In_index_entries in E. now destruct E as [-> _].
    + apply index_get_Some_In in E. change k with (fst (k, f)). now apply in_map.
  - now apply index_get_None.
Qed.

(** Where indexing stops, starting from an empty index: the file the index
    has for the key is the first of the list that declares it, and the key
    is declared once more, later in that file or in a file after it. *)
Lemma index_files_stop (files : list (path * value)) (idx0 idx : index)
      (k : entity_key) (f : string) :
  index_files files idx0 = (idx, Some (k, f)) ->
  Forall (fun pd => Forall (fun o => exists k, entity_key_of o = Some k) (declared (snd pd)))
         files ->
  (index_get idx0 k = Some f
   /\ exists p doc, In (p, doc) files /\ In k (keys_declared doc))
  \/ (index_get idx0 k = None
      /\ exists before doc1 after,
           files = before ++ (f, doc1) :: after
           /\ (forall p doc, In (p, doc) before -> ~ In k (keys_declared doc))
           /\ In k (keys_declared doc1)
           /\ (repeated k (keys_declared doc1)
               \/ exists second doc2,
                    In (second, doc2) after /\ In k (keys_declared doc2))).
Proof.
  revert idx0. induction files as [|[p doc] rest IH]; intros idx0 H Hk;
    cbn [index_files] in H; [discriminate|].
  inversion Hk as [|? ? Hdoc Hrest]; subst. cbn [snd] in Hdoc.
  assert (Ekeys : map fst (index_entries p (declared doc)) = keys_declared doc).
  { apply map_fst_index_entries. }
  destruct (index_all p (declared doc) idx0) as [idx1 [[k1 f1]|]] eqn:E1.
  - inversion H; subst. apply index_all_stop in E1. rewrite Ekeys in E1.
    destruct E1 as [Hin [Hold|[Hnone [-> Htwice]]]].
    + left. split; [exact Hold|]. exists p, doc. split; [now left | exact Hin].
    + right. split; [exact Hnone|]. exists [], doc, rest.
      split; [reflexivity|]. split; [intros ? ? []|]. split; [exact Hin | now left].
  - pose proof (index_all_through _ _ _ _ E1 Hdoc k) as Hget.
    pose proof (index_get_entries p (declared doc) k) as Hent. rewrite Ekeys in Hent.
    destruct (IH _ H Hrest) as [[Hold [p2 [doc2 [Hin2 Hk2]]]]|[Hnone Hdec]].
    + rewrite Hget in Hold. destruct (index_get idx0 k) as [f'|] eqn:E0.
      * left. split; [exact Hold|]. exists p2, doc2. split; [now right | exact Hk2].
      * right. split; [reflexivity|]. rewrite Hold in Hent. destruct Hent as [-> Hin].
        exists [], doc, rest.
        split; [reflexivity|]. split; [intros ? ? []|]. split; [exact Hin|].
        right. exists p2, doc2. auto.
    + rewrite Hget in Hnone. destruct (index_get idx0 k) as [f'|] eqn:E0; [discriminate|].
      rewrite Hnone in Hent.
      right. split; [reflexivity|].
      destruct Hdec as [before [doc1 [after [-> [Hbefore [Hin1 Hmore]]]]]].
      exists ((p, doc) :: before), doc1, after.
      split; [reflexivity|]. split; [|split; [exact Hin1 | exact Hmore]].
      intros p' doc' [[= <- <-]|Hin']; [exact Hent | now apply (Hbefore p')].
Qed.

Lemma NoDup_flat_map_apart {A B} (g : A -> list B) (l : list A) (a b : A) (k : B) :
  NoDup (flat_map g l) -> In a l -> In b l -> a <> b -> In k (g a) -> In k (g b) -> False.
Proof.
  induction l as [|x rest IH]; cbn [flat_map]; intros N Ha Hb Hne Hka Hkb; [destruct Ha|].
  assert (Hin : forall y, In y rest -> In k (g y) -> In k (flat_map g rest)).
  { intros y Hy Hk. apply in_flat_map. eauto. }
  assert (Hdisj : In k (g x) -> In k (flat_map g rest) -> False).
  { clear - N. revert N. generalize (flat_map g rest) as r. induction (g x) as [|y ys IHy];
      intros r N H1 H2; [destruct H1|].
    cbn [app] in N. inversion N; subst. destruct H1 as [->|H1].
    - apply H3. apply in_or_app. now right.
    - now apply (IHy r). }
  assert (Nrest : NoDup (flat_map g rest)).
  { clear - N. induction (g x) as [|y ys IHy]; auto. inversion N; auto. }
  destruct Ha as [->|Ha], Hb as [->|Hb].
  - congruence.
  - apply Hdisj; eauto.
  - apply Hdisj; eauto.
  - now apply IH.
Qed.

Lemma map_fst_files_index_combine (paths : list path) (docs : list value) :
  map fst (files_index paths docs)
  = flat_map (fun pd => keys_declared (snd pd)) (combine paths docs).
Proof.
  unfold files_index. induction (combine paths docs) as [|[p doc] rest IH];
    cbn [flat_map map]; auto.
  rewrite map_app, map_fst_index_entries, IH. reflexivity.
Qed.

(** C5 (as amended). With patterns [Path.glob] takes and well-formed include
    files, two of which declare a record with the same key, [load] raises the
    bare [Exception("Duplicate plugin name found.")], which carries neither
    key nor path; one record is logged before, with a key and the file the
    index has for it.  That file is the first of the include list to declare
    the key (no file before it does), and the key is declared once more,
    later in the same file or in a file after it; the index still has the
    first file for the key, and no file was written. *)
Theorem duplicate_across_includes
        (w0 : world) (m : list (string * value)) (pats : list string) (docs : list value)
        (f1 f2 : path) (d1 d2 : value) (k : entity_key) :
  let paths := fromkeys (gathered (disk w0) (root (self w0)) (_meltano_file_path (self w0))
                                  pats []) in
  holds (disk w0) (_meltano_file_path (self w0)) (Dict m) ->
  iterate (match get (Dict m) "include_paths" (Seq []) with
           | Ok v => v
           | Raise _ => Seq []
           end) = Ok (map Str pats) ->
  Forall (fun pat => accepts (disk w0) (root (self w0)) pat = true) pats ->
  find (invalid (disk w0)) (expansions (disk w0) (root (self w0)) pats) = None ->
  Forall2 (holds (disk w0)) paths docs ->
  Forall indexable docs ->
  In (f1, d1) (combine paths docs) ->
  In (f2, d2) (combine paths docs) ->
  f1 <> f2 ->
  In k (keys_declared d1) ->
  In k (keys_declared d2) ->
  exists w' duplicate first,
    load w0 = (Raise DuplicatePluginName, w')
    /\ paths_in_exn DuplicatePluginName = []
    /\ logged w' = logged w0 ++ [AlreadyAddedLogged (key_path_string duplicate) first]
    /\ index_get (_plugin_file_map (self w')) duplicate = Some first
    /\ (exists before doc after,
          combine paths docs = before ++ (first, doc) :: after
          /\ (forall p d, In (p, d) before -> ~ In duplicate (keys_declared d))
          /\ In duplicate (keys_declared doc)
          /\ (repeated duplicate (keys_declared doc)
              \/ exists second doc', In (second, doc') after
                                     /\ second <> first
                                     /\ In duplicate (keys_declared doc')))
    /\ disk w' = disk w0.
Proof.
  intros paths Hroot Hiter Hacc Hvalid F Hall H1 H2 Hne Hk1 Hk2.
  rewrite (load_run w0 m pats Hroot Hiter Hacc Hvalid). fold paths.
  set (w1 := mkWorld (mkProjectFiles (root (self w0)) (Dict m)
                                     (_meltano_file_path (self w0)) [])
                     (disk w0) (logged w0)).
  assert (Hloop := load_included_files_run paths docs [] w1 F Hall).
  change (_plugin_file_map (self w1)) with (@nil (entity_key * string)) in Hloop.
  destruct (index_files (combine paths docs) []) as [idx [[k' f']|]] eqn:Ei.
  - destruct (index_files_origin _ _ _ _ Ei) as [_ [Hget _]].
    exists (stopped w1 idx k' f'), k', f'.
    split; [unfold bind; now rewrite Hloop|].
    split; [reflexivity|]. split; [reflexivity|]. split; [exact Hget|].
    split; [|reflexivity].
    assert (Hkeyed : Forall (fun pd => Forall (fun o => exists k, entity_key_of o = Some k)
                                              (declared (snd pd)))
                            (combine paths docs)).
    { apply Forall_forall. intros [p d] Hpd. cbn [snd].
      apply in_combine_r in Hpd.
      destruct (proj1 (Forall_forall _ _) Hall d Hpd) as [items [_ [_ [_ [_ Hnamed]]]]].
      apply Forall_forall. intros o Ho.
      destruct (proj1 (Forall_forall _ _) Hnamed o Ho) as [name Hname].
      unfold entity_key_of. rewrite Hname. eauto. }
    destruct (index_files_stop _ _ _ _ _ Ei Hkeyed) as [[Hold _]|[_ Hstop]];
      [discriminate|].
    destruct Hstop as [before [doc [after [E [Hbefore [Hin Hmore]]]]]].
    exists before, doc, after.
    split; [exact E|]. split; [exact Hbefore|]. split; [exact Hin|].
    destruct Hmore as [Htwice|[second [doc' [Hafter Hdup]]]]; [now left|].
    right. exists second, doc'. split; [exact Hafter|]. split; [|exact Hdup].
    assert (N : NoDup (map fst (combine paths docs))).
    { rewrite (map_fst_combine_ _ _ (Forall2_length_ _ _ _ F)). unfold paths.
      rewrite fromkeys_first_occurrences. apply unseen_NoDup. }
    rewrite E, map_app in N. cbn [map fst] in N.
    apply NoDup_remove_2 in N. intros ->. apply N. apply in_or_app. right.
    change f' with (fst (f', doc')). now apply in_map.
  - exfalso. apply load_files_Ok in Hloop.
    destruct Hloop as [docs0 [Hd [_ [Hw [N _]]]]].
    cbn [app] in Hd. subst docs0. subst w1. proj.
    specialize (N (NoDup_nil _)). cbn [app] in Hw.
    assert (Hidx : idx = files_index paths docs) by (inversion Hw; reflexivity).
    rewrite Hidx in N.
    rewrite map_fst_files_index_combine in N.
    apply (NoDup_flat_map_apart _ _ (f1, d1) (f2, d2) k N); auto.
    congruence.
Qed.

(* ===================================================================== *)
(** * The round trip *)
(* ===================================================================== *)

(** ** Equality of documents *)

Lemma value_nested_ind (P : value -> Prop) :
  (forall s, P (Scalar s)) ->
  (forall m, Forall (fun kv => P (snd kv)) m -> P (Dict m)) ->
  (forall l, Forall P l -> P (Seq l)) ->
  forall v, P v.
Proof.
  intros Hs Hd Hl.
  fix IH 1. intros [s|m|l].
  - apply Hs.
  - apply Hd. induction m as [|[k x] rest IHm]; constructor; [apply IH | exact IHm].
  - apply Hl. induction l as [|x rest IHl]; constructor; [apply IH | exact IHl].
Qed.

Lemma wf_Dict (m : list (string * value)) :
  wf (Dict m) <-> NoDup (keys m) /\ Forall (fun kv => wf (snd kv)) m.
Proof.
  cbn [wf]. split; intros [N H]; split; auto.
  - induction m as [|[k x] rest IH]; constructor.
    + apply H.
    + apply IH; [now inversion N | apply H].
  - clear N. induction H as [|[k x] rest Hx H IH]; auto.
Qed.

Lemma wf_Seq (l : list value) : wf (Seq l) <-> Forall wf l.
Proof.
  cbn [wf]. split; intros H.
  - induction l as [|x rest IH]; constructor; [apply H | apply IH, H].
  - induction H as [|x rest Hx H IH]; auto.
Qed.

Lemma py_eqb_Seq (l l' : list value) :
  py_eqb (Seq l) (Seq l') = true <-> Forall2 (fun x y => py_eqb x y = true) l l'.
Proof.
  cbn [py_eqb]. revert l'. induction l as [|x rest IH]; intros [|y rest'].
  - split; auto.
  - split; [discriminate | intros H; inversion H].
  - split; [discriminate | intros H; inversion H].
  - rewrite andb_true_iff, IH. split.
    + intros [H1 H2]. now constructor.
    + intros H. inversion H; subst. auto.
Qed.

Lemma py_eqb_Dict (m m' : list (string * value)) :
  py_eqb (Dict m) (Dict m') = true <->
  List.length m = List.length m'
  /\ Forall (fun kv => exists v', lookup (fst kv) m' = Some v'
                                  /\ py_eqb (snd kv) v' = true) m.
Proof.
  cbn [py_eqb]. rewrite andb_true_iff, Nat.eqb_eq.
  assert (G : forall l,
             (fix each (m : list (string * value)) : bool :=
                match m with
                | [] => true
                | (k, v) :: rest =>
                    match lookup k m' with
                    | Some v' => py_eqb v v'
                    | None => false
                    end && each rest
                end) l = true
             <-> Forall (fun kv => exists v', lookup (fst kv) m' = Some v'
                                              /\ py_eqb (snd kv) v' = true) l).
  { induction l as [|[k v] rest IH].
    - split; auto.
    - rewrite andb_true_iff, IH. cbn [fst snd]. split.
      + intros [H1 H2]. constructor; auto. cbn [fst snd].
        destruct (lookup k m') as [v'|]; [eauto | discriminate].
      + intros H. inversion H as [|? ? [v' [Hl He]] H']; subst. cbn [fst snd] in *.
        rewrite Hl. auto. }
  rewrite G. tauto.
Qed.

Lemma py_eqb_refl (v : value) : wf v -> py_eqb v v = true.
Proof.
  induction v as [s|m IH|l IH] using value_nested_ind; intros Hwf.
  - destruct s as [|z|s]; cbn; auto using Z.eqb_refl, String.eqb_refl.
  - apply wf_Dict in Hwf. destruct Hwf as [N Hall].
    apply py_eqb_Dict. split; auto.
    rewrite Forall_forall in *. intros [k x] Hin. cbn [fst snd].
    exists x. split.
    + now apply In_lookup_NoDup.
    + apply (IH _ Hin). apply (Hall _ Hin).
  - apply wf_Seq in Hwf. apply py_eqb_Seq.
    induction l as [|x rest IHl]; constructor.
    + inversion IH; inversion Hwf; subst. auto.
    + inversion IH; inversion Hwf; subst. auto.
Qed.

Lemma same_keys_length (a b : list (string * value)) :
  NoDup (keys a) -> NoDup (keys b) ->
  (forall k, In k (keys a) <-> In k (keys b)) ->
  List.length a = List.length b.
Proof.
  intros Na Nb H. rewrite <- (length_map fst a), <- (length_map fst b).
  apply Nat.le_antisymm; apply NoDup_incl_length; auto; intros k Hk; now apply H.
Qed.

Lemma lookup_Some_keys (m : list (string * value)) (k : string) :
  In k (keys m) <-> exists v, lookup k m = Some v.
Proof.
  destruct (lookup k m) as [v|] eqn:E.
  - split; [eauto|]. intros _. apply lookup_Some_In in E.
    change k with (fst (k, v)). now apply in_map.
  - apply lookup_None_keys in E. split; [tauto|]. intros [v Hv]. discriminate.
Qed.

(** Mappings with the same keys and, under each, equal values, are equal. *)
Lemma py_eqb_lookups (a b : list (string * value)) :
  NoDup (keys a) -> NoDup (keys b) ->
  (forall k, match lookup k a, lookup k b with
             | Some x, Some y => py_eqb x y = true
             | None, None => True
             | _, _ => False
             end) ->
  py_eqb (Dict a) (Dict b) = true.
Proof.
  intros Na Nb H. apply py_eqb_Dict. split.
  - apply same_keys_length; auto. intros k. rewrite !lookup_Some_keys.
    specialize (H k). destruct (lookup k a) as [x|], (lookup k b) as [y|];
      try contradiction; split; intros [z Hz]; try discriminate; eauto.
  - apply Forall_forall. intros [k x] Hin. cbn [fst snd].
    specialize (H k). rewrite (In_lookup_NoDup _ _ _ Na Hin) in H.
    destruct (lookup k b) as [y|]; [eauto | contradiction].
Qed.

(** ** The merge keeps documents in order *)

Lemma wf_lookup (m : list (string * value)) (k : string) (x : value) :
  wf (Dict m) -> lookup k m = Some x -> wf x.
Proof.
  intros H Hl. apply wf_Dict in H. destruct H as [_ H]. rewrite Forall_forall in H.
  apply lookup_Some_In in Hl. apply (H _ Hl).
Qed.

Lemma Forall_assign (P : string * value -> Prop) (m : list (string * value)) (k : string)
      (x : value) :
  Forall P m -> (forall k', P (k', x)) -> Forall P (assign k x m).
Proof.
  intros H Hx. induction H as [|[k0 v0] rest H0 H IH]; cbn [assign].
  - constructor; auto.
  - destruct (String.eqb k k0); constructor; auto.
Qed.





Lemma merge_items_NoDup (items : list (string * value)) (b : list (string * value))
      (r : value) :
  foldM (fun base kv => merge_entry merge_child (fst kv) (snd kv) base) items (Dict b) = Ok r ->
  exists b', r = Dict b' /\ (NoDup (keys b) -> NoDup (keys b')).
Proof.
  revert b. induction items as [|[key v] rest IH]; intros b H; cbn [foldM] in H.
  - inversion H; subst. eauto.
  - inv_bind H as base1 Hstep. cbn [fst snd] in Hstep.
    rewrite merge_entry_Dict in Hstep. inv_bind Hstep as x Hx.
    inversion Hstep; subst base1.
    destruct (IH _ H) as [b' [-> N]]. exists b'. split; auto.
    intros Nb. apply N. now apply NoDup_keys_assign.
Qed.

Lemma deep_merge_NoDup (children : list value) (b : list (string * value)) (r : value) :
  Forall is_dict children ->
  deep_merge (Dict b) children = Ok r ->
  exists b', r = Dict b' /\ (NoDup (keys b) -> NoDup (keys b')).
Proof.
  intros F. revert b. induction F as [|c rest [items ->] F IH]; intros b H;
    cbn [deep_merge] in H.
  - inversion H; subst. eauto.
  - inv_bind H as base1 Hstep. rewrite merge_child_unfold in Hstep.
    destruct (merge_items_NoDup _ _ _ Hstep) as [b1 [-> N1]].
    destruct (IH _ H) as [b' [-> N]]. exists b'. split; auto.
Qed.

Lemma well_keyed_is_dict (children : list value) :
  Forall well_keyed children -> Forall is_dict children.
Proof.
  intros F. eapply Forall_impl; [|exact F]. intros c [items [-> _]]. now exists items.
Qed.




Lemma same_lookups_nil : same_lookups [] [].
Proof. repeat split; constructor. Qed.



Lemma same_lookups_py_eqb (p q : list (string * value)) :
  same_lookups p q -> wf (Dict q) -> py_eqb (Dict p) (Dict q) = true.
Proof.
  intros [Np [Nq E]] Hwf. apply py_eqb_lookups; auto.
  intros k. rewrite E. destruct (lookup k q) as [v|] eqn:El; auto.
  apply py_eqb_refl. exact (wf_lookup _ _ _ Hwf El).
Qed.

(** Documents that are alike are equal for Python. *)
Lemma alike_py_eqb (x y : value) : alike x y -> wf y -> py_eqb x y = true.
Proof.
  intros [a [b [-> [-> [Na [Nb [Hother Hplug]]]]]]] Hwf.
  apply py_eqb_lookups; auto. intros k.
  destruct (string_dec k "plugins") as [->|Hne].
  - unfold close in Hplug.
    destruct (lookup "plugins" a) as [[?|p|?]|], (lookup "plugins" b) as [[?|q|?]|] eqn:Eq;
      try contradiction; auto.
    apply same_lookups_py_eqb; auto. exact (wf_lookup _ _ _ Hwf Eq).
  - rewrite (Hother k Hne). destruct (lookup k b) as [v|] eqn:El; auto.
    apply py_eqb_refl. exact (wf_lookup _ _ _ Hwf El).
Qed.

(** ** The composite of tidy files *)

Lemma seq_at_seq_of (m : list (string * value)) (k : string) :
  seq_at (Dict m) k = seq_of (lookup k m).
Proof. reflexivity. Qed.

Lemma collection_ok_Seq (x : option value) :
  collection_ok x -> x = None \/ exists l, x = Some (Seq l) /\ l <> [] /\ named_records l.
Proof.
  destruct x as [[s|m|l]|]; cbn; try contradiction; auto.
  intros [H1 H2]. right. eauto.
Qed.

(** A key under which every file has a collection or nothing: the composite
    has the root's records followed by each file's. *)
Lemma merged_all_collect (k : string) (Ds : list value) (old x : option value) :
  collection_ok old ->
  Forall (fun d => exists m, d = Dict m /\ collection_ok (lookup k m)) Ds ->
  merged_all old (values_at k Ds) = Ok x ->
  collection_ok x /\ seq_of x = seq_of old ++ flat_map (fun d => seq_at d k) Ds.
Proof.
  intros Hold F. revert old Hold.
  induction F as [|d rest [m [-> Hm]] F IH]; intros old Hold H.
  - unfold values_at, merged_all in H. cbn in H. inversion H; subst.
    cbn [flat_map]. now rewrite app_nil_r.
  - unfold values_at in H. cbn [flat_map] in H. cbn [flat_map]. rewrite seq_at_seq_of.
    destruct (collection_ok_Seq _ Hm) as [E|[l [E [Hne Hn]]]]; rewrite E in *.
    + cbn [app seq_of]. now apply IH.
    + cbn [app] in H.
      unfold merged_all in H. cbn [foldM] in H. inv_bind H as y Hy.
      inv_bind Hy as z Hz. inversion Hy; subst y. clear Hy.
      assert (Hz' : z = Seq (seq_of old ++ l)).
      { destruct (collection_ok_Seq _ Hold) as [->|[l0 [-> _]]]; cbn in Hz;
          inversion Hz; reflexivity. }
      subst z.
      assert (Hok : collection_ok (Some (Seq (seq_of old ++ l)))).
      { cbn. split.
        - intros Habs. apply app_eq_nil in Habs. tauto.
        - apply Forall_app. split; auto.
          destruct (collection_ok_Seq _ Hold) as [->|[l0 [-> [_ Hl0]]]]; cbn; auto. }
      destruct (IH _ Hok H) as [Hx Hs].
      split; auto. rewrite Hs. cbn [seq_of]. now rewrite <- app_assoc.
Qed.

Lemma plugins_ok_lookup (typed : list (string * value)) (t : string) :
  plugins_ok (Some (Dict typed)) -> collection_ok (lookup t typed).
Proof.
  intros [_ [_ F]]. destruct (lookup t typed) as [v|] eqn:E; cbn; auto.
  rewrite Forall_forall in F. apply lookup_Some_In in E. apply (F _ E).
Qed.

Lemma plugins_ok_Dict (x : option value) :
  plugins_ok x ->
  exists a, match x with Some v => v | None => Dict [] end = Dict a
            /\ NoDup (keys a) /\ forall t, collection_ok (lookup t a).
Proof.
  destruct x as [[s|typed|l]|]; cbn; try contradiction.
  - intros H. exists typed. split; auto. split; [apply H|].
    intros t. now apply plugins_ok_lookup.
  - intros _. exists []. split; auto. split; [constructor | intros t; exact I].
Qed.

Lemma flat_map_plugins (t : string) (Ds : list value) :
  Forall is_dict Ds ->
  flat_map (fun d => seq_at (dict_at d "plugins") t) Ds
  = flat_map (fun v => seq_at v t) (values_at "plugins" Ds).
Proof.
  unfold values_at. induction 1 as [|d rest [m ->] F IH]; cbn [flat_map]; auto.
  rewrite flat_map_app, IH. cbn [dict_at].
  destruct (lookup "plugins" m) as [v|]; cbn [flat_map]; [now rewrite app_nil_r | reflexivity].
Qed.

(** The same for [plugins], type by type. *)
Lemma merged_all_plugins (Ds : list value) (old x : option value) :
  plugins_ok old ->
  Forall (fun d => exists m, d = Dict m /\ plugins_ok (lookup "plugins" m)) Ds ->
  merged_all old (values_at "plugins" Ds) = Ok x ->
  plugins_ok x
  /\ forall t,
      seq_at (match x with Some v => v | None => Dict [] end) t
      = seq_at (match old with Some v => v | None => Dict [] end) t
        ++ flat_map (fun d => seq_at (dict_at d "plugins") t) Ds.
Proof.
  intros Hold F H.
  assert (Fd : Forall is_dict Ds).
  { eapply Forall_impl; [|exact F]. intros d [m [-> _]]. now exists m. }
  assert (Fv : Forall (fun v => plugins_ok (Some v)) (values_at "plugins" Ds)).
  { clear - F. unfold values_at. induction F as [|d rest [m [-> Hm]] F IH]; cbn [flat_map].
    - constructor.
    - apply Forall_app. split; auto.
      destruct (lookup "plugins" m) as [v|]; repeat constructor. exact Hm. }
  assert (Hflat : forall t, flat_map (fun d => seq_at (dict_at d "plugins") t) Ds
                            = flat_map (fun v => seq_at v t) (values_at "plugins" Ds)).
  { intros t. now apply flat_map_plugins. }
  destruct (values_at "plugins" Ds) as [|v vs] eqn:Ev.
  - unfold merged_all in H. cbn in H. inversion H; subst. split; auto.
    intros t. rewrite Hflat. cbn. now rewrite app_nil_r.
  - assert (Fvd : Forall is_dict (v :: vs)).
    { eapply Forall_impl; [|exact Fv]. intros y Hy. cbn in Hy.
      destruct y as [?|m|?]; try contradiction. now exists m. }
    assert (Wk : Forall well_keyed (v :: vs)).
    { eapply Forall_impl; [|exact Fv]. intros y Hy. cbn in Hy.
      destruct y as [?|m|?]; try contradiction. exists m. split; auto. apply Hy. }
    apply merged_all_dict in H; [|exact Fvd|discriminate].
    destruct H as [node [-> Hnode]].
    destruct (plugins_ok_Dict _ Hold) as [a0 [Ea [Na Hca]]]. rewrite Ea in *.
    destruct (deep_merge_NoDup _ _ _ Fvd Hnode) as [p [-> Np]].
    apply deep_merge_key in Hnode; [|exact Wk]. destruct Hnode as [p0 [E Hkey]].
    inversion E; subst p0. clear E.
    assert (Hcollect : forall t,
               collection_ok (lookup t p)
               /\ seq_of (lookup t p)
                  = seq_of (lookup t a0) ++ flat_map (fun d => seq_at d t) (v :: vs)).
    { intros t. apply merged_all_collect with (x := lookup t p); auto.
      eapply Forall_impl; [|exact Fv]. intros y Hy.
      destruct y as [?|m|?]; try (cbn in Hy; contradiction).
      exists m. split; auto. now apply plugins_ok_lookup. }
    split.
    + cbn. split; [|split; [auto|]].
      * (* the first mapping brought has a type, with records *)
        inversion Fv as [|? ? Hv _]; subst. destruct v as [?|m|?]; try (cbn in Hv; contradiction).
        destruct Hv as [Hne [Nm Hall]]. destruct m as [|[t0 x0] m']; [congruence|].
        inversion Hall as [|? ? Hx0 _]; subst. cbn [snd] in Hx0.
        destruct (collection_ok_Seq _ Hx0) as [E|[l0 [E [Hl0 _]]]]; [discriminate|].
        inversion E; subst x0.
        destruct (Hcollect t0) as [_ Hs]. cbn [flat_map seq_at lookup] in Hs.
        rewrite String.eqb_refl in Hs.
        intros ->. cbn in Hs. destruct (seq_of (lookup t0 a0)); destruct l0; try congruence;
          discriminate.
      * apply Forall_forall. intros [t y] Hin. cbn [snd].
        pose proof (In_lookup_NoDup _ _ _ (Np Na) Hin) as El.
        destruct (Hcollect t) as [Hc _]. now rewrite El in Hc.
    + intros t. rewrite Hflat, !seq_at_seq_of. apply Hcollect.
Qed.

Lemma tidy_well_keyed (Ds : list value) : Forall tidy Ds -> Forall well_keyed Ds.
Proof.
  intros F. eapply Forall_impl; [|exact F]. intros d [m [-> [N _]]]. exists m. auto.
Qed.

(** The composite of tidy files is tidy, and each of its collections has
    the root's records followed by the records of each file. *)
Lemma merge_tidy (R : value) (Ds : list value) (C : value) :
  tidy R -> Forall tidy Ds ->
  deep_merge R Ds = Ok C ->
  tidy C
  /\ forall c, entities_at C c = entities_at R c ++ flat_map (fun d => entities_at d c) Ds.
Proof.
  intros [a [-> [Na [Hp [Hs He]]]]] F H.
  pose proof (tidy_well_keyed Ds F) as Wk.
  destruct (deep_merge_NoDup Ds a C (well_keyed_is_dict Ds Wk) H) as [c [-> Nc]].
  apply deep_merge_key in H; [|exact Wk]. destruct H as [c0 [E Hkey]].
  inversion E; subst c0. clear E.
  assert (Fp : Forall (fun d => exists m, d = Dict m /\ plugins_ok (lookup "plugins" m)) Ds).
  { eapply Forall_impl; [|exact F]. intros d [m [-> [_ [H1 _]]]]. eauto. }
  assert (Fs : Forall (fun d => exists m, d = Dict m
                                          /\ collection_ok (lookup "schedules" m)) Ds).
  { eapply Forall_impl; [|exact F]. intros d [m [-> [_ [_ [H1 _]]]]]. eauto. }
  assert (Fe : Forall (fun d => exists m, d = Dict m
                                          /\ collection_ok (lookup "environments" m)) Ds).
  { eapply Forall_impl; [|exact F]. intros d [m [-> [_ [_ [_ H1]]]]]. eauto. }
  destruct (merged_all_plugins Ds _ _ Hp Fp (Hkey "plugins")) as [Hp' Hpl].
  destruct (merged_all_collect "schedules" Ds _ _ Hs Fs (Hkey "schedules")) as [Hs' Hsl].
  destruct (merged_all_collect "environments" Ds _ _ He Fe (Hkey "environments"))
    as [He' Hel].
  split.
  - exists c. repeat split; auto.
  - intros [t| |]; cbn [entities_at].
    + apply Hpl.
    + rewrite !seq_at_seq_of. exact Hsl.
    + rewrite !seq_at_seq_of. exact Hel.
Qed.

Lemma values_at_none (k : string) (Ds : list value) :
  Forall (fun d => exists m, d = Dict m /\ lookup k m = None) Ds -> values_at k Ds = [].
Proof.
  unfold values_at. induction 1 as [|d rest [m [-> E]] F IH]; cbn [flat_map]; auto.
  now rewrite E, IH.
Qed.

(** A key no include file has keeps the root's value. *)
Lemma merge_other_key (a : list (string * value)) (Ds : list value)
      (c : list (string * value)) (k : string) :
  Forall well_keyed Ds ->
  Forall (fun d => exists m, d = Dict m /\ lookup k m = None) Ds ->
  deep_merge (Dict a) Ds = Ok (Dict c) ->
  lookup k c = lookup k a.
Proof.
  intros Wk Hnone H. apply deep_merge_key in H; [|exact Wk].
  destruct H as [c0 [E Hkey]]. inversion E; subst c0. specialize (Hkey k).
  rewrite (values_at_none k Ds Hnone) in Hkey. unfold merged_all in Hkey. cbn in Hkey.
  congruence.
Qed.

(** ** The split goes through on tidy input *)

Lemma names_in_total (l : list value) :
  Forall (fun e => exists n, name_of e = Some n) l -> exists names, names_in (Seq l) = Ok names.
Proof.
  unfold names_in. cbn [iterate rbind]. intros F.
  assert (G : forall acc : list scalar,
             exists names,
               foldM (fun names x => rbind (getitem x "name") (fun name =>
                        rbind (hash name) (fun name => Ok (names ++ [name])))) l acc
               = Ok names).
  { induction F as [|e rest [n Hn] F IH]; intros acc; cbn [foldM].
    - eauto.
    - apply name_of_getitem in Hn. rewrite Hn. cbn [rbind hash]. apply IH. }
  apply G.
Qed.

Lemma named_records_names (l : list value) :
  named_records l -> Forall (fun e => exists n, name_of e = Some n) l.
Proof.
  intros F. eapply Forall_impl; [|exact F]. intros e [s Hs]. eauto.
Qed.

Lemma add_if_new_ok (l : list value) (e : value) :
  named_records l -> (exists s, name_of e = Some s) ->
  collection_ok (Some (Seq (add_if_new l e))).
Proof.
  intros Hl [s Hs]. unfold add_if_new. rewrite Hs. cbn.
  destruct (existsb (has_name s) l) eqn:E.
  - split; auto. intros ->. discriminate.
  - split.
    + intros Habs. apply app_eq_nil in Habs. destruct Habs. discriminate.
    + apply Forall_app. split; auto. constructor; eauto.
Qed.

(** [add_unique] on a mapping whose collection is in order. *)
Lemma add_unique_run (m : list (string * value)) (coll : string) (e : value) :
  collection_ok (lookup coll m) -> (exists s, name_of e = Some s) ->
  add_unique (Dict m) coll e
  = Ok (Dict (assign coll (Seq (add_if_new (seq_of (lookup coll m)) e)) m)).
Proof.
  intros Hc [s Hs].
  assert (Hl : named_records (seq_of (lookup coll m))).
  { destruct (collection_ok_Seq _ Hc) as [->|[l [-> [_ Hl]]]]; cbn; auto. constructor. }
  destruct (names_in_total _ (named_records_names _ Hl)) as [names Hnames].
  pose proof (names_in_Seq _ Hnames) as Hrel.
  pose proof Hs as Hget. apply name_of_getitem in Hget.
  unfold add_unique. unfold setdefault.
  assert (Hstep : forall d0,
    rbind (getitem e "name") (fun name =>
    rbind (names_in (Seq (seq_of (lookup coll m)))) (fun names =>
    rbind (hash name) (fun name =>
    rbind (if negb (existsb (scalar_eqb name) names)
           then append (Seq (seq_of (lookup coll m))) e
           else Ok (Seq (seq_of (lookup coll m)))) (fun entities =>
    setitem (Dict d0) coll entities))))
    = Ok (Dict (assign coll (Seq (add_if_new (seq_of (lookup coll m)) e)) d0))).
  { intros d0. rewrite Hget. cbn [rbind]. rewrite Hnames. cbn [rbind hash].
    rewrite (existsb_names _ Hrel). unfold add_if_new. rewrite Hs.
    destruct (existsb (has_name s) (seq_of (lookup coll m))); reflexivity. }
  destruct (collection_ok_Seq _ Hc) as [E|[l [E _]]]; rewrite E in *; cbn [rbind seq_of] in *.
  - rewrite (Hstep (assign coll (Seq []) m)). now rewrite assign_absent.
  - apply Hstep.
Qed.

Lemma tidy_empty : tidy (Dict []).
Proof. exists []. repeat split; constructor. Qed.

Lemma tidy_assign_collection (m : list (string * value)) (coll : string) (v : value) :
  tidy (Dict m) -> coll = "schedules" \/ coll = "environments" ->
  collection_ok (Some v) -> tidy (Dict (assign coll v m)).
Proof.
  intros [m0 [E [N [Hp [Hs He]]]]] Hcoll Hv. inversion E; subst m0.
  exists (assign coll v m). split; auto. split; [now apply NoDup_keys_assign|].
  rewrite !lookup_assign.
  destruct Hcoll as [-> | ->]; cbn [String.eqb Ascii.eqb Bool.eqb andb]; auto.
Qed.

Lemma tidy_assign_plugins (m : list (string * value)) (v : value) :
  tidy (Dict m) -> plugins_ok (Some v) -> tidy (Dict (assign "plugins" v m)).
Proof.
  intros [m0 [E [N [Hp [Hs He]]]]] Hv. inversion E; subst m0.
  exists (assign "plugins" v m). split; auto. split; [now apply NoDup_keys_assign|].
  rewrite !lookup_assign. cbn [String.eqb Ascii.eqb Bool.eqb andb]. auto.
Qed.

Lemma tidy_assign_other (m : list (string * value)) (k : string) (v : value) :
  tidy (Dict m) -> is_entity_key k = false -> tidy (Dict (assign k v m)).
Proof.
  intros [m0 [E [N [Hp [Hs He]]]]] Hk. inversion E; subst m0.
  unfold is_entity_key in Hk.
  apply orb_false_iff in Hk. destruct Hk as [Hk H3].
  apply orb_false_iff in Hk. destruct Hk as [H1 H2].
  rewrite String.eqb_sym in H1, H2, H3.
  exists (assign k v m). split; auto. split; [now apply NoDup_keys_assign|].
  rewrite !lookup_assign, H1, H2, H3. auto.
Qed.

Lemma groups_tidy_group (g : list (string * value)) (file : string) :
  groups_tidy (Dict g) -> exists m, dict_at (Dict g) file = Dict m /\ tidy (Dict m).
Proof.
  intros [g0 [E [N H]]]. inversion E; subst g0. cbn [dict_at].
  destruct (lookup file g) as [d|] eqn:El.
  - destruct (H _ _ El) as [m [-> Hm]]. exists m. split; auto. exists m. auto.
  - exists []. split; auto. apply tidy_empty.
Qed.

Lemma groups_tidy_assign (g : list (string * value)) (file : string) (d : value) :
  groups_tidy (Dict g) -> tidy d -> groups_tidy (Dict (assign file d g)).
Proof.
  intros [g0 [E [N H]]] Hd. inversion E; subst g0.
  exists (assign file d g). split; auto. split; [now apply NoDup_keys_assign|].
  intros f d0. rewrite lookup_assign. destruct (String.eqb f file).
  - now intros [= <-].
  - apply H.
Qed.

Lemma setdefault_run (g : list (string * value)) (key : string) (dflt : value) :
  exists d1,
    setdefault (Dict g) key dflt
    = Ok (match lookup key g with Some y => y | None => dflt end, d1)
    /\ forall v, setitem d1 key v = Ok (Dict (assign key v g)).
Proof.
  cbn [setdefault]. destruct (lookup key g) as [y|] eqn:E.
  - exists (Dict g). split; auto.
  - exists (Dict (assign key dflt g)). split; auto. intros v. cbn [setitem].
    now rewrite assign_absent.
Qed.

Lemma setting_at_assign (g m : list (string * value)) (file ck : string) (v : value)
      (f k : string) :
  dict_at (Dict g) file = Dict m -> k <> ck ->
  setting_at (Dict (assign file (Dict (assign ck v m)) g)) f k = setting_at (Dict g) f k.
Proof.
  intros Hm Hk. unfold setting_at. cbn [dict_at] in *. rewrite lookup_assign.
  destruct (String.eqb f file) eqn:E.
  - apply String.eqb_eq in E. subst f. rewrite Hm. rewrite lookup_assign.
    apply String.eqb_neq in Hk. now rewrite Hk.
  - reflexivity.
Qed.

Lemma entity_key_neq (k ck : string) :
  is_entity_key k = false -> is_entity_key ck = true -> k <> ck.
Proof. intros H1 H2 ->. congruence. Qed.

(** [_add_schedule] and [_add_environment] on tidy groups. *)
Lemma add_to_group_run (coll : string) (fd : value) (file : string) (e : value) :
  coll = "schedules" \/ coll = "environments" ->
  groups_tidy fd -> (exists s, name_of e = Some s) ->
  exists fd',
    rbind (setdefault fd file (Dict []))
          (fun '(file_dict, file_dicts) =>
             rbind (add_unique file_dict coll e) (fun file_dict =>
             setitem file_dicts file file_dict)) = Ok fd'
    /\ tidy_step fd fd'.
Proof.
  intros Hcoll Hfd He. pose proof Hfd as [g [-> _]].
  destruct (groups_tidy_group g file Hfd) as [m [Hm Hmt]].
  destruct (setdefault_run g file (Dict [])) as [d1 [Hsd Hset]].
  rewrite Hsd. cbn [rbind]. pose proof Hm as Hm'. cbn [dict_at] in Hm. rewrite Hm.
  assert (Hc : collection_ok (lookup coll m)).
  { destruct Hmt as [m0 [E [_ [_ [Hs Hen]]]]]. inversion E; subst m0.
    destruct Hcoll as [-> | ->]; auto. }
  rewrite (add_unique_run m coll e Hc He). cbn [rbind]. rewrite Hset.
  eexists. split; [reflexivity|]. split.
  - apply groups_tidy_assign; auto. apply tidy_assign_collection; auto.
    apply add_if_new_ok; auto.
    destruct (collection_ok_Seq _ Hc) as [->|[l [-> [_ Hl]]]]; cbn; auto. constructor.
  - intros f k Hk. apply setting_at_assign; auto. apply entity_key_neq; auto.
    destruct Hcoll as [-> | ->]; reflexivity.
Qed.

Lemma add_plugin_run (fd : value) (file t : string) (e : value) :
  groups_tidy fd -> (exists s, name_of e = Some s) ->
  exists fd', _add_plugin fd file t e = Ok fd' /\ tidy_step fd fd'.
Proof.
  intros Hfd He. pose proof Hfd as [g [-> _]].
  destruct (groups_tidy_group g file Hfd) as [m [Hm Hmt]].
  unfold _add_plugin.
  destruct (setdefault_run g file (Dict [])) as [d1 [Hsd Hset]].
  rewrite Hsd. cbn [rbind]. pose proof Hm as Hm'. cbn [dict_at] in Hm. rewrite Hm.
  destruct (setdefault_run m "plugins" (Dict [])) as [d2 [Hsd2 Hset2]].
  rewrite Hsd2. cbn [rbind].
  pose proof Hmt as [m0 [E [_ [Hp _]]]]. inversion E; subst m0.
  destruct (plugins_ok_Dict _ Hp) as [pm [Epm [Npm Hcpm]]]. rewrite Epm.
  rewrite (add_unique_run pm t e (Hcpm t) He). cbn [rbind]. rewrite Hset2. cbn [rbind].
  rewrite Hset. eexists. split; [reflexivity|]. split.
  - apply groups_tidy_assign; auto. apply tidy_assign_plugins; auto.
    assert (Hnew : collection_ok (Some (Seq (add_if_new (seq_of (lookup t pm)) e)))).
    { apply add_if_new_ok; auto.
      destruct (collection_ok_Seq _ (Hcpm t)) as [->|[l [-> [_ Hl]]]]; cbn; auto.
      constructor. }
    cbn [plugins_ok]. split; [|split].
    + destruct pm as [|[k0 v0] r]; cbn [assign]; [discriminate|].
      destruct (String.eqb t k0); discriminate.
    + now apply NoDup_keys_assign.
    + apply Forall_assign; auto.
      apply Forall_forall. intros [k v] Hin. cbn [snd].
      pose proof (Hcpm k) as Hk. now rewrite (In_lookup_NoDup _ _ _ Npm Hin) in Hk.
  - intros f k Hk. apply setting_at_assign; auto. apply entity_key_neq; auto.
Qed.

Lemma tidy_step_refl (fd : value) : groups_tidy fd -> tidy_step fd fd.
Proof. intros H. split; auto. Qed.

Lemma tidy_step_trans (a b c : value) : tidy_step a b -> tidy_step b c -> tidy_step a c.
Proof.
  intros [_ H1] [T H2]. split; auto. intros f k Hk. now rewrite H2, H1.
Qed.

Lemma place_total (me : ProjectFiles) (fd : value) (o : occurrence) :
  groups_tidy fd -> keyed o ->
  exists fd', place me fd o = Ok fd' /\ tidy_step fd fd'.
Proof.
  intros Hfd [s Hs]. destruct o as [c e]. cbn [snd] in Hs.
  unfold place. rewrite (file_for_named me c e Hs). cbn [rbind].
  destruct c as [t| |].
  - apply add_plugin_run; eauto.
  - apply (add_to_group_run "schedules"); eauto.
  - apply (add_to_group_run "environments"); eauto.
Qed.

Lemma places_total (me : ProjectFiles) (os : list occurrence) (fd : value) :
  groups_tidy fd -> Forall keyed os ->
  exists fd', foldM (place me) os fd = Ok fd' /\ tidy_step fd fd'.
Proof.
  intros Hfd F. revert fd Hfd. induction F as [|o rest Ho F IH]; intros fd Hfd; cbn [foldM].
  - exists fd. split; auto. now apply tidy_step_refl.
  - destruct (place_total me fd o Hfd Ho) as [fd1 [E1 H1]]. rewrite E1. cbn [rbind].
    destruct (IH fd1 (proj1 H1)) as [fd' [E' H']]. exists fd'. split; auto.
    eapply tidy_step_trans; eauto.
Qed.

Lemma typed_plugins_run (me : ProjectFiles) (typed : list (string * value)) (fd : value) :
  Forall (fun tv => collection_ok (Some (snd tv))) typed ->
  foldM (fun fd '(t, ps) =>
           rbind (iterate ps) (fun l => foldM (place me) (map (pair (Plugins t)) l) fd))
        typed fd
  = foldM (place me)
          (flat_map (fun '(t, ps) => map (pair (Plugins t)) (iterated ps)) typed) fd.
Proof.
  intros F. revert fd. induction F as [|[t ps] rest Hps F IH]; intros fd; auto.
  cbn [foldM flat_map]. cbn [snd] in Hps.
  destruct ps as [s|m|l]; cbn in Hps; try contradiction.
  rewrite foldM_app. unfold iterated. cbn [iterate rbind].
  destruct (foldM (place me) (map (pair (Plugins t)) l) fd) as [fd1|e]; cbn [rbind]; auto.
Qed.

(** An entry that is a collection in good order is a run of [place] steps. *)
Lemma split_entry_places (me : ProjectFiles) (fd : value) (key : string) (v : value) :
  is_entity_key key = true -> entry_ok (key, v) ->
  split_entry me fd (key, v) = foldM (place me) (entry_occurrences (key, v)) fd.
Proof.
  unfold is_entity_key, split_entry, entry_occurrences, entry_ok. intros Hk H.
  destruct (String.eqb key "plugins").
  - rewrite add_plugins_place. destruct v as [s|typed|l]; cbn in H; try contradiction.
    cbn [items_of rbind]. apply typed_plugins_run. apply H.
  - destruct (String.eqb key "schedules").
    + rewrite add_schedules_place. destruct v as [s|m|l]; cbn in H; try contradiction.
      reflexivity.
    + destruct (String.eqb key "environments"); [|discriminate].
      rewrite add_environments_place. destruct v as [s|m|l]; cbn in H; try contradiction.
      reflexivity.
Qed.

Lemma named_records_occurrences (c : collection) (l : list value) :
  named_records l -> Forall keyed (map (pair c) l).
Proof.
  intros F. induction F as [|e rest He F IH]; cbn [map]; constructor; auto.
Qed.

Lemma typed_occurrences_named (typed : list (string * value)) :
  Forall (fun tv => collection_ok (Some (snd tv))) typed ->
  Forall keyed
         (flat_map (fun '(t, ps) => map (pair (Plugins t)) (iterated ps)) typed).
Proof.
  intros F. induction F as [|[t ps] rest Hps F IH]; cbn [flat_map]; [constructor|].
  apply Forall_app. split; auto. cbn [snd] in Hps.
  destruct ps as [s|m|l]; cbn in Hps; try contradiction.
  apply named_records_occurrences. apply Hps.
Qed.

Lemma entry_occurrences_named (kv : string * value) :
  entry_ok kv -> Forall keyed (entry_occurrences kv).
Proof.
  destruct kv as [key v]. unfold entry_ok, entry_occurrences.
  destruct (String.eqb key "plugins").
  - destruct v as [s|typed|l]; cbn; try contradiction.
    intros H. apply typed_occurrences_named. apply H.
  - destruct (String.eqb key "schedules").
    + destruct v as [s|m|l]; cbn; try contradiction.
      intros H. apply named_records_occurrences. apply H.
    + destruct (String.eqb key "environments"); [|constructor].
      destruct v as [s|m|l]; cbn; try contradiction.
      intros H. apply named_records_occurrences. apply H.
Qed.

(** One turn of the loop of [_split_config_dict] on an entry in good order. *)
Lemma split_entry_total (me : ProjectFiles) (fd : value) (key : string) (v : value) :
  groups_tidy fd -> entry_ok (key, v) ->
  exists fd',
    split_entry me fd (key, v) = Ok fd'
    /\ groups_tidy fd'
    /\ forall f k, is_entity_key k = false ->
                   setting_at fd' f k
                   = if String.eqb f (_meltano_file_path me) && String.eqb k key
                     then Some v else setting_at fd f k.
Proof.
  intros Hfd Hok. destruct (is_entity_key key) eqn:Hkey.
  - rewrite split_entry_places by auto.
    destruct (places_total me (entry_occurrences (key, v)) fd Hfd
                           (entry_occurrences_named _ Hok)) as [fd' [E [T S]]].
    exists fd'. split; auto. split; auto. intros f k Hk. rewrite S by auto.
    assert (String.eqb k key = false) as ->.
    { apply String.eqb_neq. now apply entity_key_neq. }
    now rewrite andb_false_r.
  - pose proof Hfd as [g [-> _]].
    destruct (groups_tidy_group g (_meltano_file_path me) Hfd) as [m [Hm Hmt]].
    pose proof Hkey as Hkey'.
    unfold is_entity_key in Hkey. unfold split_entry.
    destruct (String.eqb key "plugins"); [discriminate|].
    destruct (String.eqb key "schedules"); [discriminate|].
    destruct (String.eqb key "environments"); [discriminate|].
    destruct (setdefault_run g (_meltano_file_path me) (Dict [])) as [d1 [Hsd Hset]].
    rewrite Hsd. cbn [rbind]. pose proof Hm as Hm'. cbn [dict_at] in Hm. rewrite Hm.
    cbn [setitem rbind]. rewrite Hset. eexists. split; [reflexivity|]. split.
    + apply groups_tidy_assign; auto. now apply tidy_assign_other.
    + intros f k Hk. unfold setting_at. cbn [dict_at]. rewrite lookup_assign.
      destruct (String.eqb f (_meltano_file_path me)) eqn:Ef; cbn [andb]; auto.
      apply String.eqb_eq in Ef. subst f. rewrite Hm. rewrite lookup_assign.
      destruct (String.eqb k key); auto.
Qed.

Lemma tidy_entries (m : list (string * value)) : tidy (Dict m) -> Forall entry_ok m.
Proof.
  intros [m0 [E [N [Hp [Hs He]]]]]. inversion E; subst m0.
  apply Forall_forall. intros [k v] Hin. apply (In_lookup_NoDup _ _ _ N) in Hin.
  unfold entry_ok.
  destruct (String.eqb_spec k "plugins") as [->|_]; [now rewrite Hin in Hp|].
  destruct (String.eqb_spec k "schedules") as [->|_]; [now rewrite Hin in Hs|].
  destruct (String.eqb_spec k "environments") as [->|_]; [now rewrite Hin in He|].
  exact I.
Qed.

Lemma split_entries_total (me : ProjectFiles) (entries_ : list (string * value))
      (fd : value) :
  groups_tidy fd -> Forall entry_ok entries_ -> NoDup (keys entries_) ->
  exists fd',
    foldM (split_entry me) entries_ fd = Ok fd'
    /\ groups_tidy fd'
    /\ forall f k, is_entity_key k = false ->
                   setting_at fd' f k
                   = match (if String.eqb f (_meltano_file_path me)
                            then lookup k entries_ else None) with
                     | Some v => Some v
                     | None => setting_at fd f k
                     end.
Proof.
  intros Hfd F. revert fd Hfd.
  induction F as [|[key v] rest Hkv F IH]; intros fd Hfd N; cbn [foldM].
  - exists fd. split; auto. split; auto. intros f k _.
    now destruct (String.eqb f (_meltano_file_path me)).
  - cbn [keys map fst] in N. inversion N as [|? ? Hnotin N']; subst.
    destruct (split_entry_total me fd key v Hfd Hkv) as [fd1 [E1 [T1 S1]]].
    rewrite E1. cbn [rbind].
    destruct (IH fd1 T1 N') as [fd' [E' [T' S']]].
    exists fd'. split; auto. split; auto. intros f k Hk.
    rewrite S', S1 by auto. cbn [lookup].
    destruct (String.eqb f (_meltano_file_path me)); cbn [andb]; auto.
    destruct (String.eqb_spec k key) as [->|Hne]; auto.
    apply lookup_None_keys in Hnotin. now rewrite Hnotin.
Qed.

Lemma groups_tidy_empty : groups_tidy (Dict []).
Proof.
  exists []. split; auto. split; [constructor|]. intros f d H. discriminate.
Qed.

(** The loop of [_split_config_dict] goes through on a tidy configuration,
    and what is no collection goes to the root file's group, as it is. *)
Lemma split_loop_total (me : ProjectFiles) (m : list (string * value)) :
  tidy (Dict m) ->
  exists fd,
    split_loop me (Dict m) = Ok fd
    /\ groups_tidy fd
    /\ forall f k, is_entity_key k = false ->
                   setting_at fd f k
                   = if String.eqb f (_meltano_file_path me) then lookup k m else None.
Proof.
  intros T. unfold split_loop. cbn [items_of rbind].
  assert (N : NoDup (keys m)).
  { destruct T as [m0 [E [N _]]]. inversion E; now subst. }
  destruct (split_entries_total me m (Dict []) groups_tidy_empty (tidy_entries m T) N)
    as [fd [E [Tfd S]]].
  exists fd. split; auto. split; auto. intros f k Hk. rewrite S by auto.
  destruct (String.eqb f (_meltano_file_path me)); auto.
  destruct (lookup k m); auto.
Qed.

(** ** The records of a tidy document *)

Lemma flat_map_at_key {X} (g : string * value -> list X) (k0 : string)
      (m : list (string * value)) :
  NoDup (keys m) ->
  (forall k v, In (k, v) m -> k <> k0 -> g (k, v) = []) ->
  flat_map g m = match lookup k0 m with Some v => g (k0, v) | None => [] end.
Proof.
  induction m as [|[k v] rest IH]; intros N Hg; cbn [flat_map lookup]; auto.
  cbn [keys map fst] in N. inversion N as [|? ? Hnotin N']; subst.
  assert (IH' := IH N' (fun k1 v1 Hin => Hg k1 v1 (or_intror Hin))).
  destruct (String.eqb_spec k0 k) as [->|Hne].
  - rewrite IH'. apply lookup_None_keys in Hnotin. rewrite Hnotin. apply app_nil_r.
  - rewrite (Hg k v (or_introl eq_refl)) by congruence. exact IH'.
Qed.

Lemma map_filter_flat_map {A B C} (f : B -> C) (P : B -> bool) (g : A -> list B)
      (l : list A) :
  map f (filter P (flat_map g l)) = flat_map (fun x => map f (filter P (g x))) l.
Proof.
  induction l as [|x rest IH]; cbn [flat_map]; auto.
  now rewrite filter_app, map_app, IH.
Qed.

Lemma collection_eqb_eq (a b : collection) : collection_eqb a b = true <-> a = b.
Proof.
  destruct a, b; cbn; try (split; [discriminate | congruence]); try tauto.
  rewrite String.eqb_eq. split; congruence.
Qed.

Lemma collection_eqb_refl (c : collection) : collection_eqb c c = true.
Proof. now apply collection_eqb_eq. Qed.

Lemma records_of_pairs (c' c : collection) (l : list value) :
  map snd (filter (fun o : occurrence => collection_eqb (fst o) c) (map (pair c') l))
  = if collection_eqb c' c then l else [].
Proof.
  induction l as [|e rest IH]; cbn [map filter fst].
  - now destruct (collection_eqb c' c).
  - destruct (collection_eqb c' c) eqn:E; cbn [map snd]; now rewrite IH.
Qed.

Lemma records_of_typed (typed : list (string * value)) (c : collection) :
  NoDup (keys typed) ->
  map snd (filter (fun o : occurrence => collection_eqb (fst o) c)
                  (flat_map (fun '(t, ps) => map (pair (Plugins t)) (iterated ps)) typed))
  = match c with
    | Plugins t => match lookup t typed with Some ps => iterated ps | None => [] end
    | _ => []
    end.
Proof.
  intros N. rewrite map_filter_flat_map. destruct c as [t| |].
  - rewrite (flat_map_at_key _ t typed N).
    + destruct (lookup t typed) as [ps|]; auto.
      rewrite records_of_pairs. cbn. now rewrite String.eqb_refl.
    + intros k v _ Hne. rewrite records_of_pairs. cbn.
      apply String.eqb_neq in Hne. now rewrite Hne.
  - induction typed as [|[t ps] rest IH]; cbn [flat_map]; auto.
    rewrite records_of_pairs. cbn. apply IH. now inversion N.
  - induction typed as [|[t ps] rest IH]; cbn [flat_map]; auto.
    rewrite records_of_pairs. cbn. apply IH. now inversion N.
Qed.

(** The records the split visits in a tidy configuration are those the
    configuration keeps. *)
Lemma records_tidy (C : value) (c : collection) : tidy C -> records c C = entities_at C c.
Proof.
  intros [m [-> [N [Hp [Hs He]]]]]. unfold records. cbn [occurrences].
  rewrite map_filter_flat_map.
  rewrite (flat_map_at_key _ (collection_key c) m N).
  - destruct c as [t| |]; cbn [collection_key entities_at seq_at dict_at].
    + destruct (lookup "plugins" m) as [[s|typed|l]|]; cbn in Hp; try contradiction; auto.
      cbn [entry_occurrences String.eqb Ascii.eqb Bool.eqb].
      rewrite records_of_typed by apply Hp. cbn [seq_at].
      pose proof (plugins_ok_lookup typed t Hp) as Ht.
      destruct (lookup t typed) as [[s|m'|l]|]; cbn in Ht; try contradiction; auto.
    + destruct (lookup "schedules" m) as [[s|m'|l]|]; cbn in Hs; try contradiction; auto.
      cbn [entry_occurrences String.eqb Ascii.eqb Bool.eqb].
      apply (records_of_pairs Schedules Schedules).
    + destruct (lookup "environments" m) as [[s|m'|l]|]; cbn in He; try contradiction; auto.
      cbn [entry_occurrences String.eqb Ascii.eqb Bool.eqb].
      apply (records_of_pairs Environments Environments).
  - intros k v Hin Hne. unfold entry_occurrences.
    pose proof (tidy_entries m (ex_intro _ m (conj eq_refl (conj N (conj Hp (conj Hs He))))))
      as Fok.
    rewrite Forall_forall in Fok. specialize (Fok _ Hin). unfold entry_ok in Fok.
    destruct (String.eqb_spec k "plugins") as [->|_].
    + destruct v as [s|typed|l]; cbn in Fok; try contradiction.
      rewrite records_of_typed by apply Fok.
      destruct c as [t| |]; auto. now cbn in Hne.
    + destruct (String.eqb_spec k "schedules") as [->|_].
      * rewrite records_of_pairs. destruct c; auto. now cbn in Hne.
      * destruct (String.eqb_spec k "environments") as [->|_]; auto.
        rewrite records_of_pairs. destruct c; auto. now cbn in Hne.
Qed.

(** The plugin types of a document, with their records. *)
Lemma declared_tidy (d : value) :
  tidy d ->
  declared d
  = flat_map (fun '(t, ps) => map (pair (Plugins t)) (iterated ps)) (typed_of d)
    ++ map (pair Schedules) (entities_at d Schedules)
    ++ map (pair Environments) (entities_at d Environments).
Proof.
  intros [m [-> [N [Hp [Hs He]]]]]. unfold declared, typed_of.
  cbn [get entities_at seq_at dict_at].
  f_equal; [|f_equal].
  - destruct (lookup "plugins" m) as [[s|typed|l]|]; cbn in Hp; try contradiction; auto.
  - destruct (lookup "schedules" m) as [[s|m'|l]|]; cbn in Hs; try contradiction; auto.
  - destruct (lookup "environments" m) as [[s|m'|l]|]; cbn in He; try contradiction; auto.
Qed.

Lemma typed_of_tidy (d : value) :
  tidy d ->
  NoDup (keys (typed_of d))
  /\ Forall (fun tv => collection_ok (Some (snd tv))) (typed_of d)
  /\ forall t, entities_at d (Plugins t) = seq_of (lookup t (typed_of d)).
Proof.
  intros [m [-> [N [Hp _]]]]. unfold typed_of. cbn [entities_at dict_at].
  destruct (lookup "plugins" m) as [[s|typed|l]|]; cbn in Hp; try contradiction.
  - split; [apply Hp|]. split; [apply Hp|]. intros t. reflexivity.
  - split; [constructor|]. split; [constructor|]. reflexivity.
Qed.

(** The records of one collection stand together among those a tidy
    document declares. *)
Lemma declared_segment (d : value) (c : collection) :
  tidy d ->
  exists A B, declared d = A ++ map (pair c) (entities_at d c) ++ B.
Proof.
  intros T. rewrite (declared_tidy d T). destruct c as [t| |].
  - destruct (typed_of_tidy d T) as [N [F Het]]. rewrite Het.
    destruct (lookup t (typed_of d)) as [ps|] eqn:E.
    + apply lookup_Some_In in E. pose proof E as Hin.
      apply in_split in E. destruct E as [t1 [t2 E]]. rewrite E.
      rewrite flat_map_app. cbn [flat_map].
      rewrite Forall_forall in F. specialize (F _ Hin). cbn [snd] in F.
      destruct ps as [s|m'|l]; cbn in F; try contradiction.
      cbn [seq_of]. unfold iterated at 2. cbn [iterate].
      exists (flat_map (fun '(t, ps) => map (pair (Plugins t)) (iterated ps)) t1).
      exists (flat_map (fun '(t, ps) => map (pair (Plugins t)) (iterated ps)) t2
              ++ map (pair Schedules) (entities_at d Schedules)
              ++ map (pair Environments) (entities_at d Environments)).
      now rewrite <- !app_assoc.
    + cbn [seq_of map]. exists []. eexists. reflexivity.
  - eexists. eexists. reflexivity.
  - eexists. exists []. rewrite app_nil_r. rewrite app_assoc. reflexivity.
Qed.

Lemma entities_declared (d : value) (c : collection) (e : value) :
  tidy d -> In e (entities_at d c) -> In (c, e) (declared d).
Proof.
  intros T Hin. destruct (declared_segment d c T) as [A [B ->]].
  apply in_or_app. right. apply in_or_app. left. now apply in_map.
Qed.

Lemma entities_named (d : value) (c : collection) :
  tidy d -> named_records (entities_at d c).
Proof.
  intros T. destruct c as [t| |].
  - destruct (typed_of_tidy d T) as [N [F Het]]. rewrite Het.
    destruct (lookup t (typed_of d)) as [ps|] eqn:E; [|constructor].
    apply lookup_Some_In in E. rewrite Forall_forall in F. specialize (F _ E).
    cbn [snd] in F. destruct ps as [s|m'|l]; cbn in F; try contradiction. apply F.
  - destruct T as [m [-> [N [Hp [Hs He]]]]]. cbn [entities_at seq_at].
    destruct (lookup "schedules" m) as [[s|m'|l]|]; cbn in Hs; try contradiction;
      try constructor. apply Hs.
  - destruct T as [m [-> [N [Hp [Hs He]]]]]. cbn [entities_at seq_at].
    destruct (lookup "environments" m) as [[s|m'|l]|]; cbn in He; try contradiction;
      try constructor. apply He.
Qed.


(** The keys of a run of records of one collection. *)
Lemma keys_of_pairs (c : collection) (l : list value) (e : value) (n : scalar) :
  In e l -> name_of e = Some n ->
  In (key_of c n) (flat_map key_list (map (pair c) l)).
Proof.
  intros Hin Hn. apply in_flat_map. exists (c, e). split; [now apply in_map|].
  unfold key_list, entity_key_of. cbn [fst snd]. rewrite Hn. now left.
Qed.

Lemma key_declared (d : value) (c : collection) (e : value) (n : scalar) :
  tidy d -> In e (entities_at d c) -> name_of e = Some n -> In (key_of c n) (keys_declared d).
Proof.
  intros T Hin Hn. unfold keys_declared. apply in_flat_map. exists (c, e).
  split; [now apply entities_declared|].
  unfold entity_key_of. cbn [fst snd]. rewrite Hn. now left.
Qed.

Lemma keys_segment (d : value) (c : collection) :
  tidy d -> NoDup (keys_declared d) ->
  NoDup (flat_map key_list (map (pair c) (entities_at d c))).
Proof.
  intros T N. destruct (declared_segment d c T) as [A [B E]].
  unfold keys_declared in N. rewrite E in N. fold key_list in N.
  rewrite !flat_map_app in N.
  apply NoDup_app_remove_l in N. now apply NoDup_app_remove_r in N.
Qed.

(** Records with distinct names all stay. *)
Lemma absorb_distinct (c : collection) (l l0 : list value) :
  NoDup (flat_map key_list (map (pair c) (l0 ++ l))) ->
  named_records l ->
  absorb l0 l = l0 ++ l.
Proof.
  revert l0. induction l as [|e rest IH]; intros l0 N F; cbn [absorb fold_left].
  - now rewrite app_nil_r.
  - inversion F as [|? ? [s Hs] F']; subst. fold (absorb (add_if_new l0 e) rest).
    assert (Hnew : add_if_new l0 e = l0 ++ [e]).
    { unfold add_if_new. rewrite Hs.
      destruct (existsb (has_name s) l0) eqn:Ex; auto. exfalso.
      apply existsb_exists in Ex. destruct Ex as [e' [Hin' Hname]].
      apply has_name_eq in Hname.
      rewrite map_app, flat_map_app in N. cbn [map flat_map] in N.
      unfold key_list at 2 in N. unfold entity_key_of in N.
      cbn [fst snd] in N. rewrite Hs in N. cbn [app] in N.
      apply NoDup_remove_2 in N. apply N. apply in_or_app. left.
      eapply keys_of_pairs; eauto. }
    rewrite Hnew. rewrite IH; auto.
    + now rewrite <- app_assoc.
    + now rewrite <- app_assoc.
Qed.

(** ** Tidy documents with the same records and settings *)

Lemma collection_same (x y : option value) :
  collection_ok x -> collection_ok y -> seq_of x = seq_of y -> x = y.
Proof.
  intros Hx Hy E.
  destruct (collection_ok_Seq x Hx) as [->|[l [-> [Hl _]]]];
    destruct (collection_ok_Seq y Hy) as [->|[l' [-> [Hl' _]]]]; cbn [seq_of] in E;
    congruence.
Qed.

Lemma plugins_first (typed : list (string * value)) :
  plugins_ok (Some (Dict typed)) -> exists t, seq_of (lookup t typed) <> [].
Proof.
  intros [Hne [_ F]]. destruct typed as [|[t v] rest]; [contradiction|].
  exists t. cbn [lookup]. rewrite String.eqb_refl.
  inversion F as [|? ? Hv _]; subst. cbn [snd] in Hv.
  destruct v as [s|m|l]; cbn in Hv; try contradiction. cbn [seq_of]. apply Hv.
Qed.

Lemma tidy_alike (a b : list (string * value)) :
  tidy (Dict a) -> tidy (Dict b) ->
  (forall c, entities_at (Dict a) c = entities_at (Dict b) c) ->
  (forall k, is_entity_key k = false -> lookup k a = lookup k b) ->
  alike (Dict a) (Dict b).
Proof.
  intros [a0 [Ea [Na [Hpa [Hsa Hea]]]]] [b0 [Eb [Nb [Hpb [Hsb Heb]]]]] Hent Hother.
  inversion Ea; subst a0. inversion Eb; subst b0. clear Ea Eb.
  exists a, b. repeat (split; [solve [auto]|]). split.
  - intros k Hk. destruct (is_entity_key k) eqn:Ek; [|now apply Hother].
    unfold is_entity_key in Ek.
    destruct (String.eqb_spec k "plugins") as [->|_]; [congruence|].
    destruct (String.eqb_spec k "schedules") as [->|_].
    + apply collection_same; auto. apply (Hent Schedules).
    + destruct (String.eqb_spec k "environments") as [->|_]; [|discriminate].
      apply collection_same; auto. apply (Hent Environments).
  - assert (Hty : forall t, seq_at (dict_at (Dict a) "plugins") t
                            = seq_at (dict_at (Dict b) "plugins") t).
    { intros t. apply (Hent (Plugins t)). }
    cbn [dict_at] in Hty. unfold close.
    destruct (lookup "plugins" a) as [[s|ta|l]|] eqn:La; cbn in Hpa; try contradiction;
      destruct (lookup "plugins" b) as [[s'|tb|l']|] eqn:Lb; cbn in Hpb; try contradiction;
      auto.
    + split; [apply Hpa|]. split; [apply Hpb|]. intros t.
      apply collection_same.
      * now apply plugins_ok_lookup.
      * now apply plugins_ok_lookup.
      * apply Hty.
    + destruct (plugins_first ta Hpa) as [t Ht]. apply Ht. apply (Hty t).
    + destruct (plugins_first tb Hpb) as [t Ht]. apply Ht. symmetry. apply (Hty t).
Qed.


(** ** Where the split sends the records of each file *)

Lemma NoDup_app_apart {A} (a b : list A) (x : A) :
  NoDup (a ++ b) -> In x a -> In x b -> False.
Proof.
  induction a as [|y rest IH]; cbn [app]; intros N Ha Hb; [contradiction|].
  inversion N as [|? ? Hnotin N']; subst. destruct Ha as [->|Ha].
  - apply Hnotin. apply in_or_app. now right.
  - now apply IH.
Qed.

Lemma filter_true {A} (P : A -> bool) (l : list A) :
  (forall x, In x l -> P x = true) -> filter P l = l.
Proof.
  induction l as [|x rest IH]; cbn [filter]; intros H; auto.
  rewrite (H x (or_introl eq_refl)). f_equal. apply IH. intros y Hy. apply H. now right.
Qed.

Lemma filter_false {A} (P : A -> bool) (l : list A) :
  (forall x, In x l -> P x = false) -> filter P l = [].
Proof.
  induction l as [|x rest IH]; cbn [filter]; intros H; auto.
  rewrite (H x (or_introl eq_refl)). apply IH. intros y Hy. apply H. now right.
Qed.

Lemma filter_flat_map_ {A B} (P : B -> bool) (g : A -> list B) (l : list A) :
  filter P (flat_map g l) = flat_map (fun x => filter P (g x)) l.
Proof.
  induction l as [|x rest IH]; cbn [flat_map]; auto. now rewrite filter_app, IH.
Qed.

Lemma keys_combine (paths : list path) (docs : list value) :
  List.length paths = List.length docs -> keys (combine paths docs) = paths.
Proof.
  revert docs. induction paths as [|p rest IH]; intros [|d docs] H; cbn in *; try lia; auto.
  f_equal. apply IH. lia.
Qed.

Lemma flat_map_combine {X} (g : value -> list X) (paths : list path) (docs : list value) :
  List.length paths = List.length docs ->
  flat_map g docs = flat_map (fun pd => g (snd pd)) (combine paths docs).
Proof.
  revert docs. induction paths as [|p rest IH]; intros [|d docs] H; cbn in *; try lia; auto.
  f_equal. apply IH. lia.
Qed.

Lemma in_files_index (paths : list path) (docs : list value) (p : path) (d : value)
      (k : entity_key) :
  In (p, d) (combine paths docs) -> In k (keys_declared d) ->
  In (k, p) (files_index paths docs).
Proof.
  intros Hpd Hk. unfold files_index. apply in_flat_map. exists (p, d). split; auto.
  unfold keys_declared in Hk. apply in_flat_map in Hk. destruct Hk as [o [Ho Hk]].
  unfold index_entries. apply in_flat_map. exists o. split; auto.
  destruct (entity_key_of o) as [k'|]; [|contradiction].
  destruct Hk as [->|[]]. now left.
Qed.

(** A tidy document that is not empty has a record or a setting. *)
Lemma record_or_setting (m : list (string * value)) :
  tidy (Dict m) -> m <> [] ->
  (exists c, entities_at (Dict m) c <> [])
  \/ (exists k v, is_entity_key k = false /\ lookup k m = Some v).
Proof.
  intros [m0 [E [N [Hp [Hs He]]]]] Hne. inversion E; subst m0. clear E.
  destruct m as [|[k0 v0] rest] eqn:Em; [contradiction|]. rewrite <- Em in *.
  assert (L : lookup k0 m = Some v0).
  { rewrite Em. cbn [lookup]. now rewrite String.eqb_refl. }
  destruct (is_entity_key k0) eqn:Ek; [left | right; eauto].
  unfold is_entity_key in Ek.
  destruct (String.eqb_spec k0 "plugins") as [->|_].
  - rewrite L in Hp. destruct v0 as [s|typed|l]; cbn in Hp; try contradiction.
    destruct (plugins_first typed Hp) as [t Ht]. exists (Plugins t).
    cbn [entities_at dict_at]. now rewrite L.
  - destruct (String.eqb_spec k0 "schedules") as [->|_].
    + rewrite L in Hs. destruct v0 as [s|m'|l]; cbn in Hs; try contradiction.
      exists Schedules. cbn [entities_at seq_at]. rewrite L. apply Hs.
    + destruct (String.eqb_spec k0 "environments") as [->|_]; [|discriminate].
      rewrite L in He. destruct v0 as [s|m'|l]; cbn in He; try contradiction.
      exists Environments. cbn [entities_at seq_at]. rewrite L. apply He.
Qed.

Lemma fragment_settings (d : value) (k : string) :
  fragment d -> is_entity_key k = false -> exists m, d = Dict m /\ lookup k m = None.
Proof.
  intros [[m [-> _]] [_ Hk]] Ek. exists m. split; auto.
  apply lookup_None_keys. intros Hin. rewrite (Hk m k eq_refl Hin) in Ek. discriminate.
Qed.

Lemma fragment_records (d : value) : fragment d -> exists c, entities_at d c <> [].
Proof.
  intros F. pose proof F as [T [Hne Hk]]. pose proof T as [m [-> _]].
  destruct (record_or_setting m T) as [H|[k [v [Ek L]]]]; auto.
  - intros ->. now apply Hne.
  - destruct (fragment_settings (Dict m) k F Ek) as [m' [E L']].
    inversion E; subst m'. congruence.
Qed.

(** A tidy document that declares a record has a collection with a record. *)
Lemma declared_records (d : value) :
  tidy d -> declared d <> [] -> exists c, entities_at d c <> [].
Proof.
  intros [m [-> [N [Hp [Hs He]]]]] Hd.
  destruct (lookup "plugins" m) as [[s|typed|l]|] eqn:Lp; cbn in Hp; try contradiction.
  - destruct (plugins_first typed Hp) as [t Ht]. exists (Plugins t).
    cbn [entities_at dict_at]. rewrite Lp. now rewrite seq_at_seq_of.
  - destruct (lookup "schedules" m) as [[s|m'|l]|] eqn:Ls; cbn in Hs; try contradiction.
    + exists Schedules. cbn [entities_at seq_at]. rewrite Ls. apply Hs.
    + destruct (lookup "environments" m) as [[s|m'|l]|] eqn:Le; cbn in He;
        try contradiction.
      * exists Environments. cbn [entities_at seq_at]. rewrite Le. apply He.
      * exfalso. apply Hd. unfold declared. cbn [get]. rewrite Lp, Ls, Le. reflexivity.
Qed.

Lemma fragment_declares (d : value) : fragment d -> declared d <> [].
Proof.
  intros F. destruct (fragment_records d F) as [c Hc].
  destruct (entities_at d c) as [|e rest] eqn:E; [exfalso; now apply Hc|].
  intros Hd. pose proof (entities_declared d c e (proj1 F)) as Hin.
  rewrite E, Hd in Hin. apply Hin. now left.
Qed.

Lemma root_by_setting_other (me : ProjectFiles) (entries_ : list (string * value)) :
  root_by_setting me entries_ = true -> existsb is_other entries_ = true.
Proof.
  induction entries_ as [|kv rest IH]; cbn [root_by_setting existsb]; [discriminate|].
  destruct (is_other kv); [reflexivity|].
  destruct (existsb _ (entry_occurrences kv)); [discriminate|]. exact IH.
Qed.

Lemma commented_assigns (me : ProjectFiles) (config : value) :
  commented_root me config = true -> assigns_root me config = true.
Proof.
  unfold commented_root, assigns_root. destruct config as [s|m|l]; try discriminate.
  intros H. rewrite (root_by_setting_other me m H). apply orb_true_r.
Qed.

Lemma kept_group (g : list (string * value)) (f : string) (c : collection) :
  kept (Dict g) f c <> [] -> exists G, lookup f g = Some G.
Proof.
  unfold kept. cbn [dict_at]. destruct (lookup f g) as [G|]; eauto.
  intros H. exfalso. apply H. now destruct c.
Qed.

Section Homes.

Variable me : ProjectFiles.
Variable R : value.
Variable paths : list path.
Variable docs : list value.
Variable C : value.

Hypothesis Hidx : _plugin_file_map me = files_index paths docs.
Hypothesis Hlen : List.length paths = List.length docs.
Hypothesis HR : tidy R.
Hypothesis HD : Forall tidy docs.
Hypothesis Hkeys : NoDup (keys_declared R ++ declared_keys docs).
Hypothesis Hpaths : NoDup paths.
Hypothesis Hroot : ~ In (_meltano_file_path me) paths.
Hypothesis Hmerge : deep_merge R docs = Ok C.

Lemma include_tidy (p : path) (d : value) : In (p, d) (combine paths docs) -> tidy d.
Proof.
  intros Hin. apply in_combine_r in Hin. rewrite Forall_forall in HD. now apply HD.
Qed.

(** A record of an include file goes to that file. *)
Lemma sent_include (p : path) (d : value) (c : collection) (e : value) (f : string) :
  In (p, d) (combine paths docs) -> In e (entities_at d c) ->
  sent_to me f (c, e) = String.eqb p f.
Proof.
  intros Hpd He. pose proof (include_tidy p d Hpd) as T.
  pose proof (entities_named d c T) as Fn. unfold named_records in Fn.
  rewrite Forall_forall in Fn. destruct (Fn e He) as [s Hs].
  unfold sent_to. rewrite (@file_for_named me c e s Hs). unfold home. rewrite Hidx.
  rewrite (index_get_In_NoDup (files_index paths docs) (key_of c s) p); auto.
  - rewrite map_fst_files_index by exact Hlen. now apply NoDup_app_remove_l in Hkeys.
  - apply (in_files_index paths docs p d); auto. now apply (key_declared d c e).
Qed.

(** A record of the root file goes to the root file. *)
Lemma sent_root (c : collection) (e : value) (f : string) :
  In e (entities_at R c) ->
  sent_to me f (c, e) = String.eqb (_meltano_file_path me) f.
Proof.
  intros He. pose proof (entities_named R c HR) as Fn. unfold named_records in Fn.
  rewrite Forall_forall in Fn. destruct (Fn e He) as [s Hs].
  unfold sent_to. rewrite (@file_for_named me c e s Hs). unfold home. rewrite Hidx.
  assert (E : index_get (files_index paths docs) (key_of c s) = None).
  { apply index_get_None. rewrite map_fst_files_index by exact Hlen. intros Hin.
    apply (NoDup_app_apart _ _ (key_of c s) Hkeys); auto.
    now apply (key_declared R c e). }
  now rewrite E.
Qed.

Lemma sent_includes (c : collection) (f : string) :
  filter (fun e => sent_to me f (c, e)) (flat_map (fun d => entities_at d c) docs)
  = match lookup f (combine paths docs) with
    | Some d => entities_at d c
    | None => []
    end.
Proof.
  rewrite (flat_map_combine (fun d => entities_at d c) paths docs Hlen).
  rewrite filter_flat_map_.
  rewrite (flat_map_at_key _ f (combine paths docs)).
  - destruct (lookup f (combine paths docs)) as [d|] eqn:E; auto.
    apply lookup_Some_In in E. cbn [snd]. apply filter_true. intros e He.
    rewrite (sent_include f d c e f E He). apply String.eqb_refl.
  - now rewrite keys_combine.
  - intros k v Hin Hne. cbn [snd]. apply filter_false. intros e He.
    rewrite (sent_include k v c e f Hin He). now apply String.eqb_neq.
Qed.

Lemma composite_tidy :
  tidy C /\ forall c, entities_at C c = entities_at R c ++ flat_map (fun d => entities_at d c) docs.
Proof. now apply merge_tidy. Qed.

Lemma include_keys (p : path) (d : value) :
  In (p, d) (combine paths docs) -> NoDup (keys_declared d).
Proof.
  intros Hin. apply NoDup_app_remove_l in Hkeys. unfold declared_keys in Hkeys.
  apply in_combine_r in Hin. apply in_split in Hin. destruct Hin as [l1 [l2 E]].
  rewrite E, flat_map_app in Hkeys. cbn [flat_map] in Hkeys.
  apply NoDup_app_remove_l in Hkeys. now apply NoDup_app_remove_r in Hkeys.
Qed.

(** What the split keeps for the root file and for each include file. *)
Lemma split_keeps (fd : value) (c : collection) :
  split_loop me C = Ok fd ->
  kept fd (_meltano_file_path me) c = entities_at R c
  /\ forall p d, In (p, d) (combine paths docs) -> kept fd p c = entities_at d c.
Proof.
  intros H. apply split_loop_Ok in H.
  destruct H as [entries_ [g [EC [Efd [Ng [Hkept _]]]]]].
  destruct composite_tidy as [TC HC].
  assert (Hk : forall f, kept fd f c
                         = absorb [] (filter (fun e => sent_to me f (c, e))
                                             (entities_at R c
                                              ++ flat_map (fun d => entities_at d c) docs))).
  { intros f. rewrite Hkept, placed_records, (records_tidy C c TC), HC. reflexivity. }
  split.
  - rewrite Hk, filter_app, sent_includes.
    assert (lookup (_meltano_file_path me) (combine paths docs) = None) as ->.
    { apply lookup_None_keys. now rewrite keys_combine. }
    rewrite app_nil_r, filter_true.
    + apply (absorb_distinct c (entities_at R c) []).
      * cbn [app]. apply keys_segment; auto. now apply NoDup_app_remove_r in Hkeys.
      * now apply entities_named.
    + intros e He. rewrite (sent_root c e _ He). apply String.eqb_refl.
  - intros p d Hpd. rewrite Hk, filter_app, sent_includes.
    rewrite (In_lookup_NoDup (combine paths docs) p d); auto;
      [|now rewrite keys_combine].
    rewrite filter_false.
    + cbn [app]. apply (absorb_distinct c (entities_at d c) []).
      * cbn [app]. apply keys_segment; [now apply (include_tidy p)|now apply (include_keys p)].
      * apply entities_named. now apply (include_tidy p).
    + intros e He. rewrite (sent_root c e _ He). apply String.eqb_neq.
      intros E. apply Hroot. rewrite E. now apply in_combine_l in Hpd.
Qed.

(** The split of the composite: every group is tidy, the group of the root
    file has the settings of the composite and the records of the root
    file, the group of an include file the records of that file and no
    setting. *)
Lemma split_described :
  exists g mC,
    C = Dict mC /\ split_loop me C = Ok (Dict g) /\ NoDup (keys g)
    /\ (forall f G, lookup f g = Some G -> tidy G)
    /\ (forall f k, is_entity_key k = false ->
                    setting_at (Dict g) f k
                    = if String.eqb f (_meltano_file_path me) then lookup k mC else None)
    /\ (forall c, kept (Dict g) (_meltano_file_path me) c = entities_at R c)
    /\ (forall p d c, In (p, d) (combine paths docs) ->
                      kept (Dict g) p c = entities_at d c).
Proof.
  destruct composite_tidy as [TC HC]. pose proof TC as [mC [EC _]].
  rewrite EC in TC. destruct (split_loop_total me mC TC) as [fd [Hloop [Tfd Hset]]].
  rewrite <- EC in Hloop. pose proof Tfd as [g [Efd [Ng Hg]]]. subst fd.
  exists g, mC. split; [exact EC|]. split; [exact Hloop|]. split; [exact Ng|].
  split; [exact Hg|]. split; [exact Hset|]. split.
  - intros c. apply (proj1 (split_keeps (Dict g) c Hloop)).
  - intros p d c Hpd. apply (proj2 (split_keeps (Dict g) c Hloop) p d Hpd).
Qed.

Hypothesis Hcomm : commented_root me C = true.
Hypothesis Hrec : Forall (fun d => declared d <> []) docs.

(** When the group of the root file starts with a setting and every include
    file declares a record, [_split_config_dict] returns, with a group for
    the root file and one for every include file. *)
Lemma split_groups :
  exists g mC mG,
    C = Dict mC
    /\ _split_config_dict me C = Ok (Dict g) /\ NoDup (keys g)
    /\ lookup (_meltano_file_path me) g = Some (Dict mG)
    /\ tidy (Dict mG)
    /\ (forall c, entities_at (Dict mG) c = entities_at R c)
    /\ (forall k, is_entity_key k = false -> lookup k mG = lookup k mC)
    /\ (forall p d, In (p, d) (combine paths docs) ->
          exists m, lookup p g = Some (Dict m) /\ tidy (Dict m)
                    /\ (forall c, entities_at (Dict m) c = entities_at d c)
                    /\ (forall k, is_entity_key k = false -> lookup k m = None)).
Proof.
  destruct split_described as [g [mC [EC [Hloop [Ng [Hg [Hset [HkR HkD]]]]]]]].
  pose proof (commented_assigns me C Hcomm) as Hassigns.
  assert (Hroot_group : exists GR, lookup (_meltano_file_path me) g = Some GR).
  { pose proof (@split_contains_root me C (Dict g) Hloop) as Hc.
    rewrite Hassigns in Hc. cbn [contains] in Hc.
    destruct (lookup (_meltano_file_path me) g) as [GR|]; [eauto | discriminate]. }
  destruct Hroot_group as [GR EGR].
  pose proof (Hg _ _ EGR) as TGR. pose proof TGR as [mG [EG _]]. subst GR.
  exists g, mC, mG. split; [exact EC|].
  split; [|split; [exact Ng|split; [exact EGR|split; [exact TGR|split; [|split]]]]].
  - rewrite split_config_dict_run, Hloop, Hassigns, Hcomm. reflexivity.
  - intros c. rewrite <- (HkR c). unfold kept. cbn [dict_at]. now rewrite EGR.
  - intros k Ek. specialize (Hset (_meltano_file_path me) k Ek).
    rewrite String.eqb_refl in Hset. rewrite <- Hset.
    unfold setting_at. cbn [dict_at]. now rewrite EGR.
  - intros p d Hpd. pose proof (include_tidy p d Hpd) as Td.
    assert (Hd : declared d <> []).
    { rewrite Forall_forall in Hrec. apply Hrec. now apply in_combine_r in Hpd. }
    destruct (declared_records d Td Hd) as [c Hc].
    assert (Hgroup : exists G, lookup p g = Some G).
    { apply (kept_group g p c). now rewrite (HkD p d c Hpd). }
    destruct Hgroup as [G EG]. pose proof (Hg _ _ EG) as TG.
    pose proof TG as [m [Em _]]. subst G. exists m.
    split; [exact EG|]. split; [exact TG|]. split.
    + intros c'. rewrite <- (HkD p d c' Hpd). unfold kept. cbn [dict_at]. now rewrite EG.
    + intros k Ek. specialize (Hset p k Ek).
      assert (String.eqb p (_meltano_file_path me) = false) as Hne.
      { apply String.eqb_neq. intros E. apply Hroot. rewrite <- E.
        now apply in_combine_l in Hpd. }
      rewrite Hne in Hset. rewrite <- Hset. unfold setting_at. cbn [dict_at].
      now rewrite EG.
Qed.

Hypothesis Hfrag : Forall fragment docs.

Lemma include_fragment (p : path) (d : value) :
  In (p, d) (combine paths docs) -> fragment d.
Proof.
  intros Hin. apply in_combine_r in Hin. rewrite Forall_forall in Hfrag. now apply Hfrag.
Qed.

(** A setting of the composite is a setting of the root file, when the
    include files have none. *)
Lemma composite_setting (a c : list (string * value)) (k : string) :
  R = Dict a -> C = Dict c -> is_entity_key k = false -> lookup k c = lookup k a.
Proof.
  intros -> -> Ek. apply (merge_other_key a docs c k); auto.
  - now apply tidy_well_keyed.
  - eapply Forall_impl; [|exact Hfrag]. intros d Fd. now apply fragment_settings.
Qed.

(** With include files that hold records only, the split of the composite
    gives the root file and every include file a group that is the file
    again, up to the order of keys. *)
Lemma split_groups_alike :
  exists g,
    _split_config_dict me C = Ok (Dict g) /\ NoDup (keys g)
    /\ (exists GR, lookup (_meltano_file_path me) g = Some GR /\ alike GR R)
    /\ (forall p d, In (p, d) (combine paths docs) ->
                    exists G, lookup p g = Some G /\ alike G d).
Proof.
  destruct split_groups as [g [mC [mG [EC [Hsplit [Ng [EGR [TGR [HeR [HsR Hinc]]]]]]]]]].
  pose proof HR as [mR [ER _]].
  exists g. split; [exact Hsplit|]. split; [exact Ng|]. split.
  - exists (Dict mG). split; [exact EGR|]. rewrite ER. apply tidy_alike; auto.
    + now rewrite <- ER.
    + intros c. rewrite <- ER. apply HeR.
    + intros k Ek. rewrite (HsR k Ek). now apply composite_setting.
  - intros p d Hpd. destruct (Hinc p d Hpd) as [m [EG [TG [He Hs]]]].
    exists (Dict m). split; [exact EG|].
    pose proof (include_tidy p d Hpd) as Td. pose proof Td as [md [Emd _]]. subst d.
    apply tidy_alike; auto. intros k Ek. rewrite (Hs k Ek).
    destruct (fragment_settings (Dict md) k (include_fragment p (Dict md) Hpd) Ek)
      as [m' [E' L']].
    inversion E'; subst m'. now rewrite L'.
Qed.

End Homes.

(** ** The files after the update *)

Lemma expansions_written (files : list (path * value)) (d : filesystem) (dir : path)
      (pats : list string) :
  expansions (written files d) dir pats = expansions d dir pats.
Proof. unfold expansions. now rewrite glob_written. Qed.

Lemma gathered_written (files : list (path * value)) (d : filesystem) (dir rootp : path)
      (pats : list string) (acc : list path) :
  gathered (written files d) dir rootp pats acc = gathered d dir rootp pats acc.
Proof.
  revert acc. induction pats as [|pat rest IH]; intros acc; cbn [gathered]; auto.
  now rewrite IH, glob_written.
Qed.

Lemma invalid_write (q : path) (c : value) (d : filesystem) (p : path) :
  invalid d p = false -> invalid (write q c d) p = false.
Proof.
  unfold invalid, is_file, exists_, write. cbn [entries].
  destruct (String.eqb p q); auto.
Qed.

Lemma invalid_written (files : list (path * value)) (d : filesystem) (p : path) :
  invalid d p = false -> invalid (written files d) p = false.
Proof.
  revert d. induction files as [|[q c] rest IH]; intros d H; cbn [written fold_left]; auto.
  apply IH. now apply invalid_write.
Qed.

Lemma find_invalid_written (files : list (path * value)) (d : filesystem) (l : list path) :
  find (invalid d) l = None -> find (invalid (written files d)) l = None.
Proof.
  induction l as [|p rest IH]; cbn [find]; auto.
  destruct (invalid d p) eqn:E; [discriminate|]. intros H.
  rewrite (invalid_written files d p E). now apply IH.
Qed.

(** ** Indexing files whose keys are distinct *)

Lemma keyed_key (o : occurrence) :
  keyed o -> exists k, entity_key_of o = Some k /\ key_list o = [k].
Proof.
  intros [s Hs]. unfold key_list, entity_key_of. rewrite Hs. eauto.
Qed.

Lemma index_all_distinct (p : path) (os : list occurrence) (idx0 : index) :
  Forall keyed os ->
  NoDup (map fst idx0 ++ flat_map key_list os) ->
  index_all p os idx0 = (idx0 ++ index_entries p os, None).
Proof.
  intros F. revert idx0. induction F as [|o rest Ho F IH]; intros idx0 N.
  - cbn. now rewrite app_nil_r.
  - destruct (keyed_key o Ho) as [k [Ek Hk]].
    cbn [index_all flat_map] in *. rewrite Hk in N. cbn [app] in N. rewrite Ek.
    assert (index_get idx0 k = None) as ->.
    { apply index_get_None. intros Hin. apply NoDup_remove_2 in N. apply N.
      apply in_or_app. now left. }
    rewrite IH.
    + unfold index_entries. cbn [flat_map]. rewrite Ek. now rewrite <- app_assoc.
    + rewrite map_app. cbn [map fst]. now rewrite <- app_assoc.
Qed.






(** ** Files with the same collections declare the same keys *)




(** ** The update and the load after it *)

(** [update] when the split gives every include file a group: the groups
    are written, no file is blanked. *)
Lemma update_groups (C : value) (w : world) (g mR : list (string * value))
      (pats : list string) :
  _split_config_dict (self w) C = Ok (Dict g) ->
  _meltano (self w) = Dict mR ->
  iterate (match get (Dict mR) "include_paths" (Seq []) with
           | Ok v => v
           | Raise _ => Seq []
           end) = Ok (map Str pats) ->
  Forall (fun pat => accepts (disk w) (root (self w)) pat = true) pats ->
  find (invalid (disk w)) (expansions (disk w) (root (self w)) pats) = None ->
  (forall p, In p (fromkeys (gathered (disk w) (root (self w)) (_meltano_file_path (self w))
                                      pats []))
             -> contains (Dict g) p = true) ->
  update C w
  = (Ok C, mkWorld (mkProjectFiles (root (self w)) None_ (_meltano_file_path (self w))
                                   (_plugin_file_map (self w)))
                   (written g (disk w)) (logged w)).
Proof.
  intros Hsplit Hcache Hpats Hacc Hvalid Hall.
  rewrite update_run, Hsplit. cbn [items_of].
  rewrite (include_paths_cached (on_disk w (written g (disk w))) mR pats); proj; auto.
  - rewrite gathered_written.
    rewrite (filter_false (fun fl => negb (contains (Dict g) fl))).
    + reflexivity.
    + intros p Hp. now rewrite (Hall p Hp).
  - now rewrite accepts_written.
  - rewrite expansions_written. now apply find_invalid_written.
Qed.


Lemma holds_same (d : filesystem) (p : path) (x y : value) :
  holds d p x -> holds d p y -> x = y.
Proof. unfold holds. congruence. Qed.

Lemma holds_same_list (d : filesystem) (paths : list path) (xs ys : list value) :
  Forall2 (holds d) paths xs -> Forall2 (holds d) paths ys -> xs = ys.
Proof.
  intros F. revert ys. induction F as [|p x paths xs Hx F IH]; intros ys G.
  - now inversion G.
  - inversion G as [|? y ? ys' Hy G']; subst. f_equal.
    + exact (holds_same d p x y Hx Hy).
    + now apply IH.
Qed.

Lemma in_combine_exists (paths : list path) (docs : list value) (p : path) :
  List.length paths = List.length docs -> In p paths ->
  exists d, In (p, d) (combine paths docs).
Proof.
  revert docs. induction paths as [|q rest IH]; intros [|d docs] H Hin; cbn in *;
    try lia; try contradiction.
  destruct Hin as [->|Hin]; [eauto|].
  destruct (IH docs) as [d' Hd']; auto. eauto.
Qed.


Lemma NoDup_fromkeys (l : list path) : NoDup (fromkeys l).
Proof. rewrite fromkeys_first_occurrences. apply unseen_NoDup. Qed.

(** A file with records of its own is not the root file and an include file
    at once, when no key is declared twice. *)
Lemma root_not_included (d : filesystem) (rootp : path) (rootdoc : value)
      (paths : list path) (docs : list value) :
  holds d rootp rootdoc ->
  Forall2 (holds d) paths docs ->
  Forall tidy docs ->
  Forall (fun doc => declared doc <> []) docs ->
  NoDup (keys_declared rootdoc ++ declared_keys docs) ->
  ~ In rootp paths.
Proof.
  intros Hroot F T Hrec N Hin.
  destruct (in_combine_exists paths docs rootp (Forall2_length_ _ _ _ F) Hin) as [doc Hpd].
  pose proof (@Forall2_combine _ _ _ _ _ _ _ F Hpd) as Hdoc.
  rewrite (holds_same d rootp doc rootdoc Hdoc Hroot) in Hpd. clear Hdoc doc.
  apply in_combine_r in Hpd.
  rewrite Forall_forall in T, Hrec. pose proof (T _ Hpd) as Tr.
  destruct (declared_records rootdoc Tr (Hrec _ Hpd)) as [c Hc].
  destruct (entities_at rootdoc c) as [|e rest] eqn:E; [now apply Hc|].
  pose proof (entities_named rootdoc c Tr) as Fn. rewrite E in Fn.
  inversion Fn as [|? ? [s Hs] _]; subst.
  assert (Hk : In (key_of c s) (keys_declared rootdoc)).
  { apply (key_declared rootdoc c e); [exact Tr | rewrite E; now left | exact Hs]. }
  apply (NoDup_app_apart _ _ (key_of c s) N Hk).
  unfold declared_keys. apply in_flat_map. eauto.
Qed.

(** The root file and the include files as [load] found them. *)
Lemma loaded_files (w0 : world) (composite : value) (w : world)
      (rootdoc : value) (paths : list path) (docs : list value) :
  load w0 = (Ok composite, w) ->
  holds (disk w) (_meltano_file_path (self w)) rootdoc ->
  include_paths w = (Ok paths, w) ->
  Forall2 (holds (disk w)) paths docs ->
  exists mR pats,
    rootdoc = Dict mR
    /\ w = mkWorld (mkProjectFiles (root (self w0)) (Dict mR) (_meltano_file_path (self w0))
                                   (files_index paths docs))
                   (disk w0) (logged w0)
    /\ iterate (match get (Dict mR) "include_paths" (Seq []) with
                | Ok v => v
                | Raise _ => Seq []
                end) = Ok (map Str pats)
    /\ Forall (fun pat => accepts (disk w0) (root (self w0)) pat = true) pats
    /\ find (invalid (disk w0)) (expansions (disk w0) (root (self w0)) pats) = None
    /\ paths = fromkeys (gathered (disk w0) (root (self w0)) (_meltano_file_path (self w0))
                                  pats [])
    /\ deep_merge (Dict mR) docs = Ok composite.
Proof.
  intros Hload Hroot Hinc Hdocs.
  destruct (@load_Ok w0 composite w Hload)
    as [R' [pats [paths' [docs' [HR' [[mR Em] [Hpats [Hacc [Hvalid [Epaths [Hdocs' [Ew [_ [_ Hmerge]]]]]]]]]]]]]].
  subst w. proj.
  rewrite (holds_same _ _ _ _ HR' Hroot) in *. clear HR' R'. subst rootdoc.
  pose proof (include_paths_cached
                (mkWorld (mkProjectFiles (root (self w0)) (Dict mR)
                                         (_meltano_file_path (self w0))
                                         (files_index paths' docs'))
                         (disk w0) (logged w0))
                mR pats eq_refl Hpats Hacc Hvalid) as Hinc'.
  proj. rewrite Hinc' in Hinc. clear Hinc'.
  assert (E : paths' = paths) by congruence. clear Hinc.
  rewrite E in *. clear E paths'.
  rewrite (holds_same_list _ _ _ _ Hdocs' Hdocs) in *. clear Hdocs' docs'.
  exists mR, pats. repeat split; auto.
Qed.


(* ===================================================================== *)
(** * Further properties of [ProjectFiles] and [deep_merge] *)
(* ===================================================================== *)

(** ** What [load] touches *)

Lemma keeps_disk_add_to_index (key : tuple) (p : path) : keeps_disk (_add_to_index key p).
Proof.
  unfold _add_to_index, get_self, set_plugin_file_map, critical. keeps_disk.
Qed.

Lemma keeps_disk_index_file (p : path) (doc : value) : keeps_disk (_index_file p doc).
Proof.
  unfold _index_file. keeps_disk; try apply keeps_disk_add_to_index.
Qed.

Lemma keeps_disk_load_included_file (acc : list value) (p : path) :
  keeps_disk (load_included_file acc p).
Proof.
  unfold load_included_file. apply keeps_disk_try_except.
  - keeps_disk; try apply keeps_disk_index_file.
  - intros e h He. destruct e; inversion He; subst. unfold critical. keeps_disk.
Qed.

Lemma keeps_disk_load : keeps_disk load.
Proof.
  unfold load, reset_cache, _load_included_files, set_meltano, set_plugin_file_map.
  apply keeps_disk_bind; [keeps_disk|]. intros _.
  apply keeps_disk_bind.
  - apply keeps_disk_bind; [keeps_disk|]. intros _.
    apply keeps_disk_bind; [apply keeps_disk_include_paths|]. intros paths.
    apply keeps_disk_fold_each. intros acc p. apply keeps_disk_load_included_file.
  - intros docs. apply keeps_disk_bind; [apply keeps_disk_meltano|]. intros doc.
    apply keeps_disk_lift.
Qed.

(** X1. [load] writes no file, whether it returns or raises. *)
Theorem load_never_writes (w : world) : disk (snd (load w)) = disk w.
Proof.
  apply (keeps_disk_load w (fst (load w)) (snd (load w))). apply surjective_pairing.
Qed.

(** [load] starts from an empty cache and an empty index: what the object
    had cached and indexed before makes no difference to what it returns
    nor to the state it leaves. *)
Lemma load_starts_afresh (w : world) (cached : value) (idx : index) :
  load (mkWorld (mkProjectFiles (root (self w)) cached (_meltano_file_path (self w)) idx)
                (disk w) (logged w))
  = load w.
Proof. reflexivity. Qed.

(** ** The root file *)

Lemma load_reads_root (w : world) :
  load w
  = bind (bind include_paths (fun paths => fold_each paths [] load_included_file))
         (fun included_file_contents =>
            bind meltano (fun doc => lift (deep_merge doc included_file_contents)))
         (mkWorld (mkProjectFiles (root (self w)) None_ (_meltano_file_path (self w)) [])
                  (disk w) (logged w)).
Proof. reflexivity. Qed.

Lemma include_paths_root_raises (w : world) (e : exn) :
  _meltano (self w) = None_ ->
  read_yaml (_meltano_file_path (self w)) w = (Raise e, w) ->
  include_paths w = (Raise e, w).
Proof.
  intros Hc Hr. unfold include_paths, meltano, bind, get_self. rewrite Hc.
  unfold None_. cbv iota. now rewrite Hr.
Qed.

(** X2. A root file that cannot be read or parsed: [load] raises what reading it
    raises ([YAMLError] for malformed text, [OSError] when there is no
    regular file), with no log record (only include files get one), and
    leaves cache and index empty. *)
Theorem unreadable_root_aborts_load (w : world) :
  let rootp := _meltano_file_path (self w) in
  let emptied := mkWorld (mkProjectFiles (root (self w)) None_ rootp []) (disk w) (logged w) in
  (entries (disk w) rootp = Some (RegularFile Malformed) ->
   load w = (Raise (YAMLError rootp), emptied))
  /\ (is_file (disk w) rootp = false ->
      load w = (Raise (OSError rootp), emptied)).
Proof.
  intros rootp emptied. split; intros H; rewrite load_reads_root; fold rootp; fold emptied.
  - unfold bind at 1. unfold bind at 1.
    rewrite (include_paths_root_raises emptied (YAMLError rootp)); auto.
    unfold read_yaml, emptied. proj. fold rootp. now rewrite H.
  - unfold bind at 1. unfold bind at 1.
    rewrite (include_paths_root_raises emptied (OSError rootp)); auto.
    unfold read_yaml, emptied. proj. fold rootp. unfold is_file in H.
    destruct (entries (disk w) rootp) as [[|[doc|]]|]; auto; discriminate.
Qed.

(** X3. A root file that parses to something that is no mapping (an empty file
    parses to [None]): [load] raises the [AttributeError] of
    [self.meltano.get]. *)
Theorem non_mapping_root_aborts_load (w : world) (doc : value) :
  holds (disk w) (_meltano_file_path (self w)) doc ->
  (forall m, doc <> Dict m) ->
  load w
  = (Raise AttributeError,
     mkWorld (mkProjectFiles (root (self w)) doc (_meltano_file_path (self w)) [])
             (disk w) (logged w)).
Proof.
  intros Hh Hd. rewrite load_reads_root.
  set (emptied := mkWorld (mkProjectFiles (root (self w)) None_ (_meltano_file_path (self w)) [])
                          (disk w) (logged w)).
  assert (Hm : meltano emptied = (Ok doc, with_meltano emptied doc)).
  { apply meltano_read; auto. }
  unfold bind at 1. unfold bind at 1. unfold include_paths.
  rewrite (bind_run meltano _ emptied doc (with_meltano emptied doc) Hm).
  unfold bind, lift. destruct doc as [s|m|l]; cbn [get]; auto.
  exfalso. now apply (Hd m).
Qed.

(** X4. A project whose root file names no include pattern ([include_paths]
    missing or empty): [load] returns the root document as it is, and the
    index is empty. *)
Theorem load_without_include_paths (w : world) (m : list (string * value)) :
  holds (disk w) (_meltano_file_path (self w)) (Dict m) ->
  lookup "include_paths" m = None \/ lookup "include_paths" m = Some (Seq []) ->
  load w
  = (Ok (Dict m),
     mkWorld (mkProjectFiles (root (self w)) (Dict m) (_meltano_file_path (self w)) [])
             (disk w) (logged w)).
Proof.
  intros Hh Hp. rewrite (load_run w m [] Hh).
  - cbn [gathered]. reflexivity.
  - cbn [get]. destruct Hp as [-> | ->]; reflexivity.
  - constructor.
  - reflexivity.
Qed.

(** X5. The [meltano] property reads the root file once: until [reset_cache],
    what is written to the disk is not seen; after it, it is. *)
Theorem meltano_cached_until_reset (w : world) (doc : value) (w1 : world)
        (d' : filesystem) (doc' : value) :
  meltano w = (Ok doc, w1) ->
  doc <> None_ ->
  holds d' (_meltano_file_path (self w)) doc' ->
  meltano (on_disk w1 d') = (Ok doc, on_disk w1 d')
  /\ fst (bind reset_cache (fun _ => meltano) (on_disk w1 d')) = Ok doc'.
Proof.
  intros Hm Hd Hh.
  assert (Hw1 : _meltano (self w1) = doc /\ _meltano_file_path (self w1) = _meltano_file_path (self w)).
  { unfold meltano, bind, get_self in Hm.
    destruct (_meltano (self w)) as [[|z|s]|mm|l] eqn:Ec;
      try (unfold ret in Hm; inversion Hm; subst; auto; fail).
    unfold read_yaml in Hm.
    destruct (entries (disk w) (_meltano_file_path (self w))) as [[|[x|]]|];
      try discriminate.
    cbn in Hm. inversion Hm; subst. cbn. auto. }
  destruct Hw1 as [Hc Hp]. split.
  - unfold meltano, bind, get_self. proj. rewrite Hc.
    destruct doc as [[|z|s]|mm|l]; try reflexivity. now contradiction Hd.
  - unfold bind at 1. cbn [reset_cache set_meltano].
    rewrite (meltano_read _ doc'); auto. proj. now rewrite Hp.
Qed.

(** ** What [update] leaves of the object *)

Lemma meltano_fields (w : world) (r : result value) (w1 : world) :
  meltano w = (r, w1) ->
  root (self w1) = root (self w)
  /\ _meltano_file_path (self w1) = _meltano_file_path (self w)
  /\ _plugin_file_map (self w1) = _plugin_file_map (self w)
  /\ logged w1 = logged w.
Proof.
  unfold meltano, bind, get_self. intros H.
  destruct (_meltano (self w)) as [[|z|s]|mm|l];
    try (unfold ret in H; inversion H; subst; auto; fail).
  unfold read_yaml in H.
  destruct (entries (disk w) (_meltano_file_path (self w))) as [[|[x|]]|];
    cbn in H; inversion H; subst; cbn; auto.
Qed.

Lemma include_paths_Ok_fields (w : world) (paths : list path) (w1 : world) :
  include_paths w = (Ok paths, w1) ->
  root (self w1) = root (self w)
  /\ _meltano_file_path (self w1) = _meltano_file_path (self w)
  /\ _plugin_file_map (self w1) = _plugin_file_map (self w)
  /\ logged w1 = logged w.
Proof.
  unfold include_paths. intros H. unfold bind at 1 in H.
  destruct (meltano w) as [[doc|e] w0] eqn:Em; [|discriminate].
  apply meltano_fields in Em. unfold bind at 1 in H. unfold lift in H.
  destruct (get doc "include_paths" (Seq [])) as [v|e]; [|discriminate].
  apply resolve_include_paths_Ok in H. destruct H as [pats [_ [_ [_ [_ ->]]]]]. exact Em.
Qed.

(** An [update] that returns: the state it leaves. *)
Lemma update_Ok_state (config : value) (w : world) (r : value) (w' : world) :
  update config w = (Ok r, w') ->
  r = config
  /\ _meltano (self w') = None_
  /\ root (self w') = root (self w)
  /\ _meltano_file_path (self w') = _meltano_file_path (self w)
  /\ _plugin_file_map (self w') = _plugin_file_map (self w)
  /\ logged w' = logged w.
Proof.
  intros H. rewrite update_run in H.
  destruct (_split_config_dict (self w) config) as [fd|e]; [|discriminate].
  destruct (items_of fd) as [groups|e]; [|discriminate].
  destruct (include_paths (on_disk w (written groups (disk w)))) as [[paths|e] w1] eqn:Ei;
    [|discriminate].
  apply include_paths_Ok_fields in Ei. proj.
  inversion H; subst r w'. cbn [reset_cache set_meltano snd]. proj. tauto.
Qed.

(** X6. When [update] returns, it returns the configuration it was given, the
    cache is empty, and the origin index and the log are as they were: the
    index still is the one of the last [load]. *)
Theorem update_returns_its_input (config : value) (w : world) (r : value) (w' : world) :
  update config w = (Ok r, w') ->
  r = config
  /\ _meltano (self w') = None_
  /\ _plugin_file_map (self w') = _plugin_file_map (self w)
  /\ logged w' = logged w.
Proof.
  intros H. apply update_Ok_state in H. tauto.
Qed.

(** X7. After an [update] that returned, the [meltano] property reads the root
    file again and yields the group the split made for the root file. *)
Theorem update_then_meltano (config : value) (w : world) (r : value) (w' : world) :
  update config w = (Ok r, w') ->
  exists groups rootgroup,
    _split_config_dict (self w) config = Ok (Dict groups)
    /\ lookup (_meltano_file_path (self w)) groups = Some rootgroup
    /\ meltano w' = (Ok rootgroup, with_meltano w' rootgroup).
Proof.
  intros H. pose proof (update_Ok_state _ _ _ _ H) as [_ [Hc [_ [Hp _]]]].
  apply update_Ok in H.
  destruct H as [groups [paths [w1 [Hs [_ [_ [Hroot [_ Hheld]]]]]]]].
  cbn [contains] in Hroot.
  destruct (lookup (_meltano_file_path (self w)) groups) as [G|] eqn:EG; [|discriminate].
  exists groups, G. split; auto. split; auto.
  apply meltano_read; auto. rewrite Hp. unfold holds. now apply Hheld.
Qed.

(** X8. When the split returns but resolving the include list then raises,
    [update] raises the same, after the groups were written: every file with
    a group holds it, no file is blanked, and the cache is not reset. *)
Theorem update_fails_after_writing (config : value) (w : world)
        (groups : list (string * value)) (e : exn) (w1 : world) :
  _split_config_dict (self w) config = Ok (Dict groups) ->
  include_paths (on_disk w (written groups (disk w))) = (Raise e, w1) ->
  update config w = (Raise e, w1)
  /\ disk w1 = written groups (disk w)
  /\ forall p contents, lookup p groups = Some contents -> holds (disk w1) p contents.
Proof.
  intros Hs Hi. rewrite update_run, Hs. cbn [items_of]. rewrite Hi.
  pose proof (keeps_disk_include_paths _ Hi) as Hd. proj.
  split; auto. split; auto. intros p contents Hl. unfold holds. rewrite Hd.
  apply entries_written_in; auto.
  rewrite split_config_dict_run in Hs.
  destruct (split_loop (self w) config) as [fd|e0] eqn:El; [|discriminate].
  destruct (split_loop_Ok _ _ El) as [entries_ [g [_ [-> [N _]]]]].
  destruct (assigns_root (self w) config); [|discriminate].
  destruct (commented_root (self w) config); [|discriminate]. now inversion Hs; subst.
Qed.

(** ** The files [update] writes *)

Lemma file_for_range (me : ProjectFiles) (o : occurrence) (f : string) :
  file_for me o = Ok f ->
  f = _meltano_file_path me \/ In f (map snd (_plugin_file_map me)).
Proof.
  unfold file_for, file_of. intros H.
  destruct (key_tuple o) as [t|e]; [|discriminate]. cbn [rbind] in H.
  destruct (hashed t) as [k|e]; [|discriminate]. cbn [rbind] in H.
  destruct (index_get (_plugin_file_map me) k) as [file|] eqn:E.
  - right. inversion H; subst. apply index_get_Some_In in E.
    apply (in_map snd) in E. exact E.
  - left. now inversion H.
Qed.

Lemma sent_to_range (me : ProjectFiles) (f : string) (o : occurrence) :
  sent_to me f o = true ->
  f = _meltano_file_path me \/ In f (map snd (_plugin_file_map me)).
Proof.
  unfold sent_to. destruct (file_for me o) as [f0|e] eqn:E; [|discriminate].
  intros H. apply String.eqb_eq in H. subst f0. now apply (file_for_range me o).
Qed.

(** The groups of the split are for the root file and for files of the
    index. *)
Lemma group_files (me : ProjectFiles) (config : value) (g : list (string * value)) (f : string) :
  split_loop me config = Ok (Dict g) -> In f (keys g) ->
  f = _meltano_file_path me \/ In f (map snd (_plugin_file_map me)).
Proof.
  intros H Hin. apply split_loop_Ok in H.
  destruct H as [entries_ [g0 [_ [E [_ [_ [Hc _]]]]]]]. inversion E; subst g0.
  apply mem_In in Hin. rewrite <- contains_keys, Hc in Hin.
  apply orb_true_iff in Hin. destruct Hin as [Hin|Hin].
  - apply existsb_exists in Hin. destruct Hin as [o [_ Ho]]. now apply (sent_to_range me f o).
  - apply andb_true_iff in Hin. destruct Hin as [Hf _]. left. now apply String.eqb_eq.
Qed.

Lemma split_config_dict_loop (me : ProjectFiles) (config fd : value) :
  _split_config_dict me config = Ok fd -> split_loop me config = Ok fd.
Proof.
  rewrite split_config_dict_run. destruct (split_loop me config) as [fd0|e]; [|discriminate].
  destruct (assigns_root me config); [|discriminate].
  destruct (commented_root me config); [|discriminate]. auto.
Qed.

(** X9. When [update] returns, the only files whose content may have changed are
    the root file, the files the origin index names, and the include files
    it resolved: every other path has what it had. *)
Theorem update_writes_known_files (config : value) (w : world) (r : value) (w' : world) :
  update config w = (Ok r, w') ->
  exists groups paths w1,
    _split_config_dict (self w) config = Ok (Dict groups)
    /\ include_paths (on_disk w (written groups (disk w))) = (Ok paths, w1)
    /\ forall p, p <> _meltano_file_path (self w) ->
                 ~ In p (map snd (_plugin_file_map (self w))) ->
                 ~ In p paths ->
                 entries (disk w') p = entries (disk w) p.
Proof.
  intros H. rewrite update_run in H.
  destruct (_split_config_dict (self w) config) as [fd|e] eqn:Es; [|discriminate].
  pose proof (split_config_dict_loop _ _ _ Es) as El.
  destruct (@split_loop_Ok _ _ _ El) as [entries_ [g [_ [-> _]]]].
  cbn [items_of] in H.
  destruct (include_paths (on_disk w (written g (disk w)))) as [[paths|e] w1] eqn:Ei;
    [|discriminate].
  pose proof (keeps_disk_include_paths _ Ei) as Hd. proj.
  inversion H; subst r w'. clear H.
  exists g, paths, w1. split; auto. split; auto.
  intros p Hroot Hidx Hpaths. cbn [reset_cache set_meltano snd]. proj.
  rewrite entries_written_notin.
  - rewrite Hd. apply entries_written_notin. intros Hin.
    destruct (group_files _ _ _ p El Hin); tauto.
  - unfold keys. rewrite map_map. cbn [fst]. rewrite map_id. intros Hin.
    apply filter_In in Hin. tauto.
Qed.

Lemma single_group (g : list (string * value)) (f : string) (G : value) :
  NoDup (keys g) -> (forall k, In k (keys g) -> k = f) -> lookup f g = Some G ->
  g = [(f, G)].
Proof.
  intros N Hall Hl. destruct g as [|[k v] rest]; [discriminate|].
  assert (k = f) by (apply Hall; now left). subst k.
  cbn [lookup] in Hl. rewrite String.eqb_refl in Hl. inversion Hl; subst v.
  destruct rest as [|[k' v'] rest']; auto.
  exfalso. cbn [keys map fst] in N. inversion N as [|? ? Hnotin _]; subst.
  apply Hnotin. left. apply Hall. right. now left.
Qed.

Lemma records_occurrence (c : collection) (config : value) (e : value) :
  In e (records c config) -> In (c, e) (occurrences config).
Proof.
  unfold records. intros H. apply in_map_iff in H. destruct H as [[c' e'] [E H]].
  apply filter_In in H. destruct H as [Hin Hc]. cbn [fst snd] in *. subst e'.
  apply collection_eqb_eq in Hc. now subst c'.
Qed.

(** X10. [update] on an object whose origin index is empty (no [load] before, or
    a [load] of a project without include files): the split makes one group,
    for the root file, with every record of the configuration (the first of
    each name of a collection); the root file holds it, and every include
    file resolved is overwritten with [BLANK_SUBFILE]. *)
Theorem update_with_empty_index (config : value) (w : world) (r : value) (w' : world) :
  update config w = (Ok r, w') ->
  _plugin_file_map (self w) = [] ->
  exists rootgroup paths w1,
    _split_config_dict (self w) config
    = Ok (Dict [(_meltano_file_path (self w), rootgroup)])
    /\ include_paths (on_disk w (written [(_meltano_file_path (self w), rootgroup)] (disk w)))
       = (Ok paths, w1)
    /\ holds (disk w') (_meltano_file_path (self w)) rootgroup
    /\ (forall c, entities_at rootgroup c = absorb [] (records c config))
    /\ forall p, In p paths -> p <> _meltano_file_path (self w) ->
                 holds (disk w') p BLANK_SUBFILE.
Proof.
  intros H Hidx. apply update_Ok in H.
  destruct H as [groups [paths [w1 [Hs [Hi [Hblank [Hroot [_ Hheld]]]]]]]].
  pose proof (split_config_dict_loop _ _ _ Hs) as El.
  destruct (@split_loop_Ok _ _ _ El) as [entries_ [g [_ [E [N [Hkept [_ Hnamed]]]]]]].
  inversion E; subst g. clear E.
  cbn [contains] in Hroot.
  destruct (lookup (_meltano_file_path (self w)) groups) as [G|] eqn:EG; [|discriminate].
  assert (Hone : groups = [(_meltano_file_path (self w), G)]).
  { apply single_group; auto. intros k Hk.
    destruct (group_files _ _ _ k El Hk) as [->|Hin]; auto.
    rewrite Hidx in Hin. contradiction. }
  exists G, paths, w1. rewrite <- Hone.
  split; auto. split; auto. split; [now apply Hheld|]. split.
  - intros c. specialize (Hkept (_meltano_file_path (self w)) c).
    unfold kept in Hkept. cbn [dict_at] in Hkept. rewrite EG in Hkept.
    rewrite Hkept, placed_records. f_equal. apply filter_true. intros e He.
    apply records_occurrence in He. rewrite Forall_forall in Hnamed.
    destruct (Hnamed _ He) as [_ [f Hf]]. unfold sent_to. rewrite Hf.
    destruct (file_for_range _ _ _ Hf) as [->|Hin]; [apply String.eqb_refl|].
    rewrite Hidx in Hin. contradiction.
  - intros p Hp Hne. apply Hblank; auto. rewrite Hone. cbn [contains lookup].
    apply String.eqb_neq in Hne. now rewrite Hne.
Qed.

(** ** What the split does with settings and with names *)

Lemma add_to_group_settings (coll : string) (fd : value) (file : string) (entity fd' : value) :
  is_entity_key coll = true ->
  rbind (setdefault fd file (Dict []))
        (fun '(file_dict, file_dicts) =>
           rbind (add_unique file_dict coll entity) (fun file_dict =>
           setitem file_dicts file file_dict)) = Ok fd' ->
  forall f k, is_entity_key k = false -> setting_at fd' f k = setting_at fd f k.
Proof.
  intros Hcoll H f k Hk.
  inv_bind H as [file_dict fd1] Hsd. inv_bind H as file_dict' Hadd.
  destruct (@setdefault_Ok _ _ _ _ _ Hsd) as [g [-> [Hfd Hset]]].
  rewrite Hset in H. inversion H; subst fd'. clear H Hset.
  destruct (@add_unique_Ok _ _ _ _ Hadd) as [m [n [Hm [_ [_ ->]]]]].
  apply setting_at_assign.
  - cbn [dict_at]. now rewrite <- Hfd.
  - now apply entity_key_neq.
Qed.

Lemma add_plugin_settings (fd : value) (file t : string) (plugin fd' : value) :
  _add_plugin fd file t plugin = Ok fd' ->
  forall f k, is_entity_key k = false -> setting_at fd' f k = setting_at fd f k.
Proof.
  unfold _add_plugin. intros H f k Hk.
  inv_bind H as [file_dict fd1] Hsd.
  inv_bind H as [plugins_dict file_dict1] Hsd2.
  inv_bind H as plugins_dict' Hadd.
  inv_bind H as file_dict' Hset2.
  destruct (@setdefault_Ok _ _ _ _ _ Hsd) as [g [-> [Hfd Hset]]].
  destruct (@setdefault_Ok _ _ _ _ _ Hsd2) as [m [Hm [Hpd Hsetp]]].
  rewrite Hset in H. inversion H; subst fd'. clear H Hset.
  rewrite Hsetp in Hset2. inversion Hset2; subst file_dict'. clear Hset2 Hsetp.
  apply setting_at_assign.
  - cbn [dict_at]. now rewrite <- Hfd.
  - now apply entity_key_neq.
Qed.

Lemma place_settings (me : ProjectFiles) (fd : value) (o : occurrence) (fd' : value) :
  place me fd o = Ok fd' ->
  forall f k, is_entity_key k = false -> setting_at fd' f k = setting_at fd f k.
Proof.
  unfold place. intros H. inv_bind H as file Hfile. destruct o as [[t| |] e].
  - now apply (add_plugin_settings fd file t e).
  - now apply (add_to_group_settings "schedules" fd file e).
  - now apply (add_to_group_settings "environments" fd file e).
Qed.

Lemma places_settings (me : ProjectFiles) (os : list occurrence) (fd fd' : value) :
  foldM (place me) os fd = Ok fd' ->
  forall f k, is_entity_key k = false -> setting_at fd' f k = setting_at fd f k.
Proof.
  revert fd. induction os as [|o rest IH]; intros fd H f k Hk; cbn [foldM] in H.
  - now inversion H.
  - inv_bind H as fd1 H1. rewrite (IH fd1 H f k Hk). now apply (place_settings me fd o).
Qed.

Lemma split_entry_settings (me : ProjectFiles) (fd : value) (key : string) (v fd' : value) :
  split_entry me fd (key, v) = Ok fd' ->
  forall f k, is_entity_key k = false ->
              setting_at fd' f k
              = if String.eqb f (_meltano_file_path me) && String.eqb k key
                then Some v else setting_at fd f k.
Proof.
  intros H f k Hk. destruct (is_entity_key key) eqn:Hkey.
  - apply split_entry_entity in H; auto.
    rewrite (places_settings me _ fd fd' H f k Hk).
    assert (String.eqb k key = false) as ->.
    { apply String.eqb_neq. now apply entity_key_neq. }
    now rewrite andb_false_r.
  - apply split_entry_other in H; auto.
    destruct H as [g [m [-> [Hm [-> _]]]]].
    unfold setting_at. cbn [dict_at] in *. rewrite lookup_assign.
    destruct (String.eqb f (_meltano_file_path me)) eqn:Ef; cbn [andb]; auto.
    apply String.eqb_eq in Ef. subst f. rewrite Hm. rewrite lookup_assign.
    destruct (String.eqb k key); auto.
Qed.

Lemma split_entries_settings (me : ProjectFiles) (entries_ : list (string * value))
      (fd fd' : value) :
  NoDup (keys entries_) ->
  foldM (split_entry me) entries_ fd = Ok fd' ->
  forall f k, is_entity_key k = false ->
              setting_at fd' f k
              = match (if String.eqb f (_meltano_file_path me)
                       then lookup k entries_ else None) with
                | Some v => Some v
                | None => setting_at fd f k
                end.
Proof.
  revert fd. induction entries_ as [|[key v] rest IH]; intros fd N H f k Hk; cbn [foldM] in H.
  - inversion H; subst. now destruct (String.eqb f (_meltano_file_path me)).
  - cbn [keys map fst] in N. inversion N as [|? ? Hnotin N']; subst.
    inv_bind H as fd1 H1.
    rewrite (IH fd1 N' H f k Hk), (split_entry_settings me fd key v fd1 H1 f k Hk).
    cbn [lookup].
    destruct (String.eqb f (_meltano_file_path me)); cbn [andb]; auto.
    destruct (String.eqb_spec k key) as [->|Hne]; auto.
    apply lookup_None_keys in Hnotin. now rewrite Hnotin.
Qed.

(** X11. Whenever the split returns, every top-level key of the configuration
    that is no collection is in the root file's group, with the value the
    configuration has for it, and in no other group. *)
Theorem settings_go_to_root (me : ProjectFiles) (entries_ : list (string * value))
        (fd : value) :
  NoDup (keys entries_) ->
  _split_config_dict me (Dict entries_) = Ok fd ->
  forall f k, is_entity_key k = false ->
              setting_at fd f k
              = if String.eqb f (_meltano_file_path me) then lookup k entries_ else None.
Proof.
  intros N H f k Hk. apply split_config_dict_loop in H.
  unfold split_loop in H. cbn [items_of rbind] in H.
  rewrite (split_entries_settings me entries_ (Dict []) fd N H f k Hk).
  destruct (String.eqb f (_meltano_file_path me)); auto.
  destruct (lookup k entries_); auto.
Qed.

Lemma add_if_new_names (l : list value) (e : value) :
  NoDup (map name_of l) -> Forall (fun x => exists n, name_of x = Some n) l ->
  NoDup (map name_of (add_if_new l e))
  /\ Forall (fun x => exists n, name_of x = Some n) (add_if_new l e).
Proof.
  intros N F. unfold add_if_new. destruct (name_of e) as [n|] eqn:En; auto.
  destruct (existsb (has_name n) l) eqn:Ex; auto. split.
  - rewrite map_app. cbn [map]. rewrite En.
    apply NoDup_app_remove_l with (l := []). cbn [app].
    assert (Hnot : ~ In (Some n) (map name_of l)).
    { intros Hin. apply in_map_iff in Hin. destruct Hin as [x [Hx Hin]].
      assert (existsb (has_name n) l = true); [|congruence].
      apply existsb_exists. exists x. split; auto. now apply has_name_eq. }
    clear Ex. induction l as [|x rest IH]; cbn [map app].
    + constructor; [tauto | constructor].
    + inversion N; subst. inversion F; subst. constructor.
      * rewrite in_app_iff. intros [Hin|[Hin|[]]]; auto.
        apply Hnot. left. auto.
      * apply IH; auto. intros Hin. apply Hnot. now right.
  - apply Forall_app. split; auto. constructor; eauto.
Qed.

Lemma absorb_names (es l : list value) :
  NoDup (map name_of l) -> Forall (fun x => exists n, name_of x = Some n) l ->
  NoDup (map name_of (absorb l es))
  /\ Forall (fun x => exists n, name_of x = Some n) (absorb l es).
Proof.
  revert l. induction es as [|e rest IH]; intros l N F; cbn [absorb fold_left]; auto.
  destruct (add_if_new_names l e N F) as [N' F']. now apply IH.
Qed.

(** X12. Whenever the split returns, no collection of a group has two records of
    the same name, and every record in a group has a name. *)
Theorem groups_have_unique_names (me : ProjectFiles) (config fd : value)
        (f : string) (c : collection) :
  _split_config_dict me config = Ok fd ->
  NoDup (map name_of (kept fd f c))
  /\ Forall (fun e => exists n, name_of e = Some n) (kept fd f c).
Proof.
  intros H. apply split_config_dict_loop in H. apply split_loop_Ok in H.
  destruct H as [entries_ [g [_ [_ [_ [Hkept _]]]]]]. rewrite Hkept.
  apply absorb_names; constructor.
Qed.

(** X13. A record of the configuration without a usable name (no mapping, no
    [name], or a name that is a mapping or a sequence) makes [update] raise
    before anything is written: the world is as it was. *)
Theorem update_needs_names (config : value) (w : world) (c : collection) (e : value) :
  In (c, e) (occurrences config) ->
  name_of e = None ->
  exists err, update config w = (Raise err, w).
Proof.
  intros Hin Hn. rewrite update_run.
  destruct (_split_config_dict (self w) config) as [fd|err] eqn:Es; [|eauto].
  exfalso. apply split_config_dict_loop in Es. apply split_loop_Ok in Es.
  destruct Es as [entries_ [g [_ [_ [_ [_ [_ Hnamed]]]]]]].
  rewrite Forall_forall in Hnamed. destruct (Hnamed _ Hin) as [[n Hsome] _].
  cbn [snd] in Hsome. congruence.
Qed.

(** X14. A configuration that is no mapping makes [update] raise the
    [AttributeError] of [config.items()], with the world as it was. *)
Theorem update_needs_a_mapping (config : value) (w : world) :
  (forall m, config <> Dict m) ->
  update config w = (Raise AttributeError, w).
Proof.
  intros H. rewrite update_run, split_config_dict_run. unfold split_loop.
  destruct config as [s|m|l]; cbn [items_of rbind]; auto. exfalso. now apply (H m).
Qed.

(** ** [deep_merge]: stages, order of keys, kinds that clash *)

(** X15. Merging a list of children is merging its first part and then the rest
    onto the result (an exception of the first part is the exception of the
    whole). *)
Theorem deep_merge_in_stages (parent : value) (first rest : list value) :
  deep_merge parent (first ++ rest)
  = rbind (deep_merge parent first) (fun merged_first => deep_merge merged_first rest).
Proof.
  rewrite deep_merge_fold, foldM_app, <- deep_merge_fold.
  destruct (deep_merge parent first) as [r|e]; cbn [rbind]; auto.
  now rewrite deep_merge_fold.
Qed.

Lemma keys_assign (m : list (string * value)) (k : string) (v : value) :
  keys (assign k v m) = if mem k (keys m) then keys m else keys m ++ [k].
Proof.
  destruct (mem k (keys m)) eqn:E.
  - apply mem_In in E. now apply keys_assign_in.
  - apply mem_false in E. now apply keys_assign_new.
Qed.

Lemma merge_items_keys (items : list (string * value)) (b : list (string * value))
      (r : value) :
  foldM (fun base kv => merge_entry merge_child (fst kv) (snd kv) base) items (Dict b) = Ok r ->
  exists b',
    r = Dict b'
    /\ keys b' = fold_left (fun seen p => if mem p seen then seen else seen ++ [p])
                           (keys items) (keys b).
Proof.
  revert b. induction items as [|[key v] rest IH]; intros b H; cbn [foldM] in H.
  - inversion H; subst. eauto.
  - inv_bind H as base1 Hstep. cbn [fst snd] in Hstep.
    rewrite merge_entry_Dict in Hstep. inv_bind Hstep as x Hx.
    inversion Hstep; subst base1.
    destruct (IH _ H) as [b' [-> Hk]]. exists b'. split; auto.
    rewrite Hk. cbn [keys map fst fold_left]. now rewrite keys_assign.
Qed.

Lemma merge_child_Ok_Dict (child base r : value) :
  merge_child child base = Ok r -> exists items, child = Dict items.
Proof. destruct child as [s|items|l]; cbn; try discriminate. eauto. Qed.

Lemma deep_merge_keys (children : list value) (b : list (string * value)) (r : value) :
  deep_merge (Dict b) children = Ok r ->
  exists b',
    r = Dict b'
    /\ keys b' = fold_left (fun seen p => if mem p seen then seen else seen ++ [p])
                           (flat_map keys_of children) (keys b).
Proof.
  revert b. induction children as [|c rest IH]; intros b H; cbn [deep_merge] in H.
  - inversion H; subst. eauto.
  - inv_bind H as base1 Hstep.
    destruct (merge_child_Ok_Dict _ _ _ Hstep) as [items ->].
    rewrite merge_child_unfold in Hstep.
    destruct (merge_items_keys _ _ _ Hstep) as [b1 [-> Hk1]].
    destruct (IH _ H) as [b' [-> Hk]]. exists b'. split; auto.
    cbn [flat_map keys_of]. now rewrite fold_left_app, <- Hk1.
Qed.

(** X16. The keys of the composite are the keys of the root document, in their
    order, followed by the keys the included documents add, each where it
    first occurs. *)
Theorem composite_key_order (b : list (string * value)) (children : list value) (r : value) :
  deep_merge (Dict b) children = Ok r ->
  exists b',
    r = Dict b'
    /\ keys b' = keys b ++ unseen (keys b) (flat_map keys_of children).
Proof.
  intros H. destruct (deep_merge_keys _ _ _ H) as [b' [-> Hk]].
  exists b'. split; auto. now rewrite Hk, fromkeys_unseen.
Qed.

(** When the root file starts with a setting, so does the composite, and the
    group the split makes for the root file starts with it. *)
Lemma root_setting_first (me : ProjectFiles) (k0 : string) (v0 : value)
      (rest : list (string * value)) (children : list value) (C : value) :
  deep_merge (Dict ((k0, v0) :: rest)) children = Ok C ->
  is_entity_key k0 = false ->
  commented_root me C = true.
Proof.
  intros H Hk. destruct (deep_merge_keys _ _ _ H) as [b' [-> Hkeys]].
  rewrite fromkeys_unseen in Hkeys. cbn [keys map fst app] in Hkeys.
  destruct b' as [|[k1 v1] b'']; [discriminate|].
  cbn [keys map fst] in Hkeys. inversion Hkeys; subst k1.
  cbn [commented_root root_by_setting]. unfold is_other. cbn [fst]. now rewrite Hk.
Qed.

Lemma merged_mapping_on_other (old : value) (kv : string * value)
      (more : list (string * value)) :
  (forall m, old <> Dict m) -> exists e, merged (Some old) (Dict (kv :: more)) = Raise e.
Proof.
  intros H. unfold merged. rewrite deep_merge_single, merge_child_unfold. cbn [foldM].
  destruct (@merge_entry_not_Dict (fst kv) (snd kv) old H) as [e ->]. cbn [rbind]. eauto.
Qed.

(** X17. The kinds have to agree: when the root document has a value under a key
    and the first included document with that key brings a sequence where
    the root has none, or a mapping with entries where the root has no
    mapping, the merge raises. *)
Theorem merge_kinds_must_agree (b : list (string * value)) (children : list value)
        (key : string) (old v : value) (later : list value) :
  Forall well_keyed children ->
  lookup key b = Some old ->
  values_at key children = v :: later ->
  (is_seq v /\ ~ is_seq old) \/ ((exists kv more, v = Dict (kv :: more)) /\ ~ is_dict old) ->
  exists e, deep_merge (Dict b) children = Raise e.
Proof.
  intros F Hold Hv Hclash.
  destruct (deep_merge (Dict b) children) as [r|e] eqn:E; [exfalso | eauto].
  apply deep_merge_key in E; auto. destruct E as [b' [_ Hkey]].
  specialize (Hkey key). rewrite Hold, Hv in Hkey.
  unfold merged_all in Hkey. cbn [foldM] in Hkey.
  destruct Hclash as [[[l ->] Hn] | [[kv [more ->]] Hn]].
  - unfold merged in Hkey.
    destruct old as [s|m|l0]; cbn [rbind] in Hkey; try discriminate.
    apply Hn. now exists l0.
  - destruct (merged_mapping_on_other old kv more) as [e He].
    + intros m ->. apply Hn. now exists m.
    + rewrite He in Hkey. discriminate.
Qed.

(** X18. An empty mapping brought for a key changes nothing, whatever the root
    has there, also something that is no mapping. *)
Theorem empty_mapping_merges_into_anything (b : list (string * value)) (key : string)
        (old : value) :
  lookup key b = Some old ->
  exists b',
    deep_merge (Dict b) [Dict [(key, Dict [])]] = Ok (Dict b')
    /\ keys b' = keys b
    /\ forall k, lookup k b' = lookup k b.
Proof.
  intros Hold. cbn [deep_merge merge_child merge_entry setdefault]. rewrite Hold.
  cbn [rbind setitem]. eexists. split; [reflexivity|]. split.
  - apply keys_assign_in. apply lookup_Some_keys. eauto.
  - intros k. rewrite lookup_assign. destruct (String.eqb_spec k key) as [->|]; auto.
Qed.

(** ** An include file that does not parse *)

Lemma index_files_distinct_index (files : list (path * value)) (idx0 : index) :
  Forall (fun pd => Forall keyed (declared (snd pd))) files ->
  NoDup (map fst idx0 ++ flat_map (fun pd => keys_declared (snd pd)) files) ->
  index_files files idx0
  = (idx0 ++ flat_map (fun '(p, doc) => index_entries p (declared doc)) files, None).
Proof.
  intros F. revert idx0. induction F as [|[p doc] rest Hd F IH]; intros idx0 N.
  - cbn. now rewrite app_nil_r.
  - cbn [index_files flat_map snd] in *.
    rewrite (index_all_distinct p (declared doc) idx0 Hd).
    + rewrite IH.
      * now rewrite <- app_assoc.
      * rewrite map_app, map_fst_index_entries. fold key_list.
        fold (keys_declared doc). now rewrite <- app_assoc.
    + rewrite app_assoc in N. now apply NoDup_app_remove_r in N.
Qed.

Lemma load_included_file_malformed (acc : list value) (p : path) (w : world) :
  entries (disk w) p = Some (RegularFile Malformed) ->
  load_included_file acc p w = (Raise (YAMLError p), with_log w (YAMLErrorLogged p)).
Proof.
  intros H. unfold load_included_file, try_except, bind at 1, read_yaml. now rewrite H.
Qed.

(** X19. An include file that is not well-formed YAML, after include files that
    were read and indexed (the patterns being ones [Path.glob] takes, so
    that the include list was resolved): [load] raises [YAMLError] after
    logging the path; no composite comes back, nothing is written, the root
    document stays cached and the index has the entries of the files
    before. *)
Theorem malformed_include_aborts_load
        (w0 : world) (m : list (string * value)) (pats : list string)
        (before : list path) (p : path) (after : list path) (docs : list value) :
  holds (disk w0) (_meltano_file_path (self w0)) (Dict m) ->
  iterate (match get (Dict m) "include_paths" (Seq []) with
           | Ok v => v
           | Raise _ => Seq []
           end) = Ok (map Str pats) ->
  Forall (fun pat => accepts (disk w0) (root (self w0)) pat = true) pats ->
  find (invalid (disk w0)) (expansions (disk w0) (root (self w0)) pats) = None ->
  fromkeys (gathered (disk w0) (root (self w0)) (_meltano_file_path (self w0)) pats [])
  = before ++ p :: after ->
  Forall2 (holds (disk w0)) before docs ->
  Forall indexable docs ->
  NoDup (declared_keys docs) ->
  entries (disk w0) p = Some (RegularFile Malformed) ->
  load w0
  = (Raise (YAMLError p),
     mkWorld (mkProjectFiles (root (self w0)) (Dict m) (_meltano_file_path (self w0))
                             (files_index before docs))
             (disk w0) (logged w0 ++ [YAMLErrorLogged p])).
Proof.
  intros Hroot Hiter Hacc Hvalid Hpaths F Hall N Hbad.
  rewrite (load_run w0 m pats Hroot Hiter Hacc Hvalid), Hpaths.
  set (w1 := mkWorld (mkProjectFiles (root (self w0)) (Dict m)
                                     (_meltano_file_path (self w0)) [])
                     (disk w0) (logged w0)).
  assert (Hloop := load_included_files_run before docs [] w1 F Hall).
  change (_plugin_file_map (self w1)) with (@nil (entity_key * string)) in Hloop.
  rewrite (index_files_distinct_index (combine before docs) []) in Hloop.
  - cbn [app] in Hloop. unfold bind at 1. rewrite fold_each_app.
    rewrite (bind_run _ _ w1 _ _ Hloop). cbn [fold_each]. unfold bind at 1.
    rewrite load_included_file_malformed by exact Hbad. reflexivity.
  - apply Forall_forall. intros [q d] Hin. cbn [snd].
    rewrite Forall_forall in Hall. apply in_combine_r in Hin.
    destruct (Hall _ Hin) as [items [_ [_ [_ [_ Hn]]]]].
    eapply Forall_impl; [|exact Hn]. intros o [name Hname]. now exists (SStr name).
  - cbn [map app]. rewrite <- map_fst_files_index_combine.
    rewrite map_fst_files_index; auto. now apply (Forall2_length_ _ _ _ F).
Qed.

(** ** The blank subfile and the next load *)

Lemma merged_empty_mapping (old : option value) :
  merged old (Dict []) = Ok (match old with Some node => node | None => Dict [] end).
Proof. reflexivity. Qed.

(** X20. Merging [BLANK_SUBFILE] onto a root document whose [schedules], when
    there, is a sequence: the records of every collection and every other
    key stay as they are; [plugins] and [schedules] are there afterwards,
    empty if they were missing. *)
Theorem blank_subfile_adds_no_record (b : list (string * value)) :
  lookup "schedules" b = None \/ (exists l, lookup "schedules" b = Some (Seq l)) ->
  exists b',
    deep_merge (Dict b) [BLANK_SUBFILE] = Ok (Dict b')
    /\ (forall c, entities_at (Dict b') c = entities_at (Dict b) c)
    /\ (forall k, k <> "plugins" -> k <> "schedules" -> lookup k b' = lookup k b)
    /\ lookup "plugins" b'
       = Some (match lookup "plugins" b with Some v => v | None => Dict [] end)
    /\ lookup "schedules" b' = Some (Seq (seq_at (Dict b) "schedules")).
Proof.
  intros Hs. unfold BLANK_SUBFILE. rewrite deep_merge_single, merge_child_unfold.
  cbn [foldM fst snd]. rewrite merge_entry_Dict, merged_empty_mapping. cbn [rbind].
  rewrite merge_entry_Dict. rewrite lookup_assign. cbn [String.eqb Ascii.eqb Bool.eqb].
  set (pl := match lookup "plugins" b with Some node => node | None => Dict [] end).
  assert (Hm : merged (lookup "schedules" b) (Seq [])
               = Ok (Seq (seq_at (Dict b) "schedules"))).
  { cbn [seq_at]. destruct Hs as [-> | [l ->]]; cbn [merged]; auto.
    now rewrite app_nil_r. }
  rewrite Hm. cbn [rbind]. eexists. split; [reflexivity|].
  split; [|split; [|split]].
  - intros [t| |]; cbn [entities_at seq_at dict_at]; rewrite !lookup_assign;
      cbn [String.eqb Ascii.eqb Bool.eqb].
    + subst pl. destruct (lookup "plugins" b); reflexivity.
    + reflexivity.
    + reflexivity.
  - intros k Hp Hsch. rewrite !lookup_assign.
    apply String.eqb_neq in Hp, Hsch. now rewrite Hp, Hsch.
  - rewrite !lookup_assign. reflexivity.
  - rewrite !lookup_assign. reflexivity.
Qed.

(** ** What [update] leaves in each file of a project in good order *)

(** X21. On a project in good order whose include files hold records only
    (and where the first thing the split gives the root file is a setting,
    as for the round trip), [update] with the composite [load] returned
    writes back to the root file and to every include file a document equal
    to the one it held, up to the order of keys; no file is blanked. *)
Theorem update_keeps_every_file
        (w0 : world) (composite : value) (w : world)
        (rootdoc : value) (paths : list path) (docs : list value) :
  load w0 = (Ok composite, w) ->
  holds (disk w) (_meltano_file_path (self w)) rootdoc ->
  include_paths w = (Ok paths, w) ->
  Forall2 (holds (disk w)) paths docs ->
  tidy rootdoc -> wf rootdoc ->
  Forall fragment docs -> Forall wf docs ->
  NoDup (keys_declared rootdoc ++ declared_keys docs) ->
  commented_root (self w) composite = true ->
  exists w',
    update composite w = (Ok composite, w')
    /\ (exists held, holds (disk w') (_meltano_file_path (self w)) held
                     /\ py_eqb held rootdoc = true)
    /\ forall p doc, In (p, doc) (combine paths docs) ->
                     exists held, holds (disk w') p held /\ py_eqb held doc = true.
Proof.
  intros Hload Hroot Hinc Hdocs TR WR Ffrag Fwf Nkeys Hcomm.
  destruct (loaded_files w0 composite w rootdoc paths docs Hload Hroot Hinc Hdocs)
    as [mR [pats [-> [-> [Hpats [Hacc [Hvalid [Epaths Hmerge]]]]]]]].
  proj.
  set (me := mkProjectFiles (root (self w0)) (Dict mR) (_meltano_file_path (self w0))
                            (files_index paths docs)) in *.
  set (w := mkWorld me (disk w0) (logged w0)) in *.
  pose proof (Forall2_length_ _ _ _ Hdocs) as Hlen.
  assert (TD : Forall tidy docs).
  { eapply Forall_impl; [|exact Ffrag]. intros d Fd. apply Fd. }
  assert (Hrec : Forall (fun d => declared d <> []) docs).
  { eapply Forall_impl; [|exact Ffrag]. intros d Fd. now apply fragment_declares. }
  assert (Npaths : NoDup paths) by (rewrite Epaths; apply NoDup_fromkeys).
  pose proof (root_not_included _ _ _ _ _ Hroot Hdocs TD Hrec Nkeys) as Hnot.
  destruct (split_groups_alike me (Dict mR) paths docs composite eq_refl Hlen TR TD Nkeys
                               Npaths Hnot Hmerge Hcomm Hrec Ffrag)
    as [g [Hsplit [Ng [[GR [EGR AGR]] Hgroups]]]].
  exists (mkWorld (mkProjectFiles (root (self w0)) None_ (_meltano_file_path (self w0))
                                  (files_index paths docs))
                  (written g (disk w0)) (logged w0)).
  split; [|split].
  - apply (update_groups composite w g mR pats Hsplit eq_refl Hpats Hacc Hvalid).
    subst w me. proj. rewrite <- Epaths. intros p Hp.
    destruct (in_combine_exists paths docs p Hlen Hp) as [d Hd].
    destruct (Hgroups p d Hd) as [G [EG _]]. cbn [contains]. now rewrite EG.
  - exists GR. proj. split.
    + unfold holds. now apply entries_written_in.
    + now apply alike_py_eqb.
  - intros p d Hpd. destruct (Hgroups p d Hpd) as [G [EG AG]]. exists G. proj. split.
    + unfold holds. now apply entries_written_in.
    + apply alike_py_eqb; auto. rewrite Forall_forall in Fwf. apply Fwf.
      now apply in_combine_r in Hpd.
Qed.

(** ** A pattern [Path.glob] refuses *)

(** X27. When the patterns gone through were taken by [Path.glob] and matched
    regular files only, and the next item of the list is one [Path.glob]
    refuses, [_resolve_include_paths] raises the exception of [Path.glob]:
    nothing is logged, no list comes back, and what follows in the list is
    not looked at.  The exception is [ValueError] for an empty pattern and
    for [None], [NotImplementedError] for an absolute pattern. *)
Theorem refused_pattern_aborts (w : world) (pats : list string) (bad : value)
        (rest : list value) (e : exn) :
  Forall (fun pat => accepts (disk w) (root (self w)) pat = true) pats ->
  find (invalid (disk w)) (expansions (disk w) (root (self w)) pats) = None ->
  glob_value (disk w) (root (self w)) bad = Raise e ->
  _resolve_include_paths (Seq (map Str pats ++ bad :: rest)) w = (Raise e, w)
  /\ (bad = Str "" \/ bad = None_ -> e = ValueError)
  /\ (forall pat, bad = Str (String "/" pat) -> e = NotImplementedError).
Proof.
  intros Hacc Hfind Hbad. split; [|split].
  - unfold _resolve_include_paths. unfold bind at 1. unfold get_self at 1.
    unfold bind at 1. unfold lift at 1. cbn [iterate].
    unfold bind at 1. rewrite fold_each_app. unfold bind at 1.
    rewrite resolve_patterns_run by exact Hacc. rewrite Hfind.
    cbn [fold_each]. unfold bind at 1. unfold resolve_pattern at 1.
    unfold bind at 1. unfold get_disk at 1. unfold bind at 1. unfold lift at 1.
    now rewrite Hbad.
  - intros [-> | ->]; cbn in Hbad; congruence.
  - intros pat ->. cbn in Hbad. congruence.
Qed.

(** ** Adding to the origin index *)

Lemma index_get_last (idx : index) (k k' : entity_key) (p : string) :
  index_get (idx ++ [(k, p)]) k'
  = match index_get idx k' with
    | Some f => Some f
    | None => if key_eqb k' k then Some p else None
    end.
Proof. rewrite index_get_app. reflexivity. Qed.

(** X22. [_add_to_index] with a key that is not in the index: the key is there
    afterwards with the path, every key that was there keeps its file, and
    no other key comes in. *)
Theorem add_to_index_then_get (key : tuple) (k : entity_key) (p : path) (w : world) :
  hashed key = Ok k ->
  index_get (_plugin_file_map (self w)) k = None ->
  exists w',
    _add_to_index key p w = (Ok tt, w')
    /\ index_get (_plugin_file_map (self w')) k = Some p
    /\ (forall k', k' <> k ->
                   index_get (_plugin_file_map (self w')) k'
                   = index_get (_plugin_file_map (self w)) k')
    /\ disk w' = disk w /\ logged w' = logged w.
Proof.
  intros Hk Hnew. unfold _add_to_index, bind, get_self, lift. rewrite Hk, Hnew.
  unfold set_plugin_file_map. eexists. split; [reflexivity|]. proj.
  split; [|split; [|split; reflexivity]].
  - rewrite index_get_last, Hnew. now rewrite key_eqb_refl.
  - intros k' Hne. rewrite index_get_last.
    destruct (index_get (_plugin_file_map (self w)) k'); auto.
    destruct (key_eqb k' k) eqn:E; auto. apply key_eqb_eq in E. contradiction.
Qed.

Lemma join_not_string (c : collection) (n : scalar) :
  (forall s, n <> SStr s) -> join ":" (tuple_of c (Scalar n)) = Raise TypeError.
Proof.
  intros H. destruct n as [|z|s]; [| | exfalso; now apply (H s)];
    destruct c; reflexivity.
Qed.

(** X23. A key that is in the index already and whose name is no string (a
    number, [None]): the report of the duplicate breaks on [":".join(key)];
    what is raised is its [TypeError], nothing is logged, and the index is
    as it was. *)
Theorem duplicate_of_a_name_that_is_no_string
        (c : collection) (n : scalar) (p : path) (w : world) (f : string) :
  index_get (_plugin_file_map (self w)) (key_of c n) = Some f ->
  (forall s, n <> SStr s) ->
  _add_to_index (tuple_of c (Scalar n)) p w = (Raise TypeError, w).
Proof.
  intros Hin Hn. unfold _add_to_index, bind, get_self, lift.
  rewrite hashed_key_of, Hin, (join_not_string c n Hn). reflexivity.
Qed.

(* ===================================================================== *)
(** * [ProjectAddService.add_related] *)
(* ===================================================================== *)

Module AddServiceFacts.
Import AddService.

Section Facts.
Variables PluginType Plugin PluginInstall Services E : Type.
Variable c : collaborators PluginType Plugin PluginInstall Services E.

(** [==] on [PluginType] is equality. *)
Hypothesis type_eqb_eq : forall a b, type_eqb c a b = true <-> a = b.

Lemma In_remove (x y : PluginType) (l : list PluginType) :
  In y (remove c x l) -> In y l.
Proof.
  induction l as [|t rest IH]; cbn [remove]; auto.
  destruct (type_eqb c x t); cbn [In]; tauto.
Qed.

Lemma remove_NoDup (x : PluginType) (l : list PluginType) :
  NoDup l -> NoDup (remove c x l) /\ ~ In x (remove c x l).
Proof.
  induction 1 as [|t rest Hnotin N IH]; cbn [remove].
  - split; [constructor | tauto].
  - destruct (type_eqb c x t) eqn:Ex.
    + apply type_eqb_eq in Ex. subst t. split; auto.
    + destruct IH as [N' Hx]. split.
      * constructor; auto. intros Hin. apply Hnotin. now apply (In_remove x).
      * intros [->|Hin]; [|tauto].
        assert (type_eqb c x x = true) by now apply type_eqb_eq. congruence.
Qed.

Lemma related_In (target : PluginInstall) (types : list PluginType)
      (discovered : list Plugin) (plugin : Plugin) :
  In plugin (related_plugins c target types discovered) ->
  In plugin discovered
  /\ plugin_namespace c plugin = target_namespace c target
  /\ In (plugin_type c plugin) types.
Proof.
  unfold related_plugins. intros H. apply filter_In in H. destruct H as [Hin H].
  apply andb_true_iff in H. destruct H as [Hn Ht]. split; auto. split.
  - now apply String.eqb_eq.
  - apply existsb_exists in Ht. destruct Ht as [t [Hin' Ht]].
    apply type_eqb_eq in Ht. now subst t.
Qed.

(** X24. The plugins [add_related] tries to add, for a type list without
    repetition: discovered plugins of the target's namespace, of a type of
    the list, never of the target's own type (so never the target itself). *)
Theorem related_plugins_are_related
        (target : PluginInstall) (types : list PluginType) (discovered : list Plugin)
        (plugin : Plugin) :
  NoDup types ->
  In plugin (related_plugins c target (remove c (target_type c target) types) discovered) ->
  In plugin discovered
  /\ plugin_namespace c plugin = target_namespace c target
  /\ In (plugin_type c plugin) types
  /\ plugin_type c plugin <> target_type c target.
Proof.
  intros N H. apply related_In in H. destruct H as [Hd [Hn Ht]].
  split; auto. split; auto. split; [now apply (In_remove (target_type c target))|].
  intros E0. rewrite E0 in Ht. now apply (remove_NoDup (target_type c target) types N).
Qed.

Lemma add_related_types (target : PluginInstall) (types : list PluginType) (s : Services) :
  snd (add_related c target types s) = remove c (target_type c target) types.
Proof.
  unfold add_related. destruct (plugins c s) as [[discovered|e] s1]; reflexivity.
Qed.

(** X25. The default of [plugin_types] is one list for all calls: a call that
    leaves the argument out takes the target's type out of it, whether it
    returns or raises, and a later such call, for whatever target, tries no
    plugin of that type any more. *)
Theorem default_types_shrink
        (first second : PluginInstall) (w : world PluginType Services)
        (discovered : list Plugin) (plugin : Plugin) :
  NoDup (default_plugin_types w) ->
  default_plugin_types (snd (add_related_by_default c first w))
  = remove c (target_type c first) (default_plugin_types w)
  /\ (In plugin
         (related_plugins c second
            (remove c (target_type c second)
                    (default_plugin_types (snd (add_related_by_default c first w))))
            discovered) ->
      plugin_type c plugin <> target_type c first).
Proof.
  intros N.
  assert (Hd : default_plugin_types (snd (add_related_by_default c first w))
               = remove c (target_type c first) (default_plugin_types w)).
  { unfold add_related_by_default.
    pose proof (add_related_types first (default_plugin_types w) (services w)) as H.
    destruct (add_related c first (default_plugin_types w) (services w)) as [[o s] t].
    exact H. }
  split; [exact Hd|]. rewrite Hd. intros H. apply related_In in H.
  destruct H as [_ [_ Ht]]. apply In_remove in Ht. intros E0. rewrite E0 in Ht.
  now apply (remove_NoDup (target_type c first) (default_plugin_types w) N).
Qed.

Lemma add_each_all_added (inv : Services -> Prop) (related : list Plugin)
      (added : list PluginInstall) (s : Services) :
  inv s ->
  (forall plugin s0, In plugin related -> inv s0 ->
                     exists s', add c (plugin_type c plugin) (plugin_name c plugin) s0
                                = (inr PluginAlreadyAddedException, s')
                                /\ inv s') ->
  fst (add_each c related added s) = inl added.
Proof.
  revert s. induction related as [|p rest IH]; intros s Hs H; cbn [add_each]; auto.
  destruct (H p s (or_introl eq_refl) Hs) as [s' [-> Hs']].
  apply IH; auto. intros plugin s0 Hin. apply H. now right.
Qed.

(** X26. When every related plugin is in the project already ([add] raises
    [PluginAlreadyAddedException] for each, in the states the services go
    through) and discovery returns, [add_related] raises nothing and returns
    the empty list. *)
Theorem add_related_when_all_are_added
        (inv : Services -> Prop)
        (target : PluginInstall) (types : list PluginType) (s s1 : Services)
        (discovered : list Plugin) :
  plugins c s = (inl discovered, s1) ->
  inv s1 ->
  (forall plugin s0,
      In plugin (related_plugins c target (remove c (target_type c target) types) discovered) ->
      inv s0 ->
      exists s', add c (plugin_type c plugin) (plugin_name c plugin) s0
                 = (inr PluginAlreadyAddedException, s')
                 /\ inv s') ->
  fst (fst (add_related c target types s)) = inl [].
Proof.
  intros Hp Hs H. unfold add_related. rewrite Hp. cbn [fst].
  now apply (add_each_all_added inv).
Qed.

End Facts.
End AddServiceFacts.

(* ===================================================================== *)
(** * The statements on concrete projects *)
(* ===================================================================== *)

Lemma run_eq {A} (m : M A) (w : world) (r : result A) :
  fst (m w) = r -> m w = (r, snd (m w)).
Proof. intros <-. apply surjective_pairing. Qed.

(** The example of the specification: [schedules: [A]] merged with
    [schedules: [B]] is [schedules: [A, B]]. *)
Lemma deep_merge_rule_witness :
  deep_merge (Dict [("schedules", Seq [Sample.A])])
             [Dict [("schedules", Seq [Sample.B])]]
  = Ok (Dict [("schedules", Seq [Sample.A; Sample.B])])
  /\ exists b',
       Dict [("schedules", Seq [Sample.A; Sample.B])] = Dict b'
       /\ lookup "schedules" b' = Some (Seq ([Sample.A] ++ [Sample.B])).
Proof.
  split; [reflexivity|].
  destruct (@deep_merge_rule [("schedules", Seq [Sample.A])]
                            [Dict [("schedules", Seq [Sample.B])]]
                            (Dict [("schedules", Seq [Sample.A; Sample.B])]))
    as [b' [E Hkeys]].
  - repeat constructor. exists [("schedules", Seq [Sample.B])]. split; auto.
    repeat constructor; simpl; tauto.
  - reflexivity.
  - exists b'. split; auto.
    destruct (Hkeys "schedules") as [_ [_ [Hseq _]]]. apply Hseq.
    + repeat constructor. eexists. reflexivity.
    + discriminate.
Defined.

Lemma sample_load : load Sample.started = (Ok Sample.composite, Sample.loaded).
Proof. apply run_eq. reflexivity. Qed.

Lemma glob_disk_of (files : list (path * node)) (globs : list (string * list path))
      (dir : path) (pat : string) :
  glob (disk_of files globs) dir pat = []
  \/ glob (disk_of files globs) dir pat
     = match lookup pat globs with Some l => l | None => [] end.
Proof.
  unfold glob, glob_result. destruct pat as [|a rest]; [now left|].
  destruct a as [[] [] [] [] [] [] [] []]; cbn; auto.
Qed.

Lemma sample_globs (pat : string) :
  count_occ string_dec (glob Sample.project "/p" pat) Sample.root_yml <= 1.
Proof.
  unfold Sample.project.
  destruct (glob_disk_of [(Sample.root_yml, RegularFile (Yaml Sample.root_doc));
                          (Sample.inc_yml, RegularFile (Yaml Sample.inc_doc))]
                         [("*.yml", [Sample.inc_yml; Sample.root_yml]);
                          ("inc.*", [Sample.inc_yml])] "/p" pat) as [-> | ->].
  - cbn. lia.
  - cbn [lookup].
    destruct (String.eqb pat "*.yml"); [vm_compute; lia|].
    destruct (String.eqb pat "inc.*"); vm_compute; lia.
Qed.

(** Two overlapping patterns, one of which matches the root file. *)
Lemma resolved_include_paths_witness :
  _resolve_include_paths (Seq [Str "*.yml"; Str "inc.*"]) Sample.started
  = (Ok [Sample.inc_yml], Sample.started).
Proof.
  destruct (@resolved_include_paths Sample.started ["*.yml"; "inc.*"]) as [l [Hrun [Hl _]]].
  - repeat constructor.
  - intros p Hp. vm_compute in Hp. destruct Hp as [<-|[<-|[<-|[]]]]; reflexivity.
  - intros pat _. apply sample_globs.
  - cbn [map] in Hrun. rewrite Hrun, Hl. reflexivity.
Defined.

(** A pattern that matches a directory, followed by a pattern [Path.glob]
    refuses and by something that is no pattern. *)
Lemma invalid_include_path_aborts_witness :
  exists offending,
    offending = "/p/conf.d"
    /\ _resolve_include_paths (Seq [Str "*"; Str "/etc/*"; None_])
                              (fresh "/p" Sample.root_yml Sample.with_directory)
       = (Raise (InvalidIncludePath offending),
          with_log (fresh "/p" Sample.root_yml Sample.with_directory)
                   (InvalidIncludeLogged offending)).
Proof.
  destruct (@invalid_include_path_aborts
              (fresh "/p" Sample.root_yml Sample.with_directory) ["*"]
              [Str "/etc/*"; None_] "/p/conf.d")
    as [offending [Hfind [_ [_ Hrun]]]].
  - repeat constructor.
  - vm_compute. tauto.
  - reflexivity.
  - exists offending. split; [|exact Hrun].
    vm_compute in Hfind. now inversion Hfind.
Defined.

(** After the load, a configuration with nothing but the schedule of the
    include file. *)
Lemma update_without_root_group_witness :
  update (Dict [("schedules", Seq [Sample.B])]) Sample.loaded
  = (Raise (KeyError Sample.root_yml), Sample.loaded).
Proof.
  destruct (@update_without_root_group (Dict [("schedules", Seq [Sample.B])]) Sample.loaded)
    as [_ [Hkey _]].
  - reflexivity.
  - destruct (Hkey (Dict [(Sample.inc_yml, Dict [("schedules", Seq [Sample.B])])]))
      as [_ Hrun]; [reflexivity | exact Hrun].
Defined.

(** After the load, a configuration that drops the schedule of the include
    file: the include file is blanked, the root file holds its group. *)
Lemma update_blanks_unused_witness :
  exists groups paths w1,
    _split_config_dict (self Sample.loaded) Sample.root_doc = Ok (Dict groups)
    /\ include_paths (on_disk Sample.loaded (written groups (disk Sample.loaded)))
       = (Ok paths, w1)
    /\ holds (disk (snd (update Sample.root_doc Sample.loaded))) Sample.inc_yml BLANK_SUBFILE
    /\ holds (disk (snd (update Sample.root_doc Sample.loaded))) Sample.root_yml
             Sample.root_doc.
Proof.
  destruct (@update_blanks_unused Sample.root_doc Sample.loaded Sample.root_doc
                                  (snd (update Sample.root_doc Sample.loaded)))
    as [groups [paths [w1 [Hs [Hp [Hblank [_ [_ Hheld]]]]]]]].
  - apply run_eq. reflexivity.
  - exists groups, paths, w1. split; [exact Hs|]. split; [exact Hp|].
    vm_compute in Hs. inversion Hs; subst groups. clear Hs.
    split.
    + apply Hblank; [|reflexivity].
      apply (f_equal fst) in Hp. vm_compute in Hp. inversion Hp. now left.
    + apply Hheld. reflexivity.
Defined.

(** The schedule [A] of the root file is not in the index: it stays in the
    root file. *)
Lemma new_entity_goes_to_root_witness :
  exists rootdoc first,
    holds (disk (snd (update Sample.composite Sample.loaded))) Sample.root_yml rootdoc
    /\ find (has_name (SStr "A")) (records Schedules Sample.composite) = Some first
    /\ In first (entities_at rootdoc Schedules).
Proof.
  destruct (@new_entity_goes_to_root Sample.composite Sample.loaded Sample.composite
              (snd (update Sample.composite Sample.loaded)) Schedules Sample.A (SStr "A"))
    as [groups [rootdoc [first [_ [_ [Hh [Hf [Hi _]]]]]]]].
  - apply run_eq. reflexivity.
  - vm_compute. tauto.
  - reflexivity.
  - reflexivity.
  - exists rootdoc, first. auto.
Defined.

(** The schedule [B] came from the include file: it goes back there. *)
Lemma indexed_entity_goes_back_witness :
  Sample.inc_yml <> Sample.root_yml
  /\ exists doc first,
       holds (disk (snd (update Sample.composite Sample.loaded))) Sample.inc_yml doc
       /\ find (has_name (SStr "B")) (records Schedules Sample.composite) = Some first
       /\ In first (entities_at doc Schedules).
Proof.
  destruct (@indexed_entity_goes_back Sample.started Sample.loaded
              (snd (update Sample.composite Sample.loaded))
              Sample.composite Sample.composite Sample.composite
              Schedules Sample.B (SStr "B") Sample.inc_yml)
    as [Hne [_ [doc [rootdoc [first [Hh [_ [Hf [Hi _]]]]]]]]].
  - exact sample_load.
  - intros pat. apply sample_globs.
  - reflexivity.
  - apply run_eq. reflexivity.
  - vm_compute. tauto.
  - reflexivity.
  - split; [exact Hne|]. exists doc, first. auto.
Defined.

(** The load of the sample project went through its include file. *)
Lemma include_keys_distinct_witness :
  exists rootdoc paths docs,
    include_paths Sample.loaded = (Ok paths, Sample.loaded)
    /\ NoDup (declared_keys docs)
    /\ deep_merge rootdoc docs = Ok Sample.composite.
Proof.
  destruct (@include_keys_distinct Sample.started Sample.composite Sample.loaded sample_load)
    as [rootdoc [paths [docs [_ [Hp [_ [_ [N [_ Hm]]]]]]]]].
  exists rootdoc, paths, docs. auto.
Defined.

(** C6, the claim as stated, fails: the root file and an include file both
    declare the schedule [daily], and [load] returns, with both in the
    composite. *)
Lemma root_duplicate_loads :
  In [SStr "schedules"; SStr "daily"]
     (keys_declared (Dict [("include_paths", Seq [Str "*.yml"]);
                           ("schedules", Seq [Sample.daily])]))
  /\ In [SStr "schedules"; SStr "daily"]
        (keys_declared (Dict [("schedules", Seq [Sample.daily])]))
  /\ fst (load (fresh "/p" Sample.root_yml Sample.shared))
     = Ok (Dict [("include_paths", Seq [Str "*.yml"]);
                 ("schedules", Seq [Sample.daily; Sample.daily])]).
Proof. vm_compute. repeat split; auto. Qed.

(** C5, the claim as stated, fails: two include files declare [daily]; the
    exception has no path in it, and the one record logged names the first
    file only. *)
Lemma duplicate_report_names_one_file :
  fst (load (fresh "/p" Sample.root_yml Sample.twice)) = Raise DuplicatePluginName
  /\ paths_in_exn DuplicatePluginName = []
  /\ logged (snd (load (fresh "/p" Sample.root_yml Sample.twice)))
     = [AlreadyAddedLogged "schedules:daily" Sample.a_yml]
  /\ mem Sample.b_yml
         (flat_map paths_in_log (logged (snd (load (fresh "/p" Sample.root_yml Sample.twice)))))
     = false.
Proof. vm_compute. repeat split. Qed.

Lemma duplicate_across_includes_witness :
  exists w' duplicate first,
    load (fresh "/p" Sample.root_yml Sample.twice) = (Raise DuplicatePluginName, w')
    /\ logged w' = [AlreadyAddedLogged (key_path_string duplicate) first]
    /\ index_get (_plugin_file_map (self w')) duplicate = Some first
    /\ exists before doc after,
         combine [Sample.a_yml; Sample.b_yml]
                 [Dict [("schedules", Seq [Sample.daily])];
                  Dict [("schedules", Seq [Sample.daily])]]
         = before ++ (first, doc) :: after
         /\ (forall p d, In (p, d) before -> ~ In duplicate (keys_declared d))
         /\ In duplicate (keys_declared doc)
         /\ (repeated duplicate (keys_declared doc)
             \/ exists second doc', In (second, doc') after
                                    /\ second <> first
                                    /\ In duplicate (keys_declared doc')).
Proof.
  destruct (@duplicate_across_includes
              (fresh "/p" Sample.root_yml Sample.twice)
              [("include_paths", Seq [Str "*.yml"])] ["*.yml"]
              [Dict [("schedules", Seq [Sample.daily])];
               Dict [("schedules", Seq [Sample.daily])]]
              Sample.a_yml Sample.b_yml
              (Dict [("schedules", Seq [Sample.daily])])
              (Dict [("schedules", Seq [Sample.daily])])
              [SStr "schedules"; SStr "daily"])
    as [w' [duplicate [first [Hrun [_ [Hlog [Hget [Hfirst _]]]]]]]].
  - reflexivity.
  - reflexivity.
  - repeat constructor.
  - reflexivity.
  - repeat constructor.
  - repeat constructor;
      (exists [("schedules", Seq [Sample.daily])]; repeat split;
       [eexists; reflexivity | repeat constructor; exists "daily"; reflexivity]).
  - vm_compute. tauto.
  - vm_compute. tauto.
  - discriminate.
  - vm_compute. tauto.
  - vm_compute. tauto.
  - exists w', duplicate, first. auto.
Defined.

Ltac distinct := repeat constructor; cbn; intuition discriminate.

Ltac in_order :=
  eexists; split; [reflexivity|];
  cbn; repeat (split || constructor);
  try discriminate; try (eexists; reflexivity); try (cbn; intuition discriminate).


(** The round trip needs the group of the root file to start with a setting:
    with a root file that starts with its schedules, [load] returns and
    [update] with the composite raises, writing nothing. *)
Lemma update_of_records_first_root :
  let started := fresh "/p" Sample.root_yml Sample.records_first in
  let composite :=
    Dict [("schedules", Seq [Sample.A; Sample.B]); ("include_paths", Seq [Str "*.yml"])] in
  fst (load started) = Ok composite
  /\ commented_root (self (snd (load started))) composite = false
  /\ update composite (snd (load started)) = (Raise AttributeError, snd (load started)).
Proof. vm_compute. repeat split. Qed.


(* ===================================================================== *)
(** * The further properties on concrete projects *)
(* ===================================================================== *)

Lemma unreadable_root_aborts_load_witness :
  load (fresh "/p" Sample.root_yml Sample.broken_root)
  = (Raise (YAMLError Sample.root_yml), fresh "/p" Sample.root_yml Sample.broken_root)
  /\ load (fresh "/p" Sample.root_yml (disk_of [] []))
     = (Raise (OSError Sample.root_yml), fresh "/p" Sample.root_yml (disk_of [] [])).
Proof.
  split.
  - apply (proj1 (unreadable_root_aborts_load (fresh "/p" Sample.root_yml Sample.broken_root))).
    reflexivity.
  - apply (proj2 (unreadable_root_aborts_load (fresh "/p" Sample.root_yml (disk_of [] [])))).
    reflexivity.
Defined.

Lemma non_mapping_root_aborts_load_witness :
  load (fresh "/p" Sample.root_yml Sample.empty_root)
  = (Raise AttributeError, fresh "/p" Sample.root_yml Sample.empty_root).
Proof.
  apply (non_mapping_root_aborts_load (fresh "/p" Sample.root_yml Sample.empty_root) None_).
  - reflexivity.
  - discriminate.
Defined.

Lemma load_without_include_paths_witness :
  fst (load (fresh "/p" Sample.root_yml Sample.plain)) = Ok Sample.plain_doc
  /\ _plugin_file_map (self (snd (load (fresh "/p" Sample.root_yml Sample.plain)))) = [].
Proof.
  rewrite (load_without_include_paths
             (fresh "/p" Sample.root_yml Sample.plain)
             [("version", Scalar (SInt 1)); ("schedules", Seq [Sample.A])]).
  - split; reflexivity.
  - reflexivity.
  - left. reflexivity.
Defined.

(** The root document read on the sample project stays cached when the
    root file is replaced, and is read again after [reset_cache]. *)
Lemma meltano_cached_until_reset_witness :
  meltano (on_disk (snd (meltano Sample.started)) Sample.plain)
  = (Ok Sample.root_doc, on_disk (snd (meltano Sample.started)) Sample.plain)
  /\ fst (bind reset_cache (fun _ => meltano)
               (on_disk (snd (meltano Sample.started)) Sample.plain))
     = Ok Sample.plain_doc.
Proof.
  apply (meltano_cached_until_reset Sample.started Sample.root_doc
                                    (snd (meltano Sample.started))).
  - apply run_eq. reflexivity.
  - discriminate.
  - reflexivity.
Defined.

Lemma sample_update :
  update Sample.composite Sample.loaded
  = (Ok Sample.composite, snd (update Sample.composite Sample.loaded)).
Proof. apply run_eq. reflexivity. Qed.

Lemma update_returns_its_input_witness :
  _meltano (self (snd (update Sample.composite Sample.loaded))) = None_
  /\ _plugin_file_map (self (snd (update Sample.composite Sample.loaded)))
     = [([SStr "schedules"; SStr "B"], Sample.inc_yml)].
Proof.
  destruct (update_returns_its_input Sample.composite Sample.loaded Sample.composite
                                     (snd (update Sample.composite Sample.loaded))
                                     sample_update)
    as [_ [Hc [Hi _]]].
  split; [exact Hc|]. rewrite Hi. reflexivity.
Defined.

Lemma update_then_meltano_witness :
  exists rootgroup,
    fst (meltano (snd (update Sample.composite Sample.loaded))) = Ok rootgroup
    /\ rootgroup = Sample.root_doc.
Proof.
  destruct (update_then_meltano Sample.composite Sample.loaded Sample.composite
                                (snd (update Sample.composite Sample.loaded))
                                sample_update)
    as [groups [rootgroup [Hs [Hl Hm]]]].
  exists rootgroup. rewrite Hm. split; [reflexivity|].
  vm_compute in Hs. inversion Hs; subst groups. vm_compute in Hl. now inversion Hl.
Defined.

(** A configuration whose pattern matches a directory, given to an object
    that has not loaded: the root file is written, then resolving raises. *)
Lemma update_fails_after_writing_witness :
  let w := fresh "/p" Sample.root_yml Sample.with_directory in
  let config := Dict [("include_paths", Seq [Str "*"])] in
  fst (update config w) = Raise (InvalidIncludePath "/p/conf.d")
  /\ holds (disk (snd (update config w))) Sample.root_yml config.
Proof.
  intros w config.
  destruct (update_fails_after_writing
              config w [(Sample.root_yml, config)] (InvalidIncludePath "/p/conf.d")
              (snd (include_paths (on_disk w (written [(Sample.root_yml, config)] (disk w))))))
    as [Hu [_ Hh]].
  - reflexivity.
  - apply run_eq. reflexivity.
  - rewrite Hu. split; [reflexivity|]. cbn [snd]. apply Hh. reflexivity.
Defined.

Lemma update_writes_known_files_witness :
  entries (disk (snd (update Sample.composite Sample.loaded))) Sample.a_yml
  = entries (disk Sample.loaded) Sample.a_yml.
Proof.
  destruct (update_writes_known_files Sample.composite Sample.loaded Sample.composite
                                      (snd (update Sample.composite Sample.loaded))
                                      sample_update)
    as [groups [paths [w1 [Hs [Hi Hsame]]]]].
  apply Hsame.
  - discriminate.
  - vm_compute. intuition discriminate.
  - vm_compute in Hs. inversion Hs; subst groups.
    apply (f_equal fst) in Hi. vm_compute in Hi. inversion Hi; subst paths.
    cbn. intuition discriminate.
Defined.

(** The composite of the sample project given to an object that has not
    loaded: both schedules go to the root file, the include file is
    blanked. *)
Lemma update_with_empty_index_witness :
  exists rootgroup,
    holds (disk (snd (update Sample.composite Sample.started))) Sample.root_yml rootgroup
    /\ entities_at rootgroup Schedules = [Sample.A; Sample.B]
    /\ holds (disk (snd (update Sample.composite Sample.started))) Sample.inc_yml
             BLANK_SUBFILE.
Proof.
  destruct (update_with_empty_index Sample.composite Sample.started Sample.composite
                                    (snd (update Sample.composite Sample.started)))
    as [rootgroup [paths [w1 [Hs [Hi [Hh [He Hb]]]]]]].
  - apply run_eq. reflexivity.
  - reflexivity.
  - exists rootgroup. split; [exact Hh|]. split; [rewrite He; reflexivity|].
    apply Hb; [|discriminate].
    vm_compute in Hs. inversion Hs; subst rootgroup.
    apply (f_equal fst) in Hi. vm_compute in Hi. inversion Hi; subst paths. now left.
Defined.

Lemma settings_go_to_root_witness :
  let fd := Dict [(Sample.root_yml, Dict [("include_paths", Seq [Str "*.yml"]);
                                          ("schedules", Seq [Sample.A])]);
                  (Sample.inc_yml, Dict [("schedules", Seq [Sample.B])])] in
  _split_config_dict (self Sample.loaded) Sample.composite = Ok fd
  /\ setting_at fd Sample.root_yml "include_paths" = Some (Seq [Str "*.yml"])
  /\ setting_at fd Sample.inc_yml "include_paths" = None.
Proof.
  intros fd. split; [reflexivity|].
  assert (H : forall f k, is_entity_key k = false ->
                          setting_at fd f k
                          = if String.eqb f (_meltano_file_path (self Sample.loaded))
                            then lookup k [("include_paths", Seq [Str "*.yml"]);
                                           ("schedules", Seq [Sample.A; Sample.B])]
                            else None).
  { apply (settings_go_to_root
             (self Sample.loaded)
             [("include_paths", Seq [Str "*.yml"]); ("schedules", Seq [Sample.A; Sample.B])]
             fd).
    - repeat constructor; cbn; intuition discriminate.
    - reflexivity. }
  split; rewrite H; reflexivity.
Defined.

(** [A] twice in the configuration: the root group has it once. *)
Lemma groups_have_unique_names_witness :
  let config := Dict [("include_paths", Seq [Str "*.yml"]);
                      ("schedules", Seq [Sample.A; Sample.B; Sample.A])] in
  let fd := Dict [(Sample.root_yml, Dict [("include_paths", Seq [Str "*.yml"]);
                                          ("schedules", Seq [Sample.A])]);
                  (Sample.inc_yml, Dict [("schedules", Seq [Sample.B])])] in
  _split_config_dict (self Sample.loaded) config = Ok fd
  /\ NoDup (map name_of (kept fd Sample.root_yml Schedules)).
Proof.
  intros config fd. split; [reflexivity|].
  apply (groups_have_unique_names (self Sample.loaded) config fd Sample.root_yml Schedules).
  reflexivity.
Defined.

(** A schedule without a name. *)
Lemma update_needs_names_witness :
  exists err,
    update (Dict [("version", Scalar (SInt 1)); ("schedules", Seq [Dict []])]) Sample.loaded
    = (Raise err, Sample.loaded).
Proof.
  apply (update_needs_names
           (Dict [("version", Scalar (SInt 1)); ("schedules", Seq [Dict []])])
           Sample.loaded Schedules (Dict [])).
  - vm_compute. tauto.
  - reflexivity.
Defined.

Lemma update_needs_a_mapping_witness :
  update (Seq [Sample.A]) Sample.loaded = (Raise AttributeError, Sample.loaded).
Proof.
  apply (update_needs_a_mapping (Seq [Sample.A]) Sample.loaded). discriminate.
Defined.

(** The composite of the three-file project: the root's keys first, then
    [environments], which an include file brings. *)
Lemma composite_key_order_witness :
  exists b',
    Sample.layered_composite = Dict b'
    /\ keys b' = ["version"; "include_paths"; "plugins"; "schedules"; "environments"].
Proof.
  destruct (composite_key_order
              [("version", Scalar (SInt 1)); ("include_paths", Seq [Str "*.yml"]);
               ("plugins", Dict [("extractors", Seq [named "tap-a"])]);
               ("schedules", Seq [Sample.A])]
              [Sample.layered_a; Sample.layered_b] Sample.layered_composite)
    as [b' [E Hk]].
  - reflexivity.
  - exists b'. split; [exact E|]. rewrite Hk. reflexivity.
Defined.

(** A root file with [schedules:] left empty ([None]) and an include file
    with a schedule. *)
Lemma merge_kinds_must_agree_witness :
  exists e,
    deep_merge (Dict [("schedules", None_)]) [Sample.inc_doc] = Raise e.
Proof.
  apply (merge_kinds_must_agree [("schedules", None_)] [Sample.inc_doc]
                                "schedules" None_ (Seq [Sample.B]) []).
  - repeat constructor. exists [("schedules", Seq [Sample.B])]. split; auto.
    repeat constructor; cbn; tauto.
  - reflexivity.
  - reflexivity.
  - left. split; [now exists [Sample.B]|]. intros [l H]. discriminate.
Defined.

Lemma empty_mapping_merges_into_anything_witness :
  exists b',
    deep_merge Sample.root_doc [Dict [("schedules", Dict [])]] = Ok (Dict b')
    /\ lookup "schedules" b' = Some (Seq [Sample.A]).
Proof.
  destruct (empty_mapping_merges_into_anything
              [("include_paths", Seq [Str "*.yml"]); ("schedules", Seq [Sample.A])]
              "schedules" (Seq [Sample.A]))
    as [b' [Hm [_ Hl]]].
  - reflexivity.
  - exists b'. split; [exact Hm|]. rewrite Hl. reflexivity.
Defined.

(** Two include files, the second malformed: the first is indexed, then
    [load] raises. *)
Lemma malformed_include_aborts_load_witness :
  fst (load (fresh "/p" Sample.root_yml Sample.broken_include))
  = Raise (YAMLError Sample.b_yml)
  /\ logged (snd (load (fresh "/p" Sample.root_yml Sample.broken_include)))
     = [YAMLErrorLogged Sample.b_yml]
  /\ _plugin_file_map (self (snd (load (fresh "/p" Sample.root_yml Sample.broken_include))))
     = [([SStr "schedules"; SStr "B"], Sample.a_yml)].
Proof.
  rewrite (malformed_include_aborts_load
             (fresh "/p" Sample.root_yml Sample.broken_include)
             [("include_paths", Seq [Str "*.yml"]); ("schedules", Seq [Sample.A])]
             ["*.yml"] [Sample.a_yml] Sample.b_yml [] [Sample.inc_doc]).
  - repeat split.
  - reflexivity.
  - reflexivity.
  - repeat constructor.
  - reflexivity.
  - reflexivity.
  - repeat constructor.
  - repeat constructor.
    exists [("schedules", Seq [Sample.B])]. repeat split;
      [eexists; reflexivity | repeat constructor; exists "B"; reflexivity].
  - vm_compute. repeat constructor. cbn. tauto.
  - reflexivity.
Defined.

Lemma blank_subfile_adds_no_record_witness :
  exists b',
    deep_merge Sample.root_doc [BLANK_SUBFILE] = Ok (Dict b')
    /\ entities_at (Dict b') Schedules = [Sample.A]
    /\ lookup "plugins" b' = Some (Dict []).
Proof.
  destruct (blank_subfile_adds_no_record
              [("include_paths", Seq [Str "*.yml"]); ("schedules", Seq [Sample.A])])
    as [b' [Hm [He [_ [Hp _]]]]].
  - right. now exists [Sample.A].
  - exists b'. split; [exact Hm|]. split; [now rewrite He | now rewrite Hp].
Defined.

(** The three-file project: after the update every file holds what it
    held, up to the order of keys. *)
Lemma update_keeps_every_file_witness :
  exists w',
    update Sample.layered_composite (snd (load (fresh "/p" Sample.root_yml Sample.layered)))
    = (Ok Sample.layered_composite, w')
    /\ (exists held, holds (disk w') Sample.a_yml held
                     /\ py_eqb held Sample.layered_a = true).
Proof.
  destruct (@update_keeps_every_file
              (fresh "/p" Sample.root_yml Sample.layered)
              Sample.layered_composite
              (snd (load (fresh "/p" Sample.root_yml Sample.layered)))
              Sample.layered_root
              [Sample.a_yml; Sample.b_yml]
              [Sample.layered_a; Sample.layered_b])
    as [w' [Hu [_ Hfiles]]].
  - apply run_eq. reflexivity.
  - reflexivity.
  - reflexivity.
  - repeat constructor.
  - in_order.
  - cbn. repeat split; distinct.
  - repeat constructor; try in_order; try discriminate.
    + intros m k [= <-]. cbn. intuition (subst; reflexivity).
    + intros m k [= <-]. cbn. intuition (subst; reflexivity).
  - cbn. repeat split; distinct.
  - vm_compute. distinct.
  - reflexivity.
  - exists w'. split; [exact Hu|]. apply Hfiles. now left.
Defined.

(** An absolute pattern between two patterns that match. *)
Lemma refused_pattern_aborts_witness :
  _resolve_include_paths (Seq [Str "inc.*"; Str "/etc/*"; Str "*.yml"]) Sample.started
  = (Raise NotImplementedError, Sample.started).
Proof.
  destruct (refused_pattern_aborts Sample.started ["inc.*"] (Str "/etc/*") [Str "*.yml"]
                                   NotImplementedError) as [Hrun _].
  - repeat constructor.
  - reflexivity.
  - reflexivity.
  - exact Hrun.
Defined.

Lemma add_to_index_then_get_witness :
  exists w',
    _add_to_index [Str "schedules"; Str "nightly"] Sample.a_yml Sample.loaded = (Ok tt, w')
    /\ index_get (_plugin_file_map (self w')) [SStr "schedules"; SStr "nightly"]
       = Some Sample.a_yml
    /\ index_get (_plugin_file_map (self w')) [SStr "schedules"; SStr "B"]
       = Some Sample.inc_yml.
Proof.
  destruct (add_to_index_then_get [Str "schedules"; Str "nightly"]
                                  [SStr "schedules"; SStr "nightly"]
                                  Sample.a_yml Sample.loaded)
    as [w' [Hrun [Hnew [Hold _]]]].
  - reflexivity.
  - reflexivity.
  - exists w'. split; [exact Hrun|]. split; [exact Hnew|].
    rewrite Hold; [reflexivity | discriminate].
Defined.

(** A second schedule named with the number 7. *)
Lemma duplicate_of_a_name_that_is_no_string_witness :
  let w := with_index Sample.loaded [([SStr "schedules"; SInt 7], Sample.inc_yml)] in
  _add_to_index [Str "schedules"; Scalar (SInt 7)] Sample.a_yml w = (Raise TypeError, w).
Proof.
  intros w.
  apply (duplicate_of_a_name_that_is_no_string Schedules (SInt 7) Sample.a_yml w
                                               Sample.inc_yml).
  - reflexivity.
  - discriminate.
Defined.

Lemma demo_type_eqb (a b : nat) :
  AddService.type_eqb AddService.demo a b = true <-> a = b.
Proof. apply Nat.eqb_eq. Qed.

(** The target is the extractor [tap-x]: the loader and the model of its
    namespace are related to it. *)
Lemma related_plugins_are_related_witness :
  AddService.related_plugins AddService.demo (0, "tap-x", "tap")
                             (AddService.remove AddService.demo 0 [0; 1; 2])
                             [(0, "tap-x", "tap"); (1, "target-x", "tap");
                              (2, "model-x", "tap"); (1, "target-y", "other")]
  = [(1, "target-x", "tap"); (2, "model-x", "tap")]
  /\ AddService.plugin_type AddService.demo (1, "target-x", "tap")
     <> AddService.target_type AddService.demo (0, "tap-x", "tap").
Proof.
  split; [reflexivity|].
  apply (AddServiceFacts.related_plugins_are_related _ _ _ _ _
           AddService.demo demo_type_eqb (0, "tap-x", "tap") [0; 1; 2]
           [(0, "tap-x", "tap"); (1, "target-x", "tap");
            (2, "model-x", "tap"); (1, "target-y", "other")]
           (1, "target-x", "tap")).
  - repeat constructor; cbn; lia.
  - cbn. tauto.
Defined.

(** After a call for an extractor, a call for a model by default no longer
    tries the extractors. *)
Lemma default_types_shrink_witness :
  AddService.default_plugin_types
    (snd (AddService.add_related_by_default AddService.demo (0, "tap-x", "tap")
                                            (AddService.mkWorld [] [0; 1; 2])))
  = [1; 2]
  /\ AddService.related_plugins AddService.demo (2, "model-x", "tap")
       (AddService.remove AddService.demo 2 [1; 2])
       [(0, "tap-x", "tap"); (1, "target-x", "tap"); (2, "model-x", "tap")]
     = [(1, "target-x", "tap")].
Proof.
  destruct (AddServiceFacts.default_types_shrink _ _ _ _ _
              AddService.demo demo_type_eqb (0, "tap-x", "tap") (2, "model-x", "tap")
              (AddService.mkWorld [] [0; 1; 2])
              [(0, "tap-x", "tap"); (1, "target-x", "tap"); (2, "model-x", "tap")]
              (1, "target-x", "tap"))
    as [Hd _].
  - repeat constructor; cbn; lia.
  - rewrite Hd. split; reflexivity.
Defined.

(** Loader and model are in the project already. *)
Lemma add_related_when_all_are_added_witness :
  fst (fst (AddService.add_related AddService.demo (0, "tap-x", "tap") [0; 1; 2]
                                   ["target-x"; "model-x"]))
  = inl [].
Proof.
  apply (AddServiceFacts.add_related_when_all_are_added _ _ _ _ _
           AddService.demo (fun s => s = ["target-x"; "model-x"])
           (0, "tap-x", "tap") [0; 1; 2] ["target-x"; "model-x"] ["target-x"; "model-x"]
           [(0, "tap-x", "tap"); (1, "target-x", "tap"); (2, "model-x", "tap");
            (1, "target-y", "other")]).
  - reflexivity.
  - reflexivity.
  - intros plugin s0 Hin ->. cbn in Hin.
    destruct Hin as [<-|[<-|[]]]; eexists; split; reflexivity.
Defined.
